(** * Concentration: a single player matching game

    A shallow embedding of [concentration.py] (class [MatchGame], the
    functions [validate_images], [get_arguments] and [main]) together with
    the part
    of Tk, [os], [random] and [argparse] that the program relies on.

    Modelling conventions.
    - [turns] is a Python float that only ever holds multiples of one half;
      such values are represented exactly by binary floating point far beyond
      any number of clicks a session can see, so [turns] is a rational [Q],
      [+= .5] is addition of [1#2] and [% 1] is the fractional part.
    - [score] and [remaining_tiles] are Python integers: [Z].
    - Attributes that [__init__] does not create ([prev_image], [prev_name],
      [prev_tile]) are [option]s; reading an absent one raises
      [AttributeError].
    - A method is a computation in the monad [M]: it threads the object and
      either returns or raises, and what it wrote before raising stays
      written, as in Python.
    - The canvas holds its items in display order, the state of the
      [<Button-1>] binding, and the timers registered through [after].
    - Tk reads the value of a [-tags] option as a Tcl list and a tagOrId as
      a tag expression.  The canvas model takes a file name as one tag,
      which is what Tk does with a name that [Tk.tag_word] accepts;
      statements about the tags of the tiles assume this of the gif names
      of the folder. *)

From Stdlib Require Import ZArith QArith Qround Lia Ascii String.
From stdpp Require Import base list strings.

Local Open Scope Z_scope.

(** ** Python exceptions and outcomes *)

Inductive exn : Type :=
  | AttributeError (attr : string)
  | StopIteration
  | IndexError
  | ValueError
  | KeyError (key : string)
  | TclError
  | TypeError
  | NotADirectoryError
  | FileNotFoundError
  | ArgumentTypeError (msg : string).

Inductive outcome (A : Type) : Type :=
  | Return (a : A)
  | Raise (e : exn).
Arguments Return {A} a.
Arguments Raise {A} e.

Definition returned {A} (o : outcome A) : bool :=
  match o with Return _ => true | Raise _ => false end.

(** ** Floats holding halves *)

Module Float.

(** [x % 1] on a float: the distance to the floor. *)
Definition mod1 (x : Q) : Q := (x - inject_Z (Qfloor x))%Q.

(** [x % 1 == 0] *)
Definition whole (x : Q) : bool := Qeq_bool (mod1 x) 0.

(** [x > n] *)
Definition gt (x : Q) (n : Z) : bool := negb (Qle_bool x (inject_Z n)).

(** [int(x)]: truncation towards zero. *)
Definition to_int (x : Q) : Z :=
  if Qle_bool 0 x then Qfloor x else Qceiling x.

End Float.

(** ** [random.shuffle]

    The Fisher-Yates loop of the Python library,
    [for i in reversed(range(1, len(x))): j = randbelow(i + 1); x[i], x[j] = x[j], x[i]],
    with the random draws given as a list; the k-th draw is reduced modulo
    [i + 1], the bound that [randbelow] receives. *)

Definition swap {A} (i j : nat) (x : list A) : list A :=
  match x !! i, x !! j with
  | Some a, Some b => <[j:=a]> (<[i:=b]> x)
  | _, _ => x
  end.

Fixpoint shuffle_loop {A} (i : nat) (draws : list nat) (x : list A) : list A :=
  match i with
  | O => x
  | S i' =>
      let j := (hd 0%nat draws `mod` (i + 1))%nat in
      shuffle_loop i' (tl draws) (swap i j x)
  end.

Definition shuffle {A} (draws : list nat) (x : list A) : list A :=
  shuffle_loop (length x - 1) draws x.

(** ** The Tk canvas *)

Inductive label : Type :=
  | ScoreLabel (score : Z)
  | GameOverLabel (score : Z) (tries : Z).

(** What the program hands to [after]. *)
Inductive callback : Type :=
  | Disappear (image_id : nat)
  | ChangeColor (tile : list nat) (color : string)
  | SetScoreText (text : label)
  | BindPlay.

Inductive item_options : Type :=
  | Rectangle (outline fill : string)
  | Image (image : string).

Record item : Type := Item {
  item_id : nat;
  item_coords : list Z;
  item_tags : list string;
  item_options_of : item_options
}.

Record timer : Type := Timer { due : Z; handler : callback }.

Record Canvas : Type := MkCanvas {
  items : list item;          (* display list, bottom first *)
  next_id : nat;              (* identifier of the next item created *)
  button1 : bool;             (* is <Button-1> bound to play? *)
  clock : Z;                  (* milliseconds *)
  timers : list timer         (* pending [after] handlers, soonest first *)
}.

Module Tk.

(** A file name that Tk takes as one tag, both as the value of [-tags] (as
    a Tcl list it has the one element [name]) and as a tagOrId (it is a
    tag, not an expression; with its extension it is not a number and not
    one of the reserved tags): printable ASCII characters other than the
    blank, the double quote and the characters ! & ( ) \ ^ { | } that the
    two syntaxes use. *)
Definition tag_char (a : ascii) : bool :=
  let n := nat_of_ascii a in
  (33 <=? n)%nat && (n <=? 126)%nat
  && negb (bool_decide
             (n ∈ [33; 34; 38; 40; 41; 92; 94; 123; 124; 125]%nat)).

Definition tag_word (name : string) : bool :=
  bool_decide (name <> ""%string)
  && forallb tag_char (list_ascii_of_string name).

Definition set_items (l : list item) (c : Canvas) : Canvas :=
  MkCanvas l (next_id c) (button1 c) (clock c) (timers c).

Definition set_timers (l : list timer) (c : Canvas) : Canvas :=
  MkCanvas (items c) (next_id c) (button1 c) (clock c) l.

Definition set_clock (t : Z) (c : Canvas) : Canvas :=
  MkCanvas (items c) (next_id c) (button1 c) t (timers c).

Definition empty : Canvas := MkCanvas [] 1 false 0 [].

Definition bind (c : Canvas) : Canvas :=
  MkCanvas (items c) (next_id c) true (clock c) (timers c).

Definition unbind (c : Canvas) : Canvas :=
  MkCanvas (items c) (next_id c) false (clock c) (timers c).

Definition create (coords : list Z) (tags : list string)
    (opts : item_options) (c : Canvas) : nat * Canvas :=
  (next_id c,
   MkCanvas (items c ++ [Item (next_id c) coords tags opts])
            (S (next_id c)) (button1 c) (clock c) (timers c)).

Definition create_rectangle (x1 y1 x2 y2 : Z) (outline fill : string) :=
  create [x1; y1; x2; y2] [] (Rectangle outline fill).

(** [create_image(x, y, image=..., tag=tag)], for a [tag] that is one tag
    ([tag_word]). *)
Definition create_image (x y : Z) (image tag : string) :=
  create [x; y] [tag] (Image image).

Definition find_item (i : nat) (c : Canvas) : option item :=
  List.find (fun it => Nat.eqb (item_id it) i) (items c).

(** A tuple of identifiers used as tagOrId names an item only when it has
    exactly one element. *)
Definition single (tile : list nat) : option nat :=
  match tile with [i] => Some i | _ => None end.

Definition find_all (c : Canvas) : list nat := map item_id (items c).

(** [find_withtag(CURRENT)]: the item under the pointer, if any. *)
Definition find_withtag_current (pointer : option nat) (c : Canvas)
    : list nat :=
  match pointer with
  | Some i => match find_item i c with Some _ => [i] | None => [] end
  | None => []
  end.

(** [gettags] of the item under the pointer; Tk appends the tag
    [current] to that item's own tags. *)
Definition gettags (tile : list nat) (c : Canvas) : list string :=
  match single tile with
  | Some i =>
      match find_item i c with
      | Some it => item_tags it ++ ["current"%string]
      | None => []
      end
  | None => []
  end.

Definition coords (tile : list nat) (c : Canvas) : list Z :=
  match single tile with
  | Some i =>
      match find_item i c with
      | Some it => item_coords it
      | None => []
      end
  | None => []
  end.

Definition update (i : nat) (f : item -> item) (c : Canvas) : Canvas :=
  set_items
    (map (fun it => if Nat.eqb (item_id it) i then f it else it) (items c))
    c.

Definition with_tags (tags : list string) (it : item) : item :=
  Item (item_id it) (item_coords it) tags (item_options_of it).

Definition with_fill (fill : string) (it : item) : item :=
  match item_options_of it with
  | Rectangle outline _ =>
      Item (item_id it) (item_coords it) (item_tags it)
           (Rectangle outline fill)
  | Image _ => it
  end.

Definition has_fill (i : nat) (c : Canvas) : bool :=
  match find_item i c with
  | Some it =>
      match item_options_of it with Rectangle _ _ => true | Image _ => false end
  | None => true
  end.

(** [itemconfig(i, tag=name)], for a [name] that is one tag
    ([tag_word]). *)
Definition itemconfig_tag (i : nat) (name : string) (c : Canvas) : Canvas :=
  update i (with_tags [name]) c.

(** [itemconfig(name, tag=new)]: every item carrying the tag [name], for
    a [name] and a [new] that are one tag each ([tag_word]). *)
Definition itemconfig_tag_withtag (name new : string) (c : Canvas)
    : Canvas :=
  set_items
    (map (fun it =>
            if bool_decide (name ∈ item_tags it) then with_tags [new] it
            else it)
         (items c))
    c.

(** [itemconfigure(i, fill=color)]; an image item has no such option and
    Tk reports an error. *)
Definition itemconfig_fill (i : nat) (fill : string) (c : Canvas)
    : outcome unit * Canvas :=
  if has_fill i c then (Return tt, update i (with_fill fill) c)
  else (Raise TclError, c).

(** [itemconfig(i, tag=name, fill=color)]: the options are applied in
    order, so the tag is set before an unknown [fill] is reported. *)
Definition itemconfig_tag_fill (i : nat) (name fill : string) (c : Canvas)
    : outcome unit * Canvas :=
  itemconfig_fill i fill (itemconfig_tag i name c).

Definition delete (i : nat) (c : Canvas) : Canvas :=
  set_items (filter (fun it => item_id it ≠ i) (items c)) c.

Definition delete_withtag (tag : string) (c : Canvas) : Canvas :=
  set_items (filter (fun it => tag ∉ item_tags it) (items c)) c.

(** [after(ms, f, args)]: the handler is queued behind every handler that
    is due no later. *)
Fixpoint enqueue (t : timer) (q : list timer) : list timer :=
  match q with
  | [] => [t]
  | u :: q' => if due u <=? due t then u :: enqueue t q' else t :: u :: q'
  end.

Definition after (ms : Z) (f : callback) (c : Canvas) : Canvas :=
  set_timers (enqueue (Timer (clock c + ms) f) (timers c)) c.

End Tk.

(** ** [os.path] and [os.listdir] *)

Module Os.

Inductive node : Type :=
  | File
  | Directory (entries : list string).

Definition filesystem : Type := string -> option node.

Definition exists_ (fs : filesystem) (path : string) : bool :=
  match fs path with Some _ => true | None => false end.

Definition listdir (fs : filesystem) (path : string)
    : outcome (list string) :=
  match fs path with
  | Some (Directory entries) => Return entries
  | Some File => Raise NotADirectoryError
  | None => Raise FileNotFoundError
  end.

(** [str.rfind] of a character: the last index, or -1. *)
Fixpoint rfind (ch : ascii) (p : list ascii) : Z :=
  match p with
  | [] => -1
  | a :: p' =>
      let k := rfind ch p' in
      if 0 <=? k then k + 1 else if Ascii.eqb a ch then 0 else -1
  end.

(** [os.path.splitext]: the extension starts at the last dot, unless only
    dots stand between the last separator and that dot. *)
Definition splitext (path : string) : string * string :=
  let p := list_ascii_of_string path in
  let sepIndex := rfind "/"%char p in
  let dotIndex := rfind "."%char p in
  if (sepIndex <? dotIndex)
     && existsb (fun a => negb (Ascii.eqb a "."%char))
          (take (Z.to_nat (dotIndex - (sepIndex + 1)))
                (drop (Z.to_nat (sepIndex + 1)) p))
  then (string_of_list_ascii (take (Z.to_nat dotIndex) p),
        string_of_list_ascii (drop (Z.to_nat dotIndex) p))
  else (path, ""%string).

End Os.

(** [os.path.splitext(name)[-1] == ".gif"] *)
Definition is_gif (name : string) : bool :=
  bool_decide ((Os.splitext name).2 = ".gif"%string).

Definition gif_names (listing : list string) : list string :=
  List.filter is_gif listing.

(** ** The game object *)

Record MatchGame : Type := MkGame {
  turns : Q;
  delay : Z;
  remaining_tiles : Z;
  color : string;
  image_names : list string;
  image_dict : list string;       (* the keys, in insertion order *)
  canvas : Canvas;
  score : Z;
  score_text : label;
  prev_image : option nat;
  prev_name : option string;
  prev_tile : option (list nat)
}.

Definition set_turns (v : Q) (g : MatchGame) : MatchGame :=
  MkGame v (delay g) (remaining_tiles g) (color g) (image_names g)
    (image_dict g) (canvas g) (score g) (score_text g) (prev_image g)
    (prev_name g) (prev_tile g).

Definition set_remaining_tiles (v : Z) (g : MatchGame) : MatchGame :=
  MkGame (turns g) (delay g) v (color g) (image_names g)
    (image_dict g) (canvas g) (score g) (score_text g) (prev_image g)
    (prev_name g) (prev_tile g).

Definition set_image_names (v : list string) (g : MatchGame) : MatchGame :=
  MkGame (turns g) (delay g) (remaining_tiles g) (color g) v
    (image_dict g) (canvas g) (score g) (score_text g) (prev_image g)
    (prev_name g) (prev_tile g).

Definition set_canvas (v : Canvas) (g : MatchGame) : MatchGame :=
  MkGame (turns g) (delay g) (remaining_tiles g) (color g) (image_names g)
    (image_dict g) v (score g) (score_text g) (prev_image g)
    (prev_name g) (prev_tile g).

Definition set_score (v : Z) (g : MatchGame) : MatchGame :=
  MkGame (turns g) (delay g) (remaining_tiles g) (color g) (image_names g)
    (image_dict g) (canvas g) v (score_text g) (prev_image g)
    (prev_name g) (prev_tile g).

Definition set_score_text (v : label) (g : MatchGame) : MatchGame :=
  MkGame (turns g) (delay g) (remaining_tiles g) (color g) (image_names g)
    (image_dict g) (canvas g) (score g) v (prev_image g)
    (prev_name g) (prev_tile g).

Definition set_prev_image (v : option nat) (g : MatchGame) : MatchGame :=
  MkGame (turns g) (delay g) (remaining_tiles g) (color g) (image_names g)
    (image_dict g) (canvas g) (score g) (score_text g) v
    (prev_name g) (prev_tile g).

Definition set_prev_name (v : option string) (g : MatchGame) : MatchGame :=
  MkGame (turns g) (delay g) (remaining_tiles g) (color g) (image_names g)
    (image_dict g) (canvas g) (score g) (score_text g) (prev_image g)
    v (prev_tile g).

Definition set_prev_tile (v : option (list nat)) (g : MatchGame)
    : MatchGame :=
  MkGame (turns g) (delay g) (remaining_tiles g) (color g) (image_names g)
    (image_dict g) (canvas g) (score g) (score_text g) (prev_image g)
    (prev_name g) v.

(** ** Methods as computations on the object *)

Definition M (A : Type) : Type := MatchGame -> outcome A * MatchGame.

#[global] Instance M_ret : MRet M := fun A a g => (Return a, g).

#[global] Instance M_bind : MBind M := fun A B f m g =>
  match m g with
  | (Return a, g') => f a g'
  | (Raise e, g') => (Raise e, g')
  end.

Definition raise {A} (e : exn) : M A := fun g => (Raise e, g).

Definition get {A} (f : MatchGame -> A) : M A := fun g => (Return (f g), g).

Definition modify (f : MatchGame -> MatchGame) : M unit :=
  fun g => (Return tt, f g).

(** Reading an attribute that may not have been created yet. *)
Definition attr {A} (name : string) (f : MatchGame -> option A) : M A :=
  fun g =>
    match f g with
    | Some a => (Return a, g)
    | None => (Raise (AttributeError name), g)
    end.

Definition on_canvas (f : Canvas -> Canvas) : M unit :=
  modify (fun g => set_canvas (f (canvas g)) g).

Definition canvas_call {A} (f : Canvas -> outcome A * Canvas) : M A :=
  fun g => let '(o, c) := f (canvas g) in (o, set_canvas c g).

(** [self.canvas.after(self.delay, f, args)] *)
Definition after_delay (f : callback) : M unit :=
  d ← get delay; on_canvas (Tk.after d f).

(** The loop [for tile in self.canvas.find_all(): self.canvas.itemconfig(tile,
    tag=next(img_iterator) [, fill=...])]. The iterator is asked for a name
    before the item is configured. *)
Fixpoint assign_images (fill : option string) (tiles : list nat)
    (img_iterator : list string) (c : Canvas) : outcome unit * Canvas :=
  match tiles with
  | [] => (Return tt, c)
  | tile :: tiles' =>
      match img_iterator with
      | [] => (Raise StopIteration, c)
      | name :: img_iterator' =>
          match fill with
          | None =>
              assign_images fill tiles' img_iterator'
                (Tk.itemconfig_tag tile name c)
          | Some f =>
              match Tk.itemconfig_tag_fill tile name f c with
              | (Return _, c') => assign_images fill tiles' img_iterator' c'
              | (Raise e, c') => (Raise e, c')
              end
          end
      end
  end.

(** [range(0, 600, 150)] *)
Definition range_0_600_150 : list Z := [0; 150; 300; 450].

Definition create_tiles (player_color : string) (c : Canvas) : Canvas :=
  foldl (fun c row =>
           foldl (fun c col =>
                    (Tk.create_rectangle col row (col + 150) (row + 150)
                       player_color "yellow" c).2)
                 c range_0_600_150)
        c range_0_600_150.

(** [{name: tkinter.PhotoImage(file=os.path.join(folder, name)) for name in
    folder_images}]: every gif file of the folder is read, in the order of
    the listing, and a file that Tk cannot read as an image raises
    [TclError].  [readable name] says whether the file [name] of the folder
    holds an image that Tk can read.  The dictionary is modelled by its
    keys. *)
Definition load_images (readable : string -> bool)
    (folder_images : list string) : outcome (list string) :=
  if forallb readable folder_images then Return folder_images
  else Raise TclError.

(** [MatchGame.__init__]; [listing] is what [os.listdir(folder)] returns,
    [readable] says which files of the folder hold an image, [draws] are the
    random numbers used by the shuffle and [fast] is the [delay]
    argument. *)
Definition init (player_color : string) (listing : list string)
    (readable : string -> bool) (fast : bool) (draws : list nat)
    : outcome MatchGame :=
  let folder_images := gif_names listing in
  match load_images readable folder_images with
  | Raise e => Raise e
  | Return image_dict =>
      let image_names := shuffle draws (folder_images ++ folder_images) in
      let c := create_tiles player_color Tk.empty in
      let c := foldl (fun c name => Tk.itemconfig_tag_withtag name "image" c)
                     c image_dict in
      match assign_images None (Tk.find_all c) image_names c with
      | (Raise e, _) => Raise e
      | (Return _, c) =>
          Return (MkGame 0 (if fast then 1000 else 3000) 16 player_color
                    image_names image_dict (Tk.bind c) 100 (ScoreLabel 100)
                    None None None)
      end
  end.

(** [MatchGame.appear] *)
Definition appear (tile : list nat) (image_name : string) : M nat :=
  xy ← get (fun g => Tk.coords tile (canvas g));
  match xy with
  | [x1; y1; x2; y2] =>
      dict ← get image_dict;
      if bool_decide (image_name ∈ dict) then
        canvas_call (fun c =>
          let '(image_id, c') :=
            Tk.create_image ((x1 + x2) / 2) ((y1 + y2) / 2)
              image_name image_name c in
          (Return image_id, c'))
      else raise (KeyError image_name)
  | _ => raise ValueError
  end.

(** [MatchGame.disappear] *)
Definition disappear (image_id : nat) : M unit :=
  on_canvas (Tk.delete image_id).

(** [MatchGame.change_color] *)
Definition change_color (tile : list nat) (color : string) : M unit :=
  match Tk.single tile with
  | Some i => canvas_call (Tk.itemconfig_fill i color)
  | None => mret tt
  end.

(** [MatchGame.play]; [pointer] is the canvas item under the mouse. *)
Definition play (pointer : option nat) : M unit :=
  tile ← get (fun g => Tk.find_withtag_current pointer (canvas g));
  tags ← get (fun g => Tk.gettags tile (canvas g));
  image_name ← match tags with
               | name :: _ => mret name
               | [] => raise IndexError
               end;
  modify (fun g => set_turns (turns g + (1 # 2))%Q g);;
  t ← get turns;
  (if Float.gt t 13 && Float.whole t then
     modify (fun g => set_score (score g - 10) g);;
     modify (fun g => set_score_text (ScoreLabel (score g)) g)
   else mret tt);;
  t ← get turns;
  if negb (Float.whole t) then
    image_id ← appear tile image_name;
    modify (set_prev_image (Some image_id));;
    modify (set_prev_name (Some image_name));;
    modify (set_prev_tile (Some tile))
  else
    on_canvas Tk.unbind;;
    curr ← appear tile image_name;
    previous ← attr "prev_name" prev_name;
    (if bool_decide (image_name = previous) then
       modify (fun g => set_remaining_tiles (remaining_tiles g - 2) g);;
       after_delay (Disappear curr);;
       p ← attr "prev_image" prev_image;
       after_delay (Disappear p);;
       col ← get color;
       after_delay (ChangeColor tile col);;
       pt ← attr "prev_tile" prev_tile;
       col ← get color;
       after_delay (ChangeColor pt col)
     else
       after_delay (Disappear curr);;
       p ← attr "prev_image" prev_image;
       after_delay (Disappear p));;
    remaining ← get remaining_tiles;
    if bool_decide (remaining = 0) then
      on_canvas Tk.unbind;;
      s ← get score;
      t ← get turns;
      after_delay (SetScoreText (GameOverLabel s (Float.to_int t)))
    else
      after_delay BindPlay.

(** [MatchGame.restart]; [draws] are the random numbers of the shuffle. *)
Definition restart (draws : list nat) : M unit :=
  p ← attr "prev_image" prev_image;
  (if bool_decide (p ≠ 0%nat) then on_canvas (Tk.after 0 (Disappear p))
   else mret tt);;
  on_canvas (Tk.delete_withtag "image");;
  modify (fun g => set_image_names (shuffle draws (image_names g)) g);;
  img_iterator ← get image_names;
  tiles ← get (fun g => Tk.find_all (canvas g));
  canvas_call (assign_images (Some "yellow"%string) tiles img_iterator);;
  modify (set_score 100);;
  modify (set_turns 0);;
  modify (set_remaining_tiles 16);;
  modify (fun g => set_score_text (ScoreLabel (score g)) g);;
  on_canvas Tk.bind.

(** ** The Tk main loop

    Tk calls a handler, reports an exception it raises and carries on; the
    object keeps what the handler wrote.  Handlers registered with [after]
    run once their time has come, in the order of the queue. *)

Definition callback_wrapper (m : M unit) (g : MatchGame) : MatchGame :=
  (m g).2.

Definition fire (f : callback) : M unit :=
  match f with
  | Disappear image_id => disappear image_id
  | ChangeColor tile col => change_color tile col
  | SetScoreText text => modify (set_score_text text)
  | BindPlay => on_canvas Tk.bind
  end.

Fixpoint run_timers (q : list timer) (g : MatchGame) : MatchGame :=
  match q with
  | [] => g
  | t :: q' =>
      if due t <=? clock (canvas g) then
        run_timers q'
          (callback_wrapper (fire (handler t))
             (set_canvas (Tk.set_timers q' (canvas g)) g))
      else g
  end.

Definition idle (g : MatchGame) : MatchGame :=
  run_timers (timers (canvas g)) g.

(** What the player can do on the canvas: click with the pointer over some
    item (or over none), or let time pass. *)
Inductive input : Type :=
  | Click (pointer : option nat)
  | Elapse (ms : nat).

(** The RESTART button is outside the canvas and always enabled. *)
Inductive event : Type :=
  | Input (i : input)
  | PressRestart (draws : list nat).

Definition deliver_input (g : MatchGame) (i : input) : MatchGame :=
  match i with
  | Click pointer =>
      if button1 (canvas g) then idle (callback_wrapper (play pointer) g)
      else idle g
  | Elapse ms =>
      idle (set_canvas
              (Tk.set_clock (clock (canvas g) + Z.of_nat ms) (canvas g)) g)
  end.

Definition deliver (g : MatchGame) (ev : event) : MatchGame :=
  match ev with
  | Input i => deliver_input g i
  | PressRestart draws => idle (callback_wrapper (restart draws) g)
  end.

Definition session (g : MatchGame) (ins : list input) : MatchGame :=
  foldl deliver_input g ins.

Definition run (g : MatchGame) (evs : list event) : MatchGame :=
  foldl deliver g evs.

(** Does the click reach the line [self.turns += .5]?  It does when the
    canvas is bound and an item is under the pointer. *)
Definition counted (g : MatchGame) (i : input) : bool :=
  match i with
  | Click pointer =>
      button1 (canvas g)
      && bool_decide (Tk.find_withtag_current pointer (canvas g) ≠ [])
  | Elapse _ => false
  end.

Fixpoint counted_clicks (g : MatchGame) (ins : list input) : nat :=
  match ins with
  | [] => 0
  | i :: ins' =>
      ((if counted g i then 1 else 0)
       + counted_clicks (deliver_input g i) ins')%nat
  end.

(** ** Command line *)

(** [validate_images] *)
Definition validate_images (fs : Os.filesystem) (image_folder : string)
    : outcome string :=
  if negb (Os.exists_ fs image_folder) then
    Raise (ArgumentTypeError (image_folder +:+ " is not a valid folder"))
  else
    match Os.listdir fs image_folder with
    | Raise e => Raise e
    | Return listing =>
        let names := gif_names listing in
        if (length names <? 8)%nat then
          Raise (ArgumentTypeError
                   (image_folder +:+ " must contain at least 8 gif images"))
        else Return image_folder
    end.

(** ** [argparse]

    [ArgumentParser.parse_args] as in CPython 3.11, for the parser that
    [get_arguments] builds: the optionals [-h], [--help] (help) and [-f],
    [--fast] (store_true), the positionals [color] (with choices) and
    [image_folder] (with [type=validate_images]).  An error of the parser
    prints the usage and exits with status 2; the help action prints the
    help and exits with status 0; an exception that [argparse] does not
    catch leaves [parse_args].  In the pattern of negative numbers only the
    digits 0 to 9 are taken as digits. *)
Inductive parsed (A : Type) : Type :=
  | Parsed (a : A)
  | UsageError (msg : string)
  | HelpShown
  | Uncaught (e : exn).
Arguments Parsed {A} a.
Arguments UsageError {A} msg.
Arguments HelpShown {A}.
Arguments Uncaught {A} e.

(** How [argparse] treats an argument declared with [type=f]
    ([_get_value]): an [ArgumentTypeError], a [TypeError] or a [ValueError]
    raised by [f] becomes a usage error; any other exception is not
    caught. *)
Definition argparse_type {A} (f : string -> outcome A) (arg : string)
    : parsed A :=
  match f arg with
  | Return a => Parsed a
  | Raise (ArgumentTypeError msg) => UsageError msg
  | Raise ValueError => UsageError "invalid value"
  | Raise TypeError => UsageError "invalid value"
  | Raise e => Uncaught e
  end.

Module Argparse.

(** The optional actions of the parser. *)
Inductive action : Type := Help | StoreTrue.

(** [_option_string_actions], in the order of registration. *)
Definition option_string_actions : list (string * action) :=
  [("-h", Help); ("--help", Help); ("-f", StoreTrue);
   ("--fast", StoreTrue)]%string.

Definition lookup (option_string : string) : option action :=
  match List.find (fun p => String.eqb p.1 option_string)
          option_string_actions with
  | Some p => Some p.2
  | None => None
  end.

(** [c in s] *)
Fixpoint contains (c : ascii) (s : string) : bool :=
  match s with
  | EmptyString => false
  | String a s' => Ascii.eqb a c || contains c s'
  end.

(** [s.split(c, 1)] when [c] occurs in [s]. *)
Fixpoint split_at (c : ascii) (s : string) : option (string * string) :=
  match s with
  | EmptyString => None
  | String a s' =>
      if Ascii.eqb a c then Some (EmptyString, s')
      else match split_at c s' with
           | Some (l, r) => Some (String a l, r)
           | None => None
           end
  end.

Definition is_digit (a : ascii) : bool :=
  let n := nat_of_ascii a in (48 <=? n)%nat && (n <=? 57)%nat.

Fixpoint digits (s : string) : bool :=
  match s with
  | EmptyString => true
  | String a s' => is_digit a && digits s'
  end.

(** [\d+|\d*\.\d+], on the whole of [s]. *)
Definition number_body (s : string) : bool :=
  match split_at "." s with
  | Some (l, r) => digits l && digits r && negb (String.eqb r "")
  | None => digits s && negb (String.eqb s "")
  end.

(** [s] without a final newline. *)
Fixpoint chomp (s : string) : string :=
  match s with
  | EmptyString => EmptyString
  | String a EmptyString =>
      if Ascii.eqb a "010" then EmptyString else s
  | String a s' => String a (chomp s')
  end.

(** [_negative_number_matcher]: [^-\d+$|^-\d*\.\d+$]; the [$] also matches
    before a newline that ends the string. *)
Definition negative_number (s : string) : bool :=
  match s with
  | String "-" body => number_body body || number_body (chomp body)
  | _ => false
  end.

(** An option tuple: the action (if any), the option string and the explicit
    argument (if any). *)
Record option_tuple : Type := OptionTuple {
  tuple_action : option action;
  tuple_string : string;
  tuple_explicit : option string
}.

(** Is the second character of the option string a prefix character? *)
Definition double_dash (option_string : string) : bool :=
  match option_string with
  | String _ (String "-" _) => true
  | _ => false
  end.

(** [_get_option_tuples], called on strings of at least two characters that
    start with [-]. *)
Definition get_option_tuples (arg_string : string) : list option_tuple :=
  if double_dash arg_string then
    let '(option_prefix, explicit_arg) :=
      match split_at "=" arg_string with
      | Some (l, r) => (l, Some r)
      | None => (arg_string, None)
      end in
    omap (fun p : string * action =>
            if String.prefix option_prefix p.1
            then Some (OptionTuple (Some p.2) p.1 explicit_arg)
            else None)
         option_string_actions
  else
    let short_option_prefix := String.substring 0 2 arg_string in
    let short_explicit_arg :=
      String.substring 2 (String.length arg_string - 2) arg_string in
    omap (fun p : string * action =>
            if String.eqb p.1 short_option_prefix
            then Some (OptionTuple (Some p.2) p.1 (Some short_explicit_arg))
            else if String.prefix arg_string p.1
            then Some (OptionTuple (Some p.2) p.1 None)
            else None)
         option_string_actions.

(** [_parse_optional]: [None] for a positional, an option tuple for an
    optional, or the error of an ambiguous abbreviation. *)
Inductive classification : Type :=
  | IsPositional
  | IsOptional (t : option_tuple)
  | IsAmbiguous.

Definition parse_optional (arg_string : string) : classification :=
  match arg_string with
  | EmptyString => IsPositional
  | String a _ =>
      if negb (Ascii.eqb a "-") then IsPositional
      else
        match lookup arg_string with
        | Some act => IsOptional (OptionTuple (Some act) arg_string None)
        | None =>
            if (String.length arg_string =? 1)%nat then IsPositional
            else
              let with_equals :=
                match split_at "=" arg_string with
                | Some (option_string, explicit_arg) =>
                    match lookup option_string with
                    | Some act =>
                        Some (OptionTuple (Some act) option_string
                                (Some explicit_arg))
                    | None => None
                    end
                | None => None
                end in
              match with_equals with
              | Some t => IsOptional t
              | None =>
                  match get_option_tuples arg_string with
                  | _ :: _ :: _ => IsAmbiguous
                  | [t] => IsOptional t
                  | [] =>
                      if negative_number arg_string then IsPositional
                      else if contains " " arg_string then IsPositional
                      else IsOptional (OptionTuple None arg_string None)
                  end
              end
        end
  end.

(** The pattern of the arguments: [A] for a positional, [O] for an optional
    and [-] for the first [--], after which everything is a positional. *)
Inductive kind : Type :=
  | A
  | O (t : option_tuple)
  | Dash.

Fixpoint classify (arg_strings : list string)
    : option (list (string * kind)) :=
  match arg_strings with
  | [] => Some []
  | arg_string :: rest =>
      if String.eqb arg_string "--" then
        Some ((arg_string, Dash) :: map (fun s => (s, A)) rest)
      else
        match parse_optional arg_string with
        | IsAmbiguous => None
        | IsPositional =>
            match classify rest with
            | Some pattern => Some ((arg_string, A) :: pattern)
            | None => None
            end
        | IsOptional t =>
            match classify rest with
            | Some pattern => Some ((arg_string, O t) :: pattern)
            | None => None
            end
        end
  end.

(** The value of a positional: one converted string, or the list that
    [_get_values] builds when it is not handed exactly one string. *)
Inductive value : Type :=
  | Str (s : string)
  | Strs (l : list string).

Inductive positional : Type := Color | ImageFolder.

Record namespace : Type := Namespace {
  ns_color : option value;
  ns_image_folder : option value;
  ns_fast : bool
}.

(** [arg_strings.remove('--')], when it is there. *)
Fixpoint remove_dashes (arg_strings : list string) : list string :=
  match arg_strings with
  | [] => []
  | s :: rest =>
      if String.eqb s "--" then rest else s :: remove_dashes rest
  end.

(** [_get_value] followed by [_check_value], for each of the positionals. *)
Definition convert (fs : Os.filesystem) (p : positional) (arg_string : string)
    : parsed string :=
  match p with
  | Color =>
      if bool_decide (arg_string ∈ ["blue"; "green"; "magenta"]%string)
      then Parsed arg_string
      else UsageError "invalid choice"
  | ImageFolder => argparse_type (validate_images fs) arg_string
  end.

Fixpoint convert_all (fs : Os.filesystem) (p : positional)
    (arg_strings : list string) : parsed (list string) :=
  match arg_strings with
  | [] => Parsed []
  | s :: rest =>
      match p with
      | Color =>
          (* every string is converted (the identity) before any is
             checked *)
          if forallb (fun a => bool_decide
                        (a ∈ ["blue"; "green"; "magenta"]%string))
               arg_strings
          then Parsed arg_strings
          else UsageError "invalid choice"
      | ImageFolder =>
          match argparse_type (validate_images fs) s with
          | Parsed v =>
              match convert_all fs p rest with
              | Parsed vs => Parsed (v :: vs)
              | UsageError msg => UsageError msg
              | HelpShown => HelpShown
              | Uncaught e => Uncaught e
              end
          | UsageError msg => UsageError msg
          | HelpShown => HelpShown
          | Uncaught e => Uncaught e
          end
      end
  end.

(** [_get_values] for a positional with [nargs=None]. *)
Definition get_values (fs : Os.filesystem) (p : positional)
    (arg_strings : list string) : parsed value :=
  match remove_dashes arg_strings with
  | [arg_string] =>
      match convert fs p arg_string with
      | Parsed v => Parsed (Str v)
      | UsageError msg => UsageError msg
      | HelpShown => HelpShown
      | Uncaught e => Uncaught e
      end
  | l =>
      match convert_all fs p l with
      | Parsed vs => Parsed (Strs vs)
      | UsageError msg => UsageError msg
      | HelpShown => HelpShown
      | Uncaught e => Uncaught e
      end
  end.

Definition store (p : positional) (v : value) (ns : namespace) : namespace :=
  match p with
  | Color => Namespace (Some v) (ns_image_folder ns) (ns_fast ns)
  | ImageFolder => Namespace (ns_color ns) (Some v) (ns_fast ns)
  end.

(** The single-dash options after the first in one argument ([-fh] is [-f]
    followed by [-h]); [None] is the error of an ignored explicit
    argument. *)
Fixpoint cluster_tail (explicit_arg : string) : option (list action) :=
  match explicit_arg with
  | EmptyString => Some []
  | String c rest =>
      match lookup (String "-" (String c EmptyString)) with
      | Some act =>
          match cluster_tail rest with
          | Some acts => Some (act :: acts)
          | None => None
          end
      | None => None
      end
  end.

(** The actions that [consume_optional] collects for an option tuple with an
    action. *)
Definition cluster (act : action) (option_string : string)
    (explicit_arg : option string) : option (list action) :=
  match explicit_arg with
  | None => Some [act]
  | Some e =>
      if negb (double_dash option_string) && negb (String.eqb e "")
      then match cluster_tail e with
           | Some acts => Some (act :: acts)
           | None => None
           end
      else None
  end.

(** The parser between two arguments: the positionals that are still to be
    matched, the namespace and the extra arguments. *)
Record state : Type := State {
  todo : list positional;
  ns : namespace;
  extras : list string
}.

(** Taking the collected optional actions in order: the help action exits. *)
Fixpoint take_optionals (acts : list action) (st : state) : parsed state :=
  match acts with
  | [] => Parsed st
  | Help :: _ => HelpShown
  | StoreTrue :: acts' =>
      take_optionals acts'
        (State (todo st)
           (Namespace (ns_color (ns st)) (ns_image_folder (ns st)) true)
           (extras st))
  end.

Definition take_positional (fs : Os.filesystem) (arg_strings : list string)
    (st : state) : parsed state :=
  match todo st with
  | [] => Parsed st
  | p :: todo' =>
      match get_values fs p arg_strings with
      | Parsed v => Parsed (State todo' (store p v (ns st)) (extras st))
      | UsageError msg => UsageError msg
      | HelpShown => HelpShown
      | Uncaught e => Uncaught e
      end
  end.

Definition extra (arg_string : string) (st : state) : state :=
  State (todo st) (ns st) (extras st ++ [arg_string]).

Definition and_then {A B} (r : parsed A) (k : A -> parsed B) : parsed B :=
  match r with
  | Parsed a => k a
  | UsageError msg => UsageError msg
  | HelpShown => HelpShown
  | Uncaught e => Uncaught e
  end.

(** The loop of [_parse_known_args].  Positionals are matched against the
    pattern [-*A-*] each, as many as possible, so a positional takes the
    dash next to it; what cannot be matched before the next optional is
    extra.  The pattern holds at most one dash. *)
Fixpoint consume (fs : Os.filesystem) (pattern : list (string * kind))
    (st : state) : parsed state :=
  match pattern with
  | [] => Parsed st
  | (arg_string, O t) :: rest =>
      match tuple_action t with
      | None => consume fs rest (extra arg_string st)
      | Some act =>
          match cluster act (tuple_string t) (tuple_explicit t) with
          | Some acts => and_then (take_optionals acts st) (consume fs rest)
          | None => UsageError "ignored explicit argument"
          end
      end
  | (arg_string, A) :: (((dash, Dash) :: rest) as tail) =>
      match todo st with
      | [] => consume fs tail (extra arg_string st)
      | _ :: _ =>
          and_then (take_positional fs [arg_string; dash] st)
            (consume fs rest)
      end
  | (arg_string, A) :: rest =>
      match todo st with
      | [] => consume fs rest (extra arg_string st)
      | _ :: _ =>
          and_then (take_positional fs [arg_string] st) (consume fs rest)
      end
  | (dash, Dash) :: (((arg_string, A) :: rest) as tail) =>
      match todo st with
      | [] => consume fs tail (extra dash st)
      | _ :: _ =>
          and_then (take_positional fs [dash; arg_string] st)
            (consume fs rest)
      end
  | (dash, Dash) :: rest => consume fs rest (extra dash st)
  end.

(** [parse_args]: ambiguous abbreviations are reported while the pattern is
    built; missing positionals are reported before extra arguments. *)
Definition parse_args (fs : Os.filesystem) (arg_strings : list string)
    : parsed namespace :=
  match classify arg_strings with
  | None => UsageError "ambiguous option"
  | Some pattern =>
      match consume fs pattern
              (State [Color; ImageFolder] (Namespace None None false) [])
      with
      | Parsed st =>
          match todo st with
          | _ :: _ => UsageError "the following arguments are required"
          | [] =>
              match extras st with
              | _ :: _ => UsageError "unrecognized arguments"
              | [] => Parsed (ns st)
              end
          end
      | UsageError msg => UsageError msg
      | HelpShown => HelpShown
      | Uncaught e => Uncaught e
      end
  end.

End Argparse.

(** [get_arguments]; [argv] is [sys.argv[1:]]. *)
Definition get_arguments (fs : Os.filesystem) (argv : list string)
    : parsed (Argparse.value * Argparse.value * bool) :=
  match Argparse.parse_args fs argv with
  | Parsed arguments =>
      match Argparse.ns_color arguments,
            Argparse.ns_image_folder arguments with
      | Some color, Some image_folder =>
          Parsed (color, image_folder, Argparse.ns_fast arguments)
      | _, _ => Uncaught (AttributeError "color")
      end
  | UsageError msg => UsageError msg
  | HelpShown => HelpShown
  | Uncaught e => Uncaught e
  end.

(** [main] up to the main loop ([run] below takes over from there).
    [display] says whether [tkinter.Tk()] finds a display; without one it
    raises [TclError].  A list as colour reaches Tk as the empty string; a
    list as folder makes [os.listdir] raise [TypeError]. *)
Definition main (fs : Os.filesystem) (display : bool)
    (readable : string -> bool) (argv : list string) (draws : list nat)
    : parsed MatchGame :=
  match get_arguments fs argv with
  | Parsed (color, image_folder, fast) =>
      if negb display then Uncaught TclError
      else
        match image_folder with
        | Argparse.Str folder =>
            match Os.listdir fs folder with
            | Return listing =>
                let player_color :=
                  match color with
                  | Argparse.Str c => c
                  | Argparse.Strs _ => ""%string
                  end in
                match init player_color listing readable fast draws with
                | Return match_game => Parsed match_game
                | Raise e => Uncaught e
                end
            | Raise e => Uncaught e
            end
        | Argparse.Strs _ => Uncaught TypeError
        end
  | UsageError msg => UsageError msg
  | HelpShown => HelpShown
  | Uncaught e => Uncaught e
  end.

(** ** Sample data *)

Definition eight_gifs : list string :=
  ["a.gif"; "b.gif"; "c.gif"; "d.gif"; "e.gif"; "f.gif"; "g.gif"; "h.gif"]%string.

Definition nine_gifs : list string := eight_gifs ++ ["i.gif"%string].

(** Every file of the sample folders holds an image. *)
Definition all_readable : string -> bool := fun _ => true.

Definition is_rectangle (it : item) : bool :=
  match item_options_of it with Rectangle _ _ => true | Image _ => false end.

(** The tiles, and the image name each one carries (its first tag). *)
Definition tiles_of (g : MatchGame) : list item :=
  List.filter is_rectangle (items (canvas g)).

Definition tile_images (g : MatchGame) : list string :=
  omap (fun it => head (item_tags it)) (tiles_of g).

Definition tile_fills (g : MatchGame) : list string :=
  omap (fun it => match item_options_of it with
                  | Rectangle _ fill => Some fill
                  | Image _ => None
                  end) (items (canvas g)).

(** ** The parts of [play]

    The same statements as in [play], named: the turn count and score update
    (lines 135-138), the handling of a first tile (lines 142-144) and of a
    second tile (lines 147-173). *)

Definition count_turn : M unit :=
  modify (fun g => set_turns (turns g + (1 # 2))%Q g);;
  t ← get turns;
  if Float.gt t 13 && Float.whole t then
    modify (fun g => set_score (score g - 10) g);;
    modify (fun g => set_score_text (ScoreLabel (score g)) g)
  else mret tt.

Definition first_tile (tile : list nat) (image_name : string) : M unit :=
  image_id ← appear tile image_name;
  modify (set_prev_image (Some image_id));;
  modify (set_prev_name (Some image_name));;
  modify (set_prev_tile (Some tile)).

Definition second_tile (tile : list nat) (image_name : string) : M unit :=
  on_canvas Tk.unbind;;
  curr ← appear tile image_name;
  previous ← attr "prev_name" prev_name;
  (if bool_decide (image_name = previous) then
     modify (fun g => set_remaining_tiles (remaining_tiles g - 2) g);;
     after_delay (Disappear curr);;
     p ← attr "prev_image" prev_image;
     after_delay (Disappear p);;
     col ← get color;
     after_delay (ChangeColor tile col);;
     pt ← attr "prev_tile" prev_tile;
     col ← get color;
     after_delay (ChangeColor pt col)
   else
     after_delay (Disappear curr);;
     p ← attr "prev_image" prev_image;
     after_delay (Disappear p));;
  remaining ← get remaining_tiles;
  if bool_decide (remaining = 0) then
    on_canvas Tk.unbind;;
    s ← get score;
    t ← get turns;
    after_delay (SetScoreText (GameOverLabel s (Float.to_int t)))
  else
    after_delay BindPlay.

(** The score after a click that is counted. *)
Definition counted_score (g : MatchGame) : Z :=
  let t := (turns g + (1 # 2))%Q in
  if Float.gt t 13 && Float.whole t then score g - 10 else score g.

Definition is_game_over (text : label) : bool :=
  match text with GameOverLabel _ _ => true | ScoreLabel _ => false end.

Definition is_bind (f : callback) : bool :=
  match f with BindPlay => true | _ => false end.

Definition is_game_over_call (f : callback) : bool :=
  match f with SetScoreText text => is_game_over text | _ => false end.

(** Does the canvas item [i] exist as a tile carrying the image [name]? *)
Definition tile_bears (i : nat) (name : string) (g : MatchGame) : bool :=
  match Tk.find_item i (canvas g) with
  | Some it =>
      is_rectangle it
      && bool_decide (length (item_coords it) = 4%nat)
      && bool_decide (head (item_tags it) = Some name)
  | None => false
  end.

(** The game used in the examples: eight images, every random draw 0. *)
Definition sample_game : MatchGame :=
  match init "blue" eight_gifs all_readable true [] with
  | Return g => g
  | Raise _ => MkGame 0 0 0 "" [] [] Tk.empty 0 (ScoreLabel 0) None None None
  end.

(** On how many tiles does the image [name] sit? *)
Definition tiles_with (name : string) (g : MatchGame) : nat :=
  length (filter (fun n => n = name) (tile_images g)).

(** A file system whose only entry is the directory [folder] with the given
    listing. *)
Definition one_folder (folder : string) (listing : list string)
    : Os.filesystem :=
  fun path =>
    if bool_decide (path = folder) then Some (Os.Directory listing) else None.

(** A file system whose only entry is the regular file [path]. *)
Definition one_file (file : string) : Os.filesystem :=
  fun path => if bool_decide (path = file) then Some Os.File else None.

(** Click the tiles [i] and [j] and wait for the delay, [n] times over. *)
Fixpoint same_pair (n : nat) (i j : nat) (ms : nat) : list input :=
  match n with
  | O => []
  | S n' => Click (Some i) :: Click (Some j) :: Elapse ms :: same_pair n' i j ms
  end.

(** ** Observations used in the statements *)

(** The handlers that run when the clock shows [now]: the head of the queue
    as long as it is due. *)
Fixpoint due_prefix (now : Z) (q : list timer) : list timer :=
  match q with
  | [] => []
  | t :: q' => if due t <=? now then t :: due_prefix now q' else []
  end.

Definition binds (q : list timer) : nat :=
  length (List.filter (fun t => is_bind (handler t)) q).

Definition game_over_pending (q : list timer) : bool :=
  existsb (fun t => is_game_over_call (handler t)) q.

Definition bind_in (q : list timer) : bool :=
  existsb (fun t => is_bind (handler t)) q.

(** What does not depend on the canvas items, the binding, the label or the
    queue is left alone by every [after] handler. *)
Definition same_data (g g' : MatchGame) : Prop :=
  turns g' = turns g /\ score g' = score g /\
  remaining_tiles g' = remaining_tiles g /\ delay g' = delay g /\
  prev_image g' = prev_image g /\ prev_name g' = prev_name g /\
  prev_tile g' = prev_tile g.

(** The bookkeeping of the binding in a session without restart: at most
    one handler that binds again is pending, none while the canvas is bound,
    and the final display is pending or shown only when no tile remains, the
    canvas is unbound and nothing will bind it again. *)
Definition binding_ok (g : MatchGame) : Prop :=
  (binds (timers (canvas g)) <= 1)%nat /\
  (button1 (canvas g) = true -> binds (timers (canvas g)) = 0%nat) /\
  (is_game_over (score_text g) || game_over_pending (timers (canvas g)) = true ->
   remaining_tiles g = 0 /\ button1 (canvas g) = false /\
   binds (timers (canvas g)) = 0%nat).

(** What a second click that leaves tiles on the board has arranged when
    [play] returns: the canvas is unbound and a handler that binds it again is
    queued for the end of the delay. *)
Definition rebind_scheduled (g g' : MatchGame) : Prop :=
  button1 (canvas g') = false /\
  exists q,
    timers (canvas g') =
      Tk.enqueue (Timer (clock (canvas g) + delay g) BindPlay) q /\
    binds q = binds (timers (canvas g)).

(** Is the pointer over a tile? *)
Definition over_tile (pointer : option nat) (g : MatchGame) : bool :=
  match pointer with
  | Some i =>
      match Tk.find_item i (canvas g) with
      | Some it => is_rectangle it
      | None => false
      end
  | None => false
  end.

(** A tile is in order when it has its four coordinates and its first tag
    is the name of a loaded image. *)
Definition tile_ok (dict : list string) (it : item) : Prop :=
  is_rectangle it = true ->
  length (item_coords it) = 4%nat /\
  exists name, head (item_tags it) = Some name /\ name ∈ dict.

(** The three attributes that [play] creates exist together; as long as
    they do not exist no click has been counted and only tiles are on the
    canvas. *)
Definition attributes_ok (g : MatchGame) : Prop :=
  (prev_name g = None /\ prev_image g = None /\ prev_tile g = None /\
   turns g = 0%Q /\
   Forall (fun it => is_rectangle it = true) (items (canvas g)))
  \/ (is_Some (prev_name g) /\ is_Some (prev_image g) /\
      is_Some (prev_tile g)).

(** The board of a game: the tiles are in order, the names to shuffle are
    names of loaded images, and the attributes are as above. *)
Definition board_ok (g : MatchGame) : Prop :=
  Forall (tile_ok (image_dict g)) (items (canvas g)) /\
  (forall n, n ∈ image_names g -> n ∈ image_dict g) /\
  attributes_ok g.

(** ** A weakest-precondition calculus for methods

    [wp m Q E g]: run from [g], the method [m] either returns [a] in a state
    satisfying [Q a] or raises [e] in a state satisfying [E e]. *)

Definition wp {A} (m : M A) (Q : A -> MatchGame -> Prop)
    (E : exn -> MatchGame -> Prop) (g : MatchGame) : Prop :=
  match m g with
  | (Return a, g') => Q a g'
  | (Raise e, g') => E e g'
  end.

(** ** The shape of the canvas

    Sixteen tiles created by [__init__], with the identifiers 1 to 16 and
    tagged with the first sixteen image names, followed by the images that
    are shown at the moment. *)

Definition image_shown (next : nat) (it : item) : Prop :=
  is_rectangle it = false /\ length (item_coords it) = 2%nat /\
  ((17 <= item_id it)%nat /\ (item_id it < next)%nat) /\
  ("image"%string ∉ item_tags it).

Definition items_ok (its : list item) (next : nat) (names : list string)
    : Prop :=
  exists tiles imgs,
    its = tiles ++ imgs /\
    map item_id tiles = seq 1 16 /\
    Forall (fun it => is_rectangle it = true) tiles /\
    map item_tags tiles = map (fun n => [n]) (take 16 names) /\
    Forall (image_shown next) imgs /\
    NoDup (map item_id imgs).

Definition removes_image (t : timer) : Prop :=
  forall i, handler t = Disappear i -> (17 <= i)%nat.

Definition canvas_ok (g : MatchGame) : Prop :=
  items_ok (items (canvas g)) (next_id (canvas g)) (image_names g) /\
  (17 <= next_id (canvas g))%nat /\
  (16 <= length (image_names g))%nat /\
  ("image"%string ∉ image_names g) /\
  Forall removes_image (timers (canvas g)) /\
  (forall i, prev_image g = Some i -> (17 <= i)%nat).

(** Is the pointer over an image that is shown? *)
Definition over_image (pointer : option nat) (g : MatchGame) : bool :=
  match pointer with
  | Some i =>
      match Tk.find_item i (canvas g) with
      | Some it => negb (is_rectangle it)
      | None => false
      end
  | None => false
  end.

(** What the loop of [restart] does to a tile: a new name and yellow. *)
Definition retag (fill : string) (it : item) (name : string) : item :=
  Tk.with_fill fill (Tk.with_tags [name] it).

(** The time that a list of inputs lets pass. *)
Definition elapsed (ins : list input) : Z :=
  foldr (fun i t => match i with Click _ => t | Elapse ms => Z.of_nat ms + t end)
        0 ins.

(** No pending handler binds the canvas before the time [T]. *)
Definition binds_not_before (T : Z) (q : list timer) : Prop :=
  Forall (fun t => is_bind (handler t) = true -> T <= due t) q.

(** The count of remaining tiles: even, between 0 and 16, and 0 only at the
    end of the game, when nothing will bind the canvas again. *)
Definition remaining_ok (g : MatchGame) : Prop :=
  Z.even (remaining_tiles g) = true /\
  0 <= remaining_tiles g <= 16 /\
  (remaining_tiles g = 0 ->
   button1 (canvas g) = false /\ binds (timers (canvas g)) = 0%nat).

(** The text that goes with the game as it stands. *)
Definition final_text (g : MatchGame) : label :=
  GameOverLabel (score g) (Float.to_int (turns g)).

Definition sets_final_text (g : MatchGame) (t : timer) : Prop :=
  forall text, handler t = SetScoreText text -> text = final_text g.

(** The label shows the score, or the final text; a pending handler that
    sets the label sets the final text. *)
Definition text_ok (g : MatchGame) : Prop :=
  Forall (sets_final_text g) (timers (canvas g)) /\
  (score_text g = ScoreLabel (score g) \/ score_text g = final_text g).

(** ** A round: two tiles and the delay *)

(** The image item that [appear] creates over a tile. *)
Definition image_of (tile : item) (name : string) (i : nat) : item :=
  match item_coords tile with
  | [x1; y1; x2; y2] => Item i [(x1 + x2) / 2; (y1 + y2) / 2] [name] (Image name)
  | _ => Item i [] [name] (Image name)
  end.

(** The handlers that a second click leaves pending, all due at [T]: the two
    images go, on a match the two tiles are painted, and [last] binds the
    canvas again or sets the final text. *)
Definition round_timers (T : Z) (curr p : nat) (tile pt : list nat)
    (col : string) (matched : bool) (last : callback) : list timer :=
  [Timer T (Disappear curr); Timer T (Disappear p)]
  ++ (if matched
      then [Timer T (ChangeColor tile col); Timer T (ChangeColor pt col)]
      else [])
  ++ [Timer T last].

(** The label after a click that is counted. *)
Definition counted_text (g : MatchGame) : label :=
  let t := (turns g + (1 # 2))%Q in
  if Float.gt t 13 && Float.whole t then ScoreLabel (score g - 10)
  else score_text g.

(** The items after [itemconfigure(i, fill=col)]. *)
Definition paint (col : string) (i : nat) (its : list item) : list item :=
  map (fun it => if Nat.eqb (item_id it) i then Tk.with_fill col it else it) its.

(** Between two rounds: the canvas is bound, nothing is pending, the turn
    count is whole and only tiles, each in order, are on the canvas. *)
Definition settled (g : MatchGame) : Prop :=
  button1 (canvas g) = true /\ timers (canvas g) = [] /\
  Float.whole (turns g) = true /\ 0 < delay g /\
  Forall (fun it => is_rectangle it = true /\
                    (item_id it < next_id (canvas g))%nat /\
                    tile_ok (image_dict g) it)
         (items (canvas g)).

(** ** The command line *)

(** What the namespace holds is converted and checked: a colour is one of
    the choices and a folder has passed [validate_images]. *)
Definition namespace_ok (fs : Os.filesystem) (n : Argparse.namespace)
    : Prop :=
  (forall c, Argparse.ns_color n = Some (Argparse.Str c) ->
             c ∈ ["blue"; "green"; "magenta"]%string) /\
  (forall f, Argparse.ns_image_folder n = Some (Argparse.Str f) ->
             validate_images fs f = Return f).

(** * Properties *)

(** ** Halves *)

Module FloatFacts.

#[global] Instance mod1_proper : Proper (Qeq ==> Qeq) Float.mod1.
Proof.
  intros x y H. unfold Float.mod1.
  rewrite (Qfloor_comp x y H). apply Qplus_comp; [exact H | reflexivity].
Qed.

#[global] Instance whole_proper : Proper (Qeq ==> eq) Float.whole.
Proof.
  intros x y H. unfold Float.whole.
  apply Qeqb_comp; [apply mod1_proper; exact H | reflexivity].
Qed.

#[global] Instance gt_proper : Proper (Qeq ==> eq ==> eq) Float.gt.
Proof.
  intros x y H n ? <-. unfold Float.gt. f_equal.
  apply Qleb_comp; [exact H | reflexivity].
Qed.

Lemma even_of_nat (n : nat) : Z.even (Z.of_nat n) = Nat.even n.
Proof.
  induction n as [|n IH]; [reflexivity|].
  rewrite Nat2Z.inj_succ, Z.even_succ, Nat.even_succ.
  now rewrite <- Z.negb_even, IH, Nat.negb_even.
Qed.

Lemma odd_of_nat (n : nat) : Z.odd (Z.of_nat n) = Nat.odd n.
Proof. now rewrite <- Z.negb_even, even_of_nat, Nat.negb_even. Qed.

Lemma floor_half (z : Z) : Qfloor (z # 2) = z / 2.
Proof. reflexivity. Qed.

Lemma whole_half (z : Z) : Float.whole (z # 2) = Z.even z.
Proof.
  unfold Float.whole, Float.mod1. rewrite floor_half.
  apply eq_true_iff_eq. rewrite Qeq_bool_iff, Z.even_spec.
  unfold Qeq, Qminus, Qplus, Qopp, inject_Z. cbn [Qnum Qden].
  split.
  - intros H. exists (z / 2). lia.
  - intros [k ->]. rewrite (Z.mul_comm 2 k), Z.div_mul by lia. lia.
Qed.

Lemma gt_half (z n : Z) : Float.gt (z # 2) n = (2 * n <? z).
Proof.
  unfold Float.gt. apply eq_true_iff_eq.
  rewrite negb_true_iff, Z.ltb_lt, <- not_true_iff_false, Qle_bool_iff.
  unfold Qle, inject_Z. cbn [Qnum Qden]. lia.
Qed.

Lemma add_half (z : Z) : ((z # 2) + (1 # 2) == (z + 1) # 2)%Q.
Proof. unfold Qeq, Qplus. cbn [Qnum Qden]. lia. Qed.

Lemma whole_floor (x : Q) :
  Float.whole x = true <-> (x == inject_Z (Qfloor x))%Q.
Proof.
  unfold Float.whole, Float.mod1. rewrite Qeq_bool_iff. split; intros H.
  - rewrite <- (Qplus_0_r (inject_Z _)), <- H. ring.
  - rewrite H at 1. ring.
Qed.

(** From a whole count, one click gives a half and two give a whole. *)
Lemma whole_next (x : Q) :
  Float.whole x = true ->
  Float.whole (x + (1 # 2)) = false /\
  Float.whole (x + (1 # 2) + (1 # 2)) = true.
Proof.
  intros H%whole_floor. set (k := Qfloor x) in H.
  assert ((x + (1 # 2) == (2 * k + 1) # 2)%Q) as H1.
  { rewrite H. unfold Qeq, Qplus, inject_Z. cbn [Qnum Qden]. lia. }
  assert ((x + (1 # 2) + (1 # 2) == (2 * k + 2) # 2)%Q) as H2.
  { rewrite H. unfold Qeq, Qplus, inject_Z. cbn [Qnum Qden]. lia. }
  rewrite (whole_proper _ _ H1), (whole_proper _ _ H2), !whole_half. split.
  - replace (2 * k + 1) with (1 + 2 * k) by lia.
    rewrite Z.even_add_mul_2. reflexivity.
  - replace (2 * k + 2) with (2 * (k + 1)) by lia.
    rewrite Z.even_mul. reflexivity.
Qed.

Lemma to_int_half (z : Z) : 0 <= z -> Float.to_int (z # 2) = z / 2.
Proof.
  intros Hz. unfold Float.to_int.
  replace (Qle_bool 0 (z # 2)) with true; [apply floor_half|].
  symmetry. apply Qle_bool_iff. unfold Qle. cbn [Qnum Qden]. lia.
Qed.

End FloatFacts.
Import FloatFacts.

(** ** Rules of the calculus *)

Section WP.
Context {A B : Type}.
Implicit Types (Q : A -> MatchGame -> Prop) (E : exn -> MatchGame -> Prop).

Lemma wp_bind (m : M A) (f : A -> M B) R E g :
  wp m (fun a => wp (f a) R E) E g -> wp (m ≫= f) R E g.
Proof.
  unfold wp, mbind, M_bind. destruct (m g) as [[a|e] g']; auto.
Qed.

Lemma wp_ret (a : A) Q E g : Q a g -> wp (mret a) Q E g.
Proof. auto. Qed.

Lemma wp_raise e Q E g : E e g -> wp (raise e) Q E g.
Proof. auto. Qed.

Lemma wp_get (f : MatchGame -> A) Q E g : Q (f g) g -> wp (get f) Q E g.
Proof. auto. Qed.

Lemma wp_attr name (f : MatchGame -> option A) Q E g :
  match f g with
  | Some a => Q a g
  | None => E (AttributeError name) g
  end -> wp (attr name f) Q E g.
Proof. unfold wp, attr. destruct (f g); auto. Qed.

Lemma wp_canvas_call (f : Canvas -> outcome A * Canvas) Q E g :
  match f (canvas g) with
  | (Return a, c) => Q a (set_canvas c g)
  | (Raise e, c) => E e (set_canvas c g)
  end -> wp (canvas_call f) Q E g.
Proof. unfold wp, canvas_call. destruct (f (canvas g)) as [[a|e] c]; auto. Qed.

Lemma wp_mono (m : M A) Q Q' E E' g :
  (forall a g', Q a g' -> Q' a g') -> (forall e g', E e g' -> E' e g') ->
  wp m Q E g -> wp m Q' E' g.
Proof. unfold wp. destruct (m g) as [[a|e] g']; auto. Qed.

Lemma wp_run (m : M A) Q E g :
  wp m Q E g ->
  match (m g).1 with
  | Return a => Q a (m g).2
  | Raise e => E e (m g).2
  end.
Proof. unfold wp. destruct (m g) as [[a|e] g']; auto. Qed.

End WP.

Lemma wp_modify (f : MatchGame -> MatchGame) Q E g :
  Q tt (f g) -> wp (modify f) Q E g.
Proof. auto. Qed.

Lemma wp_on_canvas (f : Canvas -> Canvas) Q E g :
  Q tt (set_canvas (f (canvas g)) g) -> wp (on_canvas f) Q E g.
Proof. auto. Qed.

Lemma wp_after_delay (f : callback) Q E g :
  Q tt (set_canvas (Tk.after (delay g) f (canvas g)) g) ->
  wp (after_delay f) Q E g.
Proof. auto. Qed.

Lemma wp_appear tile name (Q : nat -> MatchGame -> Prop) E g :
  (forall x1 y1 x2 y2,
      Tk.coords tile (canvas g) = [x1; y1; x2; y2] ->
      name ∈ image_dict g ->
      Q (next_id (canvas g))
        (set_canvas
           (Tk.create_image ((x1 + x2) / 2) ((y1 + y2) / 2) name name
              (canvas g)).2 g)) ->
  (forall x1 y1 x2 y2,
      Tk.coords tile (canvas g) = [x1; y1; x2; y2] ->
      name ∉ image_dict g -> E (KeyError name) g) ->
  ((forall x1 y1 x2 y2, Tk.coords tile (canvas g) <> [x1; y1; x2; y2]) ->
   E ValueError g) ->
  wp (appear tile name) Q E g.
Proof.
  intros Hok Hkey Hval. unfold wp, appear, mbind, M_bind, get, raise, canvas_call.
  destruct (Tk.coords tile (canvas g)) as [|x1 [|y1 [|x2 [|y2 [|]]]]] eqn:Hc;
    try (apply Hval; intros; discriminate).
  destruct (bool_decide (name ∈ image_dict g)) eqn:Hd.
  - apply bool_decide_eq_true in Hd. now apply (Hok x1 y1 x2 y2).
  - apply bool_decide_eq_false in Hd. now apply (Hkey x1 y1 x2 y2).
Qed.

(** Projections of updated objects compute. *)
Ltac proj :=
  cbn [turns delay remaining_tiles color image_names image_dict canvas score
       score_text prev_image prev_name prev_tile
       set_turns set_remaining_tiles set_image_names set_canvas set_score
       set_score_text set_prev_image set_prev_name set_prev_tile fst snd
       items next_id button1 clock timers Tk.set_items Tk.set_timers
       Tk.set_clock Tk.bind Tk.unbind Tk.after Tk.create Tk.create_image
       Tk.delete Tk.delete_withtag Tk.update Tk.itemconfig_tag] in *.

(** One step of symbolic execution. *)
Ltac wp_case :=
  lazymatch goal with
  | |- match ?x with _ => _ end => destruct x eqn:?
  end.

Ltac wp_step :=
  lazymatch goal with
  | |- wp (_ ≫= _) _ _ _ => apply wp_bind
  | |- wp (mret _) _ _ _ => apply wp_ret
  | |- wp (raise _) _ _ _ => apply wp_raise
  | |- wp (get _) _ _ _ => apply wp_get
  | |- wp (modify _) _ _ _ => apply wp_modify
  | |- wp (on_canvas _) _ _ _ => apply wp_on_canvas
  | |- wp (after_delay _) _ _ _ => apply wp_after_delay
  | |- wp (attr _ _) _ _ _ => apply wp_attr; wp_case
  | |- wp (appear _ _) _ _ _ =>
      apply wp_appear; [intros ? ? ? ? ? ? | intros ? ? ? ? ? ? | intros ?]
  | |- wp (canvas_call _) _ _ _ => apply wp_canvas_call; wp_case; wp_case
  | |- wp (if ?b then _ else _) _ _ _ => destruct b eqn:?
  | |- wp (match ?x with _ => _ end) _ _ _ => destruct x eqn:?
  end.

Ltac wp_run := repeat (wp_step; proj).

(** ** [play], step by step *)

Lemma play_branches p g :
  let tile := Tk.find_withtag_current p (canvas g) in
  play p g =
  match Tk.gettags tile (canvas g) with
  | [] => (Raise IndexError, g)
  | image_name :: _ =>
      match count_turn g with
      | (Return _, g1) =>
          if negb (Float.whole (turns g1)) then first_tile tile image_name g1
          else second_tile tile image_name g1
      | (Raise e, g1) => (Raise e, g1)
      end
  end.
Proof.
  cbv zeta. unfold play, count_turn.
  cbv [mbind M_bind mret M_ret get modify raise].
  destruct (Tk.gettags _ _) as [|name tags]; [reflexivity|].
  cbn [turns set_turns].
  destruct (Float.gt _ 13 && Float.whole _);
    match goal with
    | |- context [if negb ?b then _ else _] => destruct b; reflexivity
    end.
Qed.

Lemma gettags_current p c :
  Tk.gettags (Tk.find_withtag_current p c) c = [] <->
  Tk.find_withtag_current p c = [].
Proof.
  unfold Tk.find_withtag_current, Tk.gettags.
  destruct p as [i|]; [|done].
  destruct (Tk.find_item i c) as [it|] eqn:Hi; [|done].
  cbn [Tk.single]. rewrite Hi. split; [|done].
  destruct (item_tags it); done.
Qed.

Lemma play_not_counted p g :
  Tk.find_withtag_current p (canvas g) = [] ->
  play p g = (Raise IndexError, g).
Proof.
  intros H. rewrite play_branches. cbv zeta.
  apply gettags_current in H. now rewrite H.
Qed.

Lemma play_counted p g :
  Tk.find_withtag_current p (canvas g) <> [] ->
  turns (play p g).2 = (turns g + (1 # 2))%Q /\
  score (play p g).2 = counted_score g.
Proof.
  intros Hp.
  assert (wp (play p)
            (fun _ g' => turns g' = (turns g + (1 # 2))%Q /\
                         score g' = counted_score g)
            (fun _ g' => turns g' = (turns g + (1 # 2))%Q /\
                         score g' = counted_score g) g) as H.
  { unfold play, counted_score. wp_run;
      try (rewrite gettags_current in *; contradiction);
      try (split; [reflexivity|]);
      repeat match goal with H : _ = _ |- _ => rewrite H end; reflexivity. }
  apply wp_run in H. destruct ((play p g).1); exact H.
Qed.

Lemma play_frame p g :
  delay (play p g).2 = delay g /\
  clock (canvas (play p g).2) = clock (canvas g) /\
  image_dict (play p g).2 = image_dict g /\
  image_names (play p g).2 = image_names g /\
  color (play p g).2 = color g.
Proof.
  set (Q := fun g' : MatchGame =>
              delay g' = delay g /\ clock (canvas g') = clock (canvas g) /\
              image_dict g' = image_dict g /\
              image_names g' = image_names g /\ color g' = color g).
  assert (wp (play p) (fun _ => Q) (fun _ => Q) g) as H.
  { unfold play, Q. wp_run; repeat split. }
  apply wp_run in H. destruct ((play p g).1); exact H.
Qed.

(** ** Timers *)

Lemma same_data_refl g : same_data g g.
Proof. repeat split. Qed.

Lemma same_data_trans g1 g2 g3 :
  same_data g1 g2 -> same_data g2 g3 -> same_data g1 g3.
Proof.
  unfold same_data. intros H1 H2.
  destruct H1 as (?&?&?&?&?&?&?), H2 as (?&?&?&?&?&?&?).
  repeat split; congruence.
Qed.

Lemma itemconfig_fill_frame i col c :
  let c' := (Tk.itemconfig_fill i col c).2 in
  button1 c' = button1 c /\ clock c' = clock c /\ timers c' = timers c.
Proof.
  unfold Tk.itemconfig_fill. destruct (Tk.has_fill i c); repeat split.
Qed.

Lemma fire_frame f g :
  let g' := callback_wrapper (fire f) g in
  same_data g g' /\ clock (canvas g') = clock (canvas g) /\
  timers (canvas g') = timers (canvas g) /\
  button1 (canvas g') = (is_bind f || button1 (canvas g)) /\
  score_text g' =
    match f with SetScoreText text => text | _ => score_text g end.
Proof.
  unfold callback_wrapper.
  destruct f as [i|tile col| |]; try (repeat split; fail).
  cbn [fire is_bind orb]. unfold change_color.
  destruct (Tk.single tile) as [i|]; [|repeat split].
  unfold canvas_call.
  pose proof (itemconfig_fill_frame i col (canvas g)) as (Hb & Hc & Ht).
  destruct (Tk.itemconfig_fill i col (canvas g)) as [o c]. cbn [snd] in *.
  repeat split; proj; assumption.
Qed.

Lemma run_timers_frame q g :
  let g' := run_timers q g in
  let fired := due_prefix (clock (canvas g)) q in
  same_data g g' /\ clock (canvas g') = clock (canvas g) /\
  (q = timers (canvas g) ->
   timers (canvas g') = drop (length fired) q) /\
  button1 (canvas g') = (bind_in fired || button1 (canvas g)).
Proof.
  revert g. induction q as [|t q IH]; intros g; cbn zeta.
  - cbn. split; [apply same_data_refl|]. split; [reflexivity|].
    split; [now intros <-|reflexivity].
  - cbn [run_timers due_prefix].
    destruct (due t <=? clock (canvas g)) eqn:Hdue.
    + set (g1 := set_canvas (Tk.set_timers q (canvas g)) g).
      pose proof (fire_frame (handler t) g1) as (Hd & Hclock & Ht & Hb & _).
      set (g2 := callback_wrapper (fire (handler t)) g1) in *.
      specialize (IH g2). cbn zeta in IH.
      destruct IH as (IHd & IHc & IHt & IHb).
      assert (same_data g g1) as Hd1 by (repeat split).
      change (clock (canvas g1)) with (clock (canvas g)) in Hclock.
      rewrite Hclock in *.
      split; [eauto using same_data_trans|]. split; [exact IHc|]. split.
      * intros _. cbn [length drop]. apply IHt. rewrite Ht. reflexivity.
      * rewrite IHb, Hb. unfold bind_in. cbn [existsb].
        subst g1. proj. now rewrite orb_assoc, (orb_comm (existsb _ _)).
    + cbn. split; [apply same_data_refl|]. split; [reflexivity|].
      split; [now intros <-|reflexivity].
Qed.

Lemma idle_same_data g : same_data g (idle g).
Proof. apply run_timers_frame. Qed.

Lemma enqueue_binds t q :
  binds (Tk.enqueue t q) = ((if is_bind (handler t) then 1 else 0) + binds q)%nat.
Proof.
  unfold binds. induction q as [|u q IH]; cbn [Tk.enqueue].
  - cbn. destruct (is_bind (handler t)); reflexivity.
  - destruct (due u <=? due t); cbn [List.filter].
    + destruct (is_bind (handler u)); cbn [length]; rewrite IH; lia.
    + destruct (is_bind (handler t)); reflexivity.
Qed.

Lemma enqueue_game_over_pending t q :
  game_over_pending (Tk.enqueue t q) =
  is_game_over_call (handler t) || game_over_pending q.
Proof.
  unfold game_over_pending. induction q as [|u q IH]; cbn [Tk.enqueue].
  - reflexivity.
  - destruct (due u <=? due t); cbn [existsb]; [|reflexivity].
    rewrite IH. now rewrite !orb_assoc, (orb_comm (is_game_over_call _)).
Qed.

(** With nothing pending, a wait only moves the clock. *)
Lemma deliver_wait m g :
  timers (canvas g) = [] ->
  deliver_input g (Elapse m) =
  set_canvas (Tk.set_clock (clock (canvas g) + Z.of_nat m) (canvas g)) g.
Proof.
  intros Hq. cbn [deliver_input]. unfold idle. proj. now rewrite Hq.
Qed.

(** ** Sessions of clicks *)

Lemma counted_click p g :
  counted g (Click p) = true ->
  button1 (canvas g) = true /\ Tk.find_withtag_current p (canvas g) <> [].
Proof.
  cbn [counted]. rewrite andb_true_iff, bool_decide_eq_true. tauto.
Qed.

Lemma deliver_counted p g :
  counted g (Click p) = true ->
  turns (deliver_input g (Click p)) = (turns g + (1 # 2))%Q /\
  score (deliver_input g (Click p)) = counted_score g.
Proof.
  intros [Hb Hp]%counted_click. cbn [deliver_input]. rewrite Hb.
  destruct (idle_same_data (callback_wrapper (play p) g)) as (-> & -> & _).
  now apply play_counted.
Qed.

Lemma deliver_not_counted i g :
  counted g i = false -> same_data g (deliver_input g i).
Proof.
  intros H. destruct i as [p|ms]; cbn [deliver_input].
  - cbn [counted] in H. destruct (button1 (canvas g)); [|apply idle_same_data].
    cbn [andb] in H. apply bool_decide_eq_false in H.
    assert (Tk.find_withtag_current p (canvas g) = []) as H0.
    { destruct (Tk.find_withtag_current p (canvas g)); [reflexivity|].
      exfalso. apply H. discriminate. }
    unfold callback_wrapper. rewrite (play_not_counted _ _ H0).
    apply idle_same_data.
  - eapply same_data_trans; [|apply idle_same_data]. repeat split.
Qed.

(** A counted click is the second of its pair when the clicks counted so far
    are odd in number; it then costs 10 once more than 13 pairs are done. *)
Lemma counted_score_half (n : Z) g :
  (turns g == n # 2)%Q ->
  counted_score g =
  if Z.odd n && (26 <? n + 1) then score g - 10 else score g.
Proof.
  intros Ht. unfold counted_score.
  assert ((turns g + (1 # 2) == (n + 1) # 2)%Q) as ->.
  { rewrite Ht. apply add_half. }
  rewrite gt_half, whole_half. change (n + 1) with (Z.succ n) at 2.
  rewrite Z.even_succ, andb_comm.
  replace (2 * 13) with 26 by reflexivity. reflexivity.
Qed.

Definition penalty (clicks : Z) : Z := 10 * Z.max 0 (clicks / 2 - 13).

Lemma penalty_step (n : Z) :
  0 <= n ->
  penalty (n + 1) =
  penalty n + (if Z.odd n && (26 <? n + 1) then 10 else 0).
Proof.
  intros Hn. unfold penalty.
  destruct (Z.odd n) eqn:Hodd; cbn [andb].
  - apply Z.odd_spec in Hodd as [k ->].
    destruct (26 <? 2 * k + 1 + 1) eqn:Hlt;
      [apply Z.ltb_lt in Hlt | apply Z.ltb_ge in Hlt];
      Z.div_mod_to_equations; lia.
  - rewrite <- Z.negb_even in Hodd. apply negb_false_iff in Hodd.
    apply Z.even_spec in Hodd as [k ->]. Z.div_mod_to_equations. lia.
Qed.

Lemma session_progress ins : forall g (n : nat),
  (turns g == Z.of_nat n # 2)%Q ->
  let m := (n + counted_clicks g ins)%nat in
  (turns (session g ins) == Z.of_nat m # 2)%Q /\
  score (session g ins) + penalty (Z.of_nat m)
  = score g + penalty (Z.of_nat n).
Proof.
  induction ins as [|i ins IH]; intros g n Ht; cbn zeta.
  - cbn [counted_clicks session foldl]. rewrite Nat.add_0_r. now split.
  - cbn [counted_clicks session foldl].
    change (foldl deliver_input (deliver_input g i) ins)
      with (session (deliver_input g i) ins).
    destruct (counted g i) eqn:Hc.
    + destruct i as [p|ms]; [|discriminate].
      destruct (deliver_counted _ _ Hc) as [Ht' Hs'].
      rewrite (counted_score_half _ _ Ht) in Hs'.
      specialize (IH (deliver_input g (Click p)) (S n)).
      cbn zeta in IH. destruct IH as [IHt IHs].
      { rewrite Ht', Ht, add_half. now rewrite Nat2Z.inj_succ. }
      replace (n + (1 + counted_clicks (deliver_input g (Click p)) ins))%nat
        with (S n + counted_clicks (deliver_input g (Click p)) ins)%nat by lia.
      split; [exact IHt|]. rewrite IHs, Hs', Nat2Z.inj_succ.
      unfold Z.succ. rewrite penalty_step by lia.
      destruct (Z.odd (Z.of_nat n) && (26 <? Z.of_nat n + 1)); lia.
    + destruct (deliver_not_counted _ _ Hc) as (Ht' & Hs' & _).
      specialize (IH (deliver_input g i) n). cbn zeta in IH.
      destruct IH as [IHt IHs]; [now rewrite Ht'|].
      cbn [Nat.add]. split; [exact IHt|]. now rewrite IHs, Hs'.
Qed.


(** ** A new game *)

Lemma assign_images_frame fill tiles : forall names c,
  let c' := (assign_images fill tiles names c).2 in
  button1 c' = button1 c /\ clock c' = clock c /\ timers c' = timers c /\
  next_id c' = next_id c.
Proof.
  induction tiles as [|tile tiles IH]; intros names c; cbn zeta.
  - repeat split.
  - cbn [assign_images]. destruct names as [|name names]; [repeat split|].
    destruct fill as [f|].
    + unfold Tk.itemconfig_tag_fill.
      pose proof (itemconfig_fill_frame tile f (Tk.itemconfig_tag tile name c))
        as (Hb & Hc & Ht).
      assert (next_id (Tk.itemconfig_fill tile f
                         (Tk.itemconfig_tag tile name c)).2 = next_id c) as Hn.
      { unfold Tk.itemconfig_fill. destruct (Tk.has_fill _ _); reflexivity. }
      destruct (Tk.itemconfig_fill tile f (Tk.itemconfig_tag tile name c))
        as [[[]|e] c1]; cbn [snd] in *.
      * specialize (IH names c1). cbn zeta in IH.
        destruct IH as (-> & -> & -> & ->). now rewrite Hb, Hc, Ht, Hn.
      * now rewrite Hb, Hc, Ht, Hn.
    + specialize (IH names (Tk.itemconfig_tag tile name c)). cbn zeta in IH.
      destruct IH as (-> & -> & -> & ->). repeat split.
Qed.

Lemma retag_images_frame names : forall c,
  let c' := foldl (fun c name => Tk.itemconfig_tag_withtag name "image" c)
              c names in
  button1 c' = button1 c /\ clock c' = clock c /\ timers c' = timers c.
Proof.
  induction names as [|name names IH]; intros c; cbn zeta; [repeat split|].
  cbn [foldl]. specialize (IH (Tk.itemconfig_tag_withtag name "image" c)).
  cbn zeta in IH. destruct IH as (-> & -> & ->). repeat split.
Qed.

Lemma init_fresh color listing readable fast draws g :
  init color listing readable fast draws = Return g ->
  turns g = 0%Q /\ score g = 100 /\ remaining_tiles g = 16 /\
  delay g = (if fast then 1000 else 3000) /\
  score_text g = ScoreLabel 100 /\
  (prev_image g = None /\ prev_name g = None /\ prev_tile g = None) /\
  button1 (canvas g) = true /\ clock (canvas g) = 0 /\
  timers (canvas g) = [] /\
  image_dict g = gif_names listing /\
  image_names g = shuffle draws (gif_names listing ++ gif_names listing).
Proof.
  unfold init, load_images.
  destruct (forallb readable (gif_names listing)); [|discriminate].
  set (c0 := foldl _ (create_tiles color Tk.empty) (gif_names listing)).
  pose proof (assign_images_frame None (Tk.find_all c0)
                (shuffle draws (gif_names listing ++ gif_names listing)) c0)
    as (_ & Hc & Ht & _).
  pose proof (retag_images_frame (gif_names listing)
                (create_tiles color Tk.empty)) as (_ & Hc0 & Ht0).
  fold c0 in Hc0, Ht0.
  destruct (assign_images None _ _ c0) as [[[]|e] c1]; [|discriminate].
  intros [= <-]. proj. cbn [snd] in *.
  rewrite Hc, Ht, Hc0, Ht0. repeat split.
Qed.

Lemma sample_game_init :
  init "blue" eight_gifs all_readable true [] = Return sample_game.
Proof. vm_compute. reflexivity. Qed.

(** ** The shuffle *)

Lemma swap_Permutation {A} (i j : nat) (x : list A) : swap i j x ≡ₚ x.
Proof.
  unfold swap. destruct (x !! i) as [a|] eqn:Hi; [|reflexivity].
  destruct (x !! j) as [b|] eqn:Hj; [|reflexivity].
  now apply Permutation_insert_swap.
Qed.

Lemma shuffle_loop_Permutation {A} (i : nat) : forall draws (x : list A),
  shuffle_loop i draws x ≡ₚ x.
Proof.
  induction i as [|i IH]; intros draws x; [reflexivity|].
  cbn [shuffle_loop]. rewrite IH. apply swap_Permutation.
Qed.

Lemma shuffle_Permutation {A} draws (x : list A) : shuffle draws x ≡ₚ x.
Proof. apply shuffle_loop_Permutation. Qed.

Lemma length_shuffle {A} draws (x : list A) :
  length (shuffle draws x) = length x.
Proof. apply Permutation_length, shuffle_Permutation. Qed.

Lemma count_Permutation (name : string) (l1 l2 : list string) :
  l1 ≡ₚ l2 ->
  length (filter (fun n => n = name) l1) =
  length (filter (fun n => n = name) l2).
Proof. intros H. now rewrite H. Qed.

(** With nine images the board shows the first 16 of the 18 shuffled
    names. *)
Lemma nine_gifs_board color fast draws :
  exists g, init color nine_gifs all_readable fast draws = Return g /\
    tile_images g = take 16 (shuffle draws (nine_gifs ++ nine_gifs)).
Proof.
  unfold init, load_images. change (gif_names nine_gifs) with nine_gifs.
  change (forallb all_readable nine_gifs) with true. cbv iota.
  pose proof (length_shuffle draws (nine_gifs ++ nine_gifs)) as Hlen.
  destruct (shuffle draws (nine_gifs ++ nine_gifs))
    as [|n1 [|n2 [|n3 [|n4 [|n5 [|n6 [|n7 [|n8 [|n9 [|n10 [|n11 [|n12
        [|n13 [|n14 [|n15 [|n16 [|n17 [|n18 [|n19 l]]]]]]]]]]]]]]]]]]];
    try discriminate Hlen.
  eexists. split; [vm_compute; reflexivity|]. vm_compute. reflexivity.
Qed.

Lemma count_absent (name : string) (l : list string) :
  name ∉ l -> filter (fun n => n = name) l = [].
Proof.
  induction l as [|x l IH]; intros Hnot; [reflexivity|].
  apply not_elem_of_cons in Hnot as [Hne Hnot].
  rewrite filter_cons_False by (intros ->; contradiction). now apply IH.
Qed.

Lemma count_NoDup (name : string) (l : list string) :
  NoDup l -> name ∈ l -> length (filter (fun n => n = name) l) = 1%nat.
Proof.
  induction 1 as [|x l Hx Hnd IH]; intros Hin; [now apply elem_of_nil in Hin|].
  apply elem_of_cons in Hin as [-> | Hin].
  - rewrite filter_cons_True by reflexivity.
    now rewrite (count_absent _ _ Hx).
  - rewrite filter_cons_False by (intros ->; contradiction). now apply IH.
Qed.

(** With exactly eight images every image sits on exactly two tiles of a new
    game, whatever the shuffle draws. *)
Lemma eight_images_two_tiles color listing readable fast draws :
  length (gif_names listing) = 8%nat -> NoDup (gif_names listing) ->
  forallb readable (gif_names listing) = true ->
  exists g, init color listing readable fast draws = Return g /\
    length (tiles_of g) = 16%nat /\
    forall name, name ∈ gif_names listing -> tiles_with name g = 2%nat.
Proof.
  intros Hlen Hnd Hload. unfold init, load_images, tiles_with. rewrite Hload.
  set (names := gif_names listing) in *.
  pose proof (shuffle_Permutation draws (names ++ names)) as Hperm.
  pose proof (length_shuffle draws (names ++ names)) as Hlen2.
  rewrite length_app, Hlen in Hlen2.
  assert (forall name, name ∈ names ->
            length (filter (fun n => n = name)
                      (shuffle draws (names ++ names))) = 2%nat) as Hcount.
  { intros name Hin. rewrite (count_Permutation name _ _ Hperm).
    rewrite filter_app, length_app, (count_NoDup name names Hnd Hin).
    reflexivity. }
  clear Hperm.
  destruct names as [|a1 [|a2 [|a3 [|a4 [|a5 [|a6 [|a7 [|a8 [|a9 l]]]]]]]]];
    try discriminate Hlen.
  destruct (shuffle draws _)
    as [|n1 [|n2 [|n3 [|n4 [|n5 [|n6 [|n7 [|n8 [|n9 [|n10 [|n11 [|n12
        [|n13 [|n14 [|n15 [|n16 [|n17 l]]]]]]]]]]]]]]]]]; try discriminate Hlen2.
  eexists. split; [vm_compute; reflexivity|]. split; [vm_compute; reflexivity|].
  exact Hcount.
Qed.

(** ** The binding and the final display *)

Lemma init_binding_ok color listing readable fast draws g :
  init color listing readable fast draws = Return g -> binding_ok g.
Proof.
  intros (_&_&_&_& Htext &_&_&_& Ht &_)%init_fresh.
  unfold binding_ok. rewrite Ht, Htext. cbn.
  repeat split; auto; discriminate.
Qed.

Ltac binding_leaf :=
  unfold binding_ok; proj;
  rewrite ?enqueue_binds, ?enqueue_game_over_pending;
  cbn [handler is_bind is_game_over_call is_game_over orb Nat.add];
  repeat match goal with
         | H : binds _ = _ |- _ => rewrite H
         | H : is_game_over _ = _ |- _ => rewrite H
         | H : game_over_pending _ = _ |- _ => rewrite H
         end;
  cbn [orb];
  repeat split; intros; try discriminate; try lia; auto.

Lemma play_binding_ok p g :
  button1 (canvas g) = true -> binding_ok g ->
  binding_ok (callback_wrapper (play p) g).
Proof.
  intros Hb (_ & Hnb & Hover). specialize (Hnb Hb).
  assert (is_game_over (score_text g) = false /\
          game_over_pending (timers (canvas g)) = false) as [Hgo Hgp].
  { apply orb_false_iff. apply not_true_is_false. intros H.
    apply Hover in H as (_ & H & _). congruence. }
  assert (wp (play p) (fun _ => binding_ok) (fun _ => binding_ok) g) as H.
  { unfold play. wp_run; try binding_leaf;
      match goal with
      | H : bool_decide (_ = 0) = true |- _ =>
          apply bool_decide_eq_true in H; proj; exact H
      end. }
  apply wp_run in H. unfold callback_wrapper. destruct ((play p g).1); exact H.
Qed.

Lemma fire_binding_ok t q g :
  timers (canvas g) = t :: q -> binding_ok g ->
  binding_ok (callback_wrapper (fire (handler t))
                (set_canvas (Tk.set_timers q (canvas g)) g)).
Proof.
  intros Hq (Hle & Hnb & Hover).
  set (g1 := set_canvas (Tk.set_timers q (canvas g)) g).
  pose proof (fire_frame (handler t) g1) as (Hd & _ & Ht & Hb & Htext).
  cbn zeta in *. destruct Hd as (_ & _ & Hrem & _).
  set (g2 := callback_wrapper (fire (handler t)) g1) in *.
  change (timers (canvas g1)) with q in Ht.
  change (button1 (canvas g1)) with (button1 (canvas g)) in Hb.
  change (remaining_tiles g1) with (remaining_tiles g) in Hrem.
  change (score_text g1) with (score_text g) in Htext.
  rewrite Hq in *. unfold binds, game_over_pending in *.
  cbn [List.filter existsb] in *.
  unfold binding_ok, binds, game_over_pending. rewrite Ht, Hb, Hrem, Htext.
  destruct (handler t) as [i|tile col|text|]; cbn [is_bind is_game_over_call orb] in *.
  - auto.
  - auto.
  - split; [exact Hle|]. split; [exact Hnb|]. intros H. apply Hover.
    destruct (is_game_over text); [apply orb_true_r|].
    cbn [orb]. rewrite orb_true_iff in H. destruct H as [H|H]; [discriminate|].
    rewrite H. apply orb_true_r.
  - cbn [length] in *. split; [lia|]. split; [lia|]. intros H.
    assert (is_game_over (score_text g) || existsb (fun t => is_game_over_call (handler t)) q = true) as H' by exact H.
    apply Hover in H' as (_ & _ & H'). lia.
Qed.

Lemma run_timers_binding_ok q : forall g,
  timers (canvas g) = q -> binding_ok g -> binding_ok (run_timers q g).
Proof.
  induction q as [|t q IH]; intros g Hq Hok; [exact Hok|].
  cbn [run_timers]. destruct (due t <=? clock (canvas g)); [|exact Hok].
  apply IH; [|now apply fire_binding_ok].
  now destruct (fire_frame (handler t)
                  (set_canvas (Tk.set_timers q (canvas g)) g)) as (_&_&->&_).
Qed.

Lemma idle_binding_ok g : binding_ok g -> binding_ok (idle g).
Proof. now apply run_timers_binding_ok. Qed.

Lemma deliver_input_binding_ok i g :
  binding_ok g -> binding_ok (deliver_input g i).
Proof.
  intros Hok. destruct i as [p|ms]; cbn [deliver_input].
  - destruct (button1 (canvas g)) eqn:Hb; apply idle_binding_ok;
      [now apply play_binding_ok | exact Hok].
  - apply idle_binding_ok. exact Hok.
Qed.

Lemma session_binding_ok ins : forall g,
  binding_ok g -> binding_ok (session g ins).
Proof.
  induction ins as [|i ins IH]; intros g Hok; [exact Hok|].
  cbn [session foldl]. apply IH. now apply deliver_input_binding_ok.
Qed.

(** ** Binding again after the delay *)

Lemma play_second_tile_returns p g :
  Float.whole (turns g + (1 # 2)) = true ->
  (play p g).1 = Return tt ->
  remaining_tiles (play p g).2 <> 0 ->
  rebind_scheduled g (play p g).2.
Proof.
  intros Hwhole Hret.
  assert (wp (play p)
            (fun _ g' => remaining_tiles g' <> 0 -> rebind_scheduled g g')
            (fun _ _ => True) g) as H.
  { unfold play. wp_run; auto;
      try (match goal with
           | H : negb (Float.whole _) = true |- _ =>
               rewrite Hwhole in H; discriminate
           end);
      try (match goal with
           | H : bool_decide (_ = 0) = true |- _ =>
               apply bool_decide_eq_true in H; proj; intros; contradiction
           end);
      intros _; (split; [reflexivity|]); eexists; (split; [reflexivity|]);
      proj; rewrite ?enqueue_binds; reflexivity. }
  apply wp_run in H. rewrite Hret in H. exact H.
Qed.

Lemma bind_in_app q1 q2 : bind_in (q1 ++ q2) = bind_in q1 || bind_in q2.
Proof. apply existsb_app. Qed.

Lemma due_prefix_split now now' q :
  now <= now' ->
  due_prefix now' q =
  due_prefix now q ++ due_prefix now' (drop (length (due_prefix now q)) q).
Proof.
  intros Hle. induction q as [|t q IH]; [reflexivity|].
  cbn [due_prefix]. destruct (due t <=? now) eqn:Hd.
  - apply Z.leb_le in Hd.
    replace (due t <=? now') with true by (symmetry; apply Z.leb_le; lia).
    cbn [length drop app]. now rewrite <- IH.
  - reflexivity.
Qed.

Lemma due_prefix_no_bind now q : binds q = 0%nat -> bind_in (due_prefix now q) = false.
Proof.
  unfold binds, bind_in. induction q as [|t q IH]; [reflexivity|].
  cbn [List.filter due_prefix].
  destruct (is_bind (handler t)) eqn:Hb; [discriminate|]. intros H.
  destruct (due t <=? now); [|reflexivity].
  cbn [existsb]. rewrite Hb. now apply IH.
Qed.

Lemma due_prefix_bind_later now d q :
  binds q = 0%nat -> now < d ->
  bind_in (due_prefix now (Tk.enqueue (Timer d BindPlay) q)) = false.
Proof.
  unfold binds, bind_in. intros Hq Hlt.
  induction q as [|t q IH]; cbn [Tk.enqueue due_prefix due].
  - replace (d <=? now) with false by (symmetry; apply Z.leb_gt; lia).
    reflexivity.
  - cbn [List.filter] in Hq.
    destruct (is_bind (handler t)) eqn:Hb; [discriminate|].
    destruct (due t <=? d); cbn [due_prefix due].
    + destruct (due t <=? now); [|reflexivity].
      cbn [existsb]. rewrite Hb. now apply IH.
    + replace (d <=? now) with false by (symmetry; apply Z.leb_gt; lia).
      reflexivity.
Qed.

Lemma due_prefix_bind_due now d q :
  d <= now -> bind_in (due_prefix now (Tk.enqueue (Timer d BindPlay) q)) = true.
Proof.
  unfold bind_in. intros Hle.
  induction q as [|t q IH]; cbn [Tk.enqueue due_prefix due].
  - replace (d <=? now) with true by (symmetry; apply Z.leb_le; lia).
    reflexivity.
  - destruct (due t <=? d) eqn:Ht; cbn [due_prefix due].
    + apply Z.leb_le in Ht.
      replace (due t <=? now) with true by (symmetry; apply Z.leb_le; lia).
      cbn [existsb]. rewrite IH. apply orb_true_r.
    + replace (d <=? now) with true by (symmetry; apply Z.leb_le; lia).
      reflexivity.
Qed.

(** Once [play] has scheduled the binding, the canvas stays unbound while
    less than the delay has passed and is bound when the delay is over. *)
Lemma rebind_after_delay g g' (ms : nat) :
  0 < delay g -> binds (timers (canvas g)) = 0%nat ->
  clock (canvas g') = clock (canvas g) ->
  rebind_scheduled g g' ->
  button1 (canvas (deliver_input (idle g') (Elapse ms))) =
  (delay g <=? Z.of_nat ms).
Proof.
  intros Hdelay Hnb Hclock (Hb & q & Hq & Hbq). rewrite Hnb in Hbq.
  set (now := clock (canvas g)) in *. set (d := now + delay g) in *.
  pose proof (run_timers_frame (timers (canvas g')) g') as (_ & Hc1 & Ht1 & Hb1).
  cbn zeta in *. fold (idle g') in *. specialize (Ht1 eq_refl).
  rewrite Hclock in *. fold now in Ht1, Hb1.
  rewrite Hq in Ht1, Hb1.
  rewrite (due_prefix_bind_later now d q Hbq) in Hb1 by (unfold d; lia).
  rewrite Hb in Hb1. cbn [orb] in Hb1.
  cbn [deliver_input].
  set (g2 := set_canvas _ (idle g')).
  pose proof (run_timers_frame (timers (canvas g2)) g2) as (_ & _ & _ & Hb2).
  cbn zeta in Hb2. fold (idle g2) in Hb2. rewrite Hb2.
  replace (button1 (canvas g2)) with false by (symmetry; exact Hb1).
  rewrite orb_false_r.
  replace (timers (canvas g2)) with (timers (canvas (idle g'))) by reflexivity.
  replace (clock (canvas g2)) with (now + Z.of_nat ms)
    by (unfold g2; proj; now rewrite Hc1).
  rewrite Ht1.
  pose proof (due_prefix_split now (now + Z.of_nat ms)
                (Tk.enqueue (Timer d BindPlay) q) ltac:(lia)) as Hsplit.
  apply (f_equal bind_in) in Hsplit. rewrite bind_in_app in Hsplit.
  rewrite (due_prefix_bind_later now d q Hbq) in Hsplit by (unfold d; lia).
  cbn [orb] in Hsplit. rewrite <- Hsplit.
  destruct (delay g <=? Z.of_nat ms) eqn:Hms.
  - apply Z.leb_le in Hms. apply due_prefix_bind_due. unfold d. lia.
  - apply Z.leb_gt in Hms. apply due_prefix_bind_later; [exact Hbq|].
    unfold d. lia.
Qed.

(** ** The board *)

Lemma retag_images_untagged names : forall c,
  Forall (fun it => item_tags it = []) (items c) ->
  foldl (fun c name => Tk.itemconfig_tag_withtag name "image" c) c names = c.
Proof.
  induction names as [|name names IH]; intros c Hc; [reflexivity|].
  cbn [foldl].
  assert (Tk.itemconfig_tag_withtag name "image" c = c) as ->.
  { unfold Tk.itemconfig_tag_withtag, Tk.set_items. destruct c as [its n b t q].
    cbn [items next_id button1 clock timers] in *. f_equal.
    induction Hc as [|it its Hit Hits IHits]; [reflexivity|].
    cbn [map]. rewrite IHits, Hit.
    rewrite bool_decide_eq_false_2 by apply not_elem_of_nil.
    reflexivity. }
  now apply IH.
Qed.

(** Normalise the list in a goal [Forall P l] before going through it. *)
Ltac compute_list :=
  match goal with
  | |- Forall _ ?l =>
      let l' := eval vm_compute in l in
      replace l with l' by (vm_compute; reflexivity)
  end.

Lemma new_tiles_untagged color :
  Forall (fun it => item_tags it = []) (items (create_tiles color Tk.empty)).
Proof. compute_list. repeat constructor. Qed.

Lemma new_tiles_tagged color n1 n2 n3 n4 n5 n6 n7 n8 n9 n10 n11 n12 n13 n14
    n15 n16 l :
  let names := n1 :: n2 :: n3 :: n4 :: n5 :: n6 :: n7 :: n8 :: n9 :: n10 ::
               n11 :: n12 :: n13 :: n14 :: n15 :: n16 :: l in
  let c := (assign_images None (Tk.find_all (create_tiles color Tk.empty))
              names (create_tiles color Tk.empty)).2 in
  Forall (fun it => is_rectangle it = true) (items c) /\
  forall dict, (forall n, n ∈ names -> n ∈ dict) ->
               Forall (tile_ok dict) (items c).
Proof.
  cbv zeta. split.
  - compute_list. repeat (constructor; [reflexivity|]). constructor.
  - intros dict Hin. compute_list.
    repeat (constructor;
            [intros _; split; [reflexivity|]; eexists; split; [reflexivity|];
             apply Hin;
             repeat first [apply list_elem_of_here | apply list_elem_of_further]
            |]).
    constructor.
Qed.

(** What [__init__] leaves on the canvas: sixteen tiles, each tagged with one
    of the image names. *)
Lemma init_board_ok color listing readable fast draws g :
  init color listing readable fast draws = Return g -> board_ok g.
Proof.
  intros Hinit.
  pose proof (init_fresh _ _ _ _ _ _ Hinit)
    as (Ht &_&_&_&_& (Hpi & Hpn & Hpt) &_&_&_& Hdict & Hnames).
  revert Hinit. unfold init, load_images.
  destruct (forallb readable (gif_names listing)); [|discriminate].
  rewrite retag_images_untagged by apply new_tiles_untagged.
  pose proof (shuffle_Permutation draws (gif_names listing ++ gif_names listing))
    as Hperm.
  set (names := shuffle draws (gif_names listing ++ gif_names listing)) in *.
  assert (forall n, n ∈ names -> n ∈ image_dict g) as Hin.
  { intros n. rewrite Hperm, elem_of_app, Hdict. tauto. }
  assert (forall n, n ∈ image_names g -> n ∈ image_dict g) as Hin'
    by (now rewrite Hnames).
  clearbody names. clear Hperm Hnames.
  destruct names
    as [|n1 [|n2 [|n3 [|n4 [|n5 [|n6 [|n7 [|n8 [|n9 [|n10 [|n11 [|n12
        [|n13 [|n14 [|n15 [|n16 l]]]]]]]]]]]]]]]];
    try (vm_compute; discriminate).
  intros Hinit.
  pose proof (new_tiles_tagged color n1 n2 n3 n4 n5 n6 n7 n8 n9 n10 n11 n12
                n13 n14 n15 n16 l) as [Hrect Hok].
  cbv zeta in Hrect, Hok. specialize (Hok _ Hin).
  destruct (assign_images None _ _ _) as [[[]|e] c]; [|discriminate].
  injection Hinit as <-. unfold board_ok, attributes_ok in *.
  proj. cbn [snd] in *.
  split; [exact Hok|]. split; [exact Hin'|]. left. repeat split. exact Hrect.
Qed.

Lemma find_item_some i c it :
  Tk.find_item i c = Some it -> it ∈ items c /\ item_id it = i.
Proof.
  unfold Tk.find_item. intros [Hin Hid]%find_some.
  split; [now apply list_elem_of_In|now apply Nat.eqb_eq].
Qed.

(** The item a handled click is about. *)
Lemma pointed_item p c s l :
  Tk.gettags (Tk.find_withtag_current p c) c = s :: l ->
  exists i it, p = Some i /\ Tk.find_item i c = Some it /\
    Tk.find_withtag_current p c = [i] /\
    head (item_tags it ++ ["current"%string]) = Some s /\
    Tk.coords [i] c = item_coords it.
Proof.
  unfold Tk.find_withtag_current, Tk.gettags, Tk.coords.
  destruct p as [i|]; [|discriminate].
  destruct (Tk.find_item i c) as [it|] eqn:Hi; [|discriminate].
  cbn [Tk.single]. rewrite Hi. intros H. exists i, it.
  split; [reflexivity|]. split; [first [exact Hi | reflexivity]|].
  rewrite ?Hi. split; [reflexivity|]. split; [now rewrite H|reflexivity].
Qed.

Lemma pointed_tile p g s l :
  Forall (tile_ok (image_dict g)) (items (canvas g)) ->
  Tk.gettags (Tk.find_withtag_current p (canvas g)) (canvas g) = s :: l ->
  over_tile p g = true ->
  s ∈ image_dict g /\
  exists x1 y1 x2 y2,
    Tk.coords (Tk.find_withtag_current p (canvas g)) (canvas g)
    = [x1; y1; x2; y2].
Proof.
  intros Hok (i & it & -> & Hi & -> & Hs & ->)%pointed_item.
  unfold over_tile. rewrite Hi. intros Hrect.
  destruct (find_item_some _ _ _ Hi) as [Hin _].
  rewrite Forall_forall in Hok.
  destruct (Hok it Hin Hrect) as (Hlen & name & Hname & Hdict).
  split.
  - destruct (item_tags it) as [|n tags]; [discriminate|].
    cbn in Hs, Hname. congruence.
  - destruct (item_coords it) as [|x1 [|y1 [|x2 [|y2 [|]]]]];
      try discriminate. now exists x1, y1, x2, y2.
Qed.

Lemma pointed_rectangle p g s l :
  Forall (fun it => is_rectangle it = true) (items (canvas g)) ->
  Tk.gettags (Tk.find_withtag_current p (canvas g)) (canvas g) = s :: l ->
  over_tile p g = true.
Proof.
  intros Hrect (i & it & -> & Hi & _)%pointed_item.
  unfold over_tile. rewrite Hi.
  destruct (find_item_some _ _ _ Hi) as [Hin _].
  rewrite Forall_forall in Hrect. now apply Hrect.
Qed.

Lemma tile_ok_image dict crd tags s i :
  tile_ok dict (Item i crd tags (Image s)).
Proof. intros [=]. Qed.

Lemma play_board_ok p g :
  board_ok g -> board_ok (callback_wrapper (play p) g).
Proof.
  intros (Htiles & Hnames & Hattr).
  assert (wp (play p) (fun _ => board_ok) (fun _ => board_ok) g) as H.
  { unfold play. wp_run.
    all: unfold board_ok; proj.
    all: (split; [rewrite ?Forall_app; repeat split; auto using tile_ok_image|]).
    all: (split; [exact Hnames|]).
    all: unfold attributes_ok in *; proj.
    all: destruct Hattr as [(Hpn & Hpi & Hpt & Ht & Hrect) | (Hpn & Hpi & Hpt)];
      [|right; eauto].
    all: try (left; repeat split; assumption).
    all: try (right; eauto; fail).
    all: exfalso.
    all: try match goal with
             | H : negb (Float.whole (turns _ + (1 # 2))) = false |- _ =>
                 rewrite Ht in H; vm_compute in H; discriminate H
             end.
    all: match goal with
         | Hl : Tk.gettags _ _ = ?s :: ?l |- _ =>
             pose proof (pointed_rectangle _ _ s l Hrect Hl) as Hover;
             destruct (pointed_tile _ _ s l Htiles Hl Hover)
               as (Hin & x1' & y1' & x2' & y2' & Hc)
         end.
    all: try contradiction.
    all: match goal with
         | H : forall _ _ _ _, Tk.coords _ _ <> _ |- _ => exact (H _ _ _ _ Hc)
         end. }
  apply wp_run in H. unfold callback_wrapper. destruct ((play p g).1); exact H.
Qed.

Lemma tile_ok_with_fill dict col it : tile_ok dict it -> tile_ok dict (Tk.with_fill col it).
Proof.
  unfold tile_ok, Tk.with_fill, is_rectangle.
  destruct it as [i crd tags [o f|s]]; cbn; auto.
Qed.

Lemma tile_ok_with_tags dict name it :
  name ∈ dict -> tile_ok dict it -> tile_ok dict (Tk.with_tags [name] it).
Proof.
  unfold tile_ok, Tk.with_tags, is_rectangle.
  destruct it as [i crd tags [o f|s]]; cbn; [|discriminate].
  intros Hin H Hr. destruct (H Hr) as [Hlen _]. split; [exact Hlen|].
  now exists name.
Qed.

Lemma is_rectangle_with_fill col it :
  is_rectangle (Tk.with_fill col it) = is_rectangle it.
Proof. unfold Tk.with_fill, is_rectangle. now destruct it as [i crd tags [o f|s]]. Qed.

Lemma update_Forall (P : item -> Prop) i f c :
  (forall it, P it -> P (f it)) ->
  Forall P (items c) -> Forall P (items (Tk.update i f c)).
Proof.
  intros Hf H. unfold Tk.update. proj. apply Forall_map.
  eapply Forall_impl; [exact H|]. intros it Hit. cbn beta.
  destruct (Nat.eqb (item_id it) i); auto.
Qed.

Lemma itemconfig_fill_Forall (P : item -> Prop) i col c :
  (forall it, P it -> P (Tk.with_fill col it)) ->
  Forall P (items c) -> Forall P (items (Tk.itemconfig_fill i col c).2).
Proof.
  intros Hf H. unfold Tk.itemconfig_fill.
  destruct (Tk.has_fill i c); [|exact H]. now apply update_Forall.
Qed.

Lemma filter_Forall (P : item -> Prop) (Q : item -> Prop)
    `{forall x, Decision (Q x)} (l : list item) :
  Forall P l -> Forall P (filter Q l).
Proof.
  intros Hl. rewrite Forall_forall in *. intros x [_ Hx]%list_elem_of_filter.
  auto.
Qed.

Lemma fire_board_ok f g :
  board_ok g -> board_ok (callback_wrapper (fire f) g).
Proof.
  intros (Htiles & Hnames & Hattr). unfold callback_wrapper.
  destruct f as [i|tile col|text|]; cbn [fire].
  - unfold disappear, on_canvas, modify, board_ok, attributes_ok in *. proj.
    split; [now apply filter_Forall|]. split; [exact Hnames|].
    destruct Hattr as [(?&?&?&?&?)|?]; [left|right; assumption].
    repeat split; try assumption. now apply filter_Forall.
  - unfold change_color. destruct (Tk.single tile) as [i|];
      [|now repeat split].
    unfold canvas_call.
    pose proof (itemconfig_fill_Forall (tile_ok (image_dict g)) i col
                  (canvas g) (tile_ok_with_fill _ col) Htiles) as H1.
    pose proof (itemconfig_fill_Forall (fun it => is_rectangle it = true)
                  i col (canvas g)) as H2.
    destruct (Tk.itemconfig_fill i col (canvas g)) as [o c].
    unfold board_ok, attributes_ok in *. proj. cbn [snd] in *.
    split; [exact H1|]. split; [exact Hnames|].
    destruct Hattr as [(?&?&?&?&?)|?]; [left|right; assumption].
    repeat split; try assumption. apply H2; [|assumption].
    intros it. now rewrite is_rectangle_with_fill.
  - now repeat split.
  - now repeat split.
Qed.

Lemma run_timers_board_ok q : forall g,
  board_ok g -> board_ok (run_timers q g).
Proof.
  induction q as [|t q IH]; intros g Hok; [exact Hok|].
  cbn [run_timers]. destruct (due t <=? clock (canvas g)); [|exact Hok].
  apply IH, fire_board_ok. exact Hok.
Qed.

Lemma assign_images_board dict fill tiles : forall names c,
  (forall n, n ∈ names -> n ∈ dict) ->
  Forall (tile_ok dict) (items c) ->
  Forall (tile_ok dict) (items (assign_images fill tiles names c).2).
Proof.
  induction tiles as [|tile tiles IH]; intros names c Hnames Hc; [exact Hc|].
  cbn [assign_images]. destruct names as [|name names]; [exact Hc|].
  assert (name ∈ dict) as Hname by (apply Hnames, list_elem_of_here).
  assert (forall n, n ∈ names -> n ∈ dict) as Hrest
    by (intros n Hn; apply Hnames, list_elem_of_further, Hn).
  assert (Forall (tile_ok dict) (items (Tk.itemconfig_tag tile name c))) as H1.
  { apply update_Forall; [|exact Hc]. intros it. now apply tile_ok_with_tags. }
  destruct fill as [f|]; [|now apply IH].
  unfold Tk.itemconfig_tag_fill.
  pose proof (itemconfig_fill_Forall (tile_ok dict) tile f
                (Tk.itemconfig_tag tile name c) (tile_ok_with_fill _ f) H1)
    as H2.
  destruct (Tk.itemconfig_fill tile f (Tk.itemconfig_tag tile name c))
    as [[[]|e] c']; cbn [snd] in H2 |- *; [now apply IH|exact H2].
Qed.

Lemma restart_board_ok draws g :
  board_ok g -> board_ok (callback_wrapper (restart draws) g).
Proof.
  intros (Htiles & Hnames & Hattr).
  assert (forall n, n ∈ shuffle draws (image_names g) -> n ∈ image_dict g)
    as Hshuffled.
  { intros n. rewrite shuffle_Permutation. apply Hnames. }
  assert (wp (restart draws) (fun _ => board_ok) (fun _ => board_ok) g) as H.
  { unfold restart. apply wp_bind, wp_attr.
    destruct (prev_image g) as [i|] eqn:Hpi; [|now repeat split].
    assert (is_Some (prev_name g) /\ is_Some (prev_image g) /\
            is_Some (prev_tile g)) as Hsome.
    { destruct Hattr as [(_ & Hnone & _)|H]; [congruence|exact H]. }
    wp_run.
    all: unfold board_ok, attributes_ok; proj.
    all: (split; [|split; [exact Hshuffled|right; exact Hsome]]).
    all: match goal with
         | H : assign_images ?f ?t ?n ?c = (_, ?c') |- _ =>
             pose proof (assign_images_board (image_dict g) f t n c Hshuffled)
               as Hb;
             rewrite H in Hb; cbn [snd] in Hb; apply Hb
         end.
    all: proj; now apply filter_Forall. }
  apply wp_run in H. unfold callback_wrapper.
  destruct ((restart draws g).1); exact H.
Qed.

Lemma deliver_board_ok ev g : board_ok g -> board_ok (deliver g ev).
Proof.
  intros Hok. destruct ev as [[p|ms]|draws]; cbn [deliver deliver_input].
  - destruct (button1 (canvas g)); apply run_timers_board_ok;
      [now apply play_board_ok|exact Hok].
  - apply run_timers_board_ok. exact Hok.
  - apply run_timers_board_ok. now apply restart_board_ok.
Qed.

Lemma run_board_ok evs : forall g, board_ok g -> board_ok (run g evs).
Proof.
  induction evs as [|ev evs IH]; intros g Hok; [exact Hok|].
  cbn [run foldl]. apply IH. now apply deliver_board_ok.
Qed.

(** * The claims *)

(** C1. Scoring rule.  After any sequence of clicks (and waits) in a new
    game the score is 100 minus 10 for each completed pair beyond the 13th;
    a further click that is handled changes the score only when it is the
    second click of its pair and that pair is beyond the 13th, and then it
    takes exactly 10 off, wherever the pointer is, hence whether or not the
    two tiles match. *)
Theorem scoring_rule color listing readable fast draws g0 ins p :
  init color listing readable fast draws = Return g0 ->
  let g := session g0 ins in
  let clicks := counted_clicks g0 ins in
  let pairs := Z.of_nat clicks / 2 in
  score g = 100 - 10 * Z.max 0 (pairs - 13) /\
  (counted g (Click p) = true ->
   score (deliver_input g (Click p)) =
   if Nat.odd clicks && (13 <? pairs + 1) then score g - 10 else score g).
Proof.
  intros (Ht & Hs & _)%init_fresh. cbn zeta.
  destruct (session_progress ins g0 0) as [Hturns Hscore].
  { now rewrite Ht. }
  cbn [Nat.add] in *. split.
  - unfold penalty in Hscore. rewrite Hs in Hscore.
    change (Z.of_nat 0 / 2) with 0 in Hscore. lia.
  - intros Hc. destruct (deliver_counted _ _ Hc) as [_ ->].
    rewrite (counted_score_half _ _ Hturns).
    set (m := counted_clicks g0 ins).
    rewrite odd_of_nat.
    destruct (Nat.odd m) eqn:Hodd; [|reflexivity]. cbn [andb].
    replace (26 <? Z.of_nat m + 1) with (13 <? Z.of_nat m / 2 + 1); [reflexivity|].
    apply Nat.odd_spec in Hodd as [k Hk].
    apply eq_true_iff_eq. rewrite !Z.ltb_lt. Z.div_mod_to_equations. lia.
Qed.

Lemma scoring_rule_witness :
  init "blue" eight_gifs all_readable true [] = Return sample_game /\
  score (session sample_game [Click (Some 1%nat)]) =
  100 - 10 * Z.max 0
          (Z.of_nat (counted_clicks sample_game [Click (Some 1%nat)]) / 2 - 13).
Proof.
  split; [exact sample_game_init|].
  exact (proj1 (scoring_rule "blue" eight_gifs all_readable true [] sample_game
                  [Click (Some 1%nat)] None sample_game_init)).
Defined.


(** C8. Turn counter.  In a new game, after any inputs, the counter equals
    half the number of clicks handled, so it is whole exactly when that
    number is even; one more handled click adds exactly one half (an
    unhandled one adds nothing); and [play] handles the click as a second
    tile when the counter it has just updated is whole, as a first tile
    otherwise. *)
Theorem turn_counter color listing readable fast draws g0 ins p :
  init color listing readable fast draws = Return g0 ->
  let g := session g0 ins in
  let clicks := counted_clicks g0 ins in
  (turns g == Z.of_nat clicks # 2)%Q /\
  Float.whole (turns g) = Nat.even clicks /\
  turns (deliver_input g (Click p)) =
    (if counted g (Click p) then (turns g + (1 # 2))%Q else turns g) /\
  let tile := Tk.find_withtag_current p (canvas g) in
  play p g =
  match Tk.gettags tile (canvas g) with
  | [] => (Raise IndexError, g)
  | image_name :: _ =>
      match count_turn g with
      | (Return _, g1) =>
          if negb (Float.whole (turns g1)) then first_tile tile image_name g1
          else second_tile tile image_name g1
      | (Raise e, g1) => (Raise e, g1)
      end
  end.
Proof.
  intros (Ht & _)%init_fresh. cbn zeta.
  destruct (session_progress ins g0 0) as [Hturns _].
  { now rewrite Ht. }
  cbn [Nat.add] in Hturns. split; [exact Hturns|]. split.
  - rewrite Hturns, whole_half. apply even_of_nat.
  - split; [|apply play_branches].
    destruct (counted _ (Click p)) eqn:Hc.
    + now destruct (deliver_counted _ _ Hc) as [-> _].
    + now destruct (deliver_not_counted _ _ Hc) as (-> & _).
Qed.

Lemma turn_counter_witness :
  init "blue" eight_gifs all_readable true [] = Return sample_game /\
  Float.whole (turns (session sample_game [Click (Some 1%nat)])) =
  Nat.even (counted_clicks sample_game [Click (Some 1%nat)]).
Proof.
  split; [exact sample_game_init|].
  exact (proj1 (proj2 (turn_counter "blue" eight_gifs all_readable true []
           sample_game
                         [Click (Some 1%nat)] None sample_game_init))).
Defined.

(** ** The shape of the canvas is kept *)

Lemma not_gif_image listing : "image"%string ∉ gif_names listing.
Proof.
  unfold gif_names. rewrite list_elem_of_In, filter_In. intros [_ H].
  vm_compute in H. discriminate.
Qed.

Lemma enqueue_Forall (P : timer -> Prop) t q :
  P t -> Forall P q -> Forall P (Tk.enqueue t q).
Proof.
  intros Ht Hq. induction Hq as [|u q Hu Hq IH]; cbn [Tk.enqueue].
  - now repeat constructor.
  - destruct (due u <=? due t); repeat constructor; auto.
Qed.

Lemma image_shown_mono next next' it :
  (next <= next')%nat -> image_shown next it -> image_shown next' it.
Proof. unfold image_shown. intros Hle (?&?&?&?). repeat split; auto; lia. Qed.

Lemma items_ok_create its next names x y s :
  (17 <= next)%nat -> s <> "image"%string ->
  items_ok its next names ->
  items_ok (its ++ [Item next [x; y] [s] (Image s)]) (S next) names.
Proof.
  intros Hnext Hs (tiles & imgs & -> & Hids & Hrect & Htags & Himgs & Hnd).
  exists tiles, (imgs ++ [Item next [x; y] [s] (Image s)]).
  split; [now rewrite app_assoc|]. repeat split; try assumption.
  - apply Forall_app. split.
    + eapply Forall_impl; [exact Himgs|].
      intros it. apply image_shown_mono. lia.
    + apply Forall_singleton. unfold image_shown. cbn.
      repeat split; try lia. rewrite list_elem_of_singleton. congruence.
  - rewrite map_app. cbn [map]. apply NoDup_app. repeat split.
    + exact Hnd.
    + intros i Hi [->|[]%elem_of_nil]%elem_of_cons.
      apply list_elem_of_In, in_map_iff in Hi as (it & Hid & Hit).
      apply list_elem_of_In in Hit. rewrite Forall_forall in Himgs.
      destruct (Himgs it Hit) as (_ & _ & Hlt & _). cbn in Hid. lia.
    + apply NoDup_singleton.
Qed.

Lemma tiles_ids_small tiles it :
  map item_id tiles = seq 1 16 -> it ∈ tiles -> (item_id it <= 16)%nat.
Proof.
  intros Hids Hin.
  assert (In (item_id it) (seq 1 16)) as H.
  { rewrite <- Hids. apply in_map. now apply list_elem_of_In. }
  apply in_seq in H. lia.
Qed.

Lemma filter_all (P : item -> Prop) `{forall x, Decision (P x)} l :
  Forall P l -> filter P l = l.
Proof.
  induction 1 as [|x l Hx Hl IH]; [reflexivity|].
  now rewrite filter_cons_True, IH.
Qed.

Lemma items_ok_delete its next names i :
  (17 <= i)%nat -> items_ok its next names ->
  items_ok (filter (fun it => item_id it <> i) its) next names.
Proof.
  intros Hi (tiles & imgs & -> & Hids & Hrect & Htags & Himgs & Hnd).
  exists tiles, (filter (fun it => item_id it <> i) imgs).
  split.
  - rewrite filter_app. f_equal. apply filter_all.
    rewrite Forall_forall. intros it Hit.
    pose proof (tiles_ids_small tiles it Hids Hit). lia.
  - repeat split; try assumption.
    + now apply filter_Forall.
    + clear -Hnd. induction imgs as [|x imgs IH]; [constructor|].
      cbn [map] in Hnd. apply NoDup_cons in Hnd as [Hx Hnd].
      destruct (decide (item_id x <> i)).
      * rewrite filter_cons_True by assumption. cbn [map].
        apply NoDup_cons. split; [|now apply IH].
        intros Hin. apply Hx.
        apply list_elem_of_In, in_map_iff in Hin as (it & Hid & Hit).
        apply list_elem_of_In, list_elem_of_filter in Hit as [_ Hit].
        apply list_elem_of_In, in_map_iff. exists it.
        split; [exact Hid|now apply list_elem_of_In].
      * rewrite filter_cons_False by assumption. now apply IH.
Qed.

Lemma items_ok_update its next names i f :
  (forall it, item_id (f it) = item_id it /\
              is_rectangle (f it) = is_rectangle it /\
              item_coords (f it) = item_coords it /\
              item_tags (f it) = item_tags it) ->
  items_ok its next names ->
  items_ok (map (fun it => if Nat.eqb (item_id it) i then f it else it) its)
    next names.
Proof.
  intros Hf (tiles & imgs & -> & Hids & Hrect & Htags & Himgs & Hnd).
  set (u := fun it => if Nat.eqb (item_id it) i then f it else it).
  assert (forall it, item_id (u it) = item_id it /\
                     is_rectangle (u it) = is_rectangle it /\
                     item_coords (u it) = item_coords it /\
                     item_tags (u it) = item_tags it) as Hu.
  { intros it. unfold u. destruct (Nat.eqb (item_id it) i); [apply Hf|auto]. }
  exists (map u tiles), (map u imgs). split; [apply map_app|].
  rewrite !map_map.
  assert (forall l, map (fun x => item_id (u x)) l = map item_id l) as Hid.
  { intros l. apply map_ext. intros it. apply Hu. }
  assert (forall l, map (fun x => item_tags (u x)) l = map item_tags l) as Htg.
  { intros l. apply map_ext. intros it. apply Hu. }
  rewrite !Hid, Htg. repeat split; try assumption.
  - apply Forall_map. eapply Forall_impl; [exact Hrect|].
    intros it H. destruct (Hu it) as (_ & -> & _). exact H.
  - apply Forall_map. eapply Forall_impl; [exact Himgs|].
    intros it (H1 & H2 & H3 & H4). destruct (Hu it) as (Ha & Hb & Hc & Hd).
    unfold image_shown. now rewrite Ha, Hb, Hc, Hd.
Qed.

Lemma with_fill_same col it :
  item_id (Tk.with_fill col it) = item_id it /\
  is_rectangle (Tk.with_fill col it) = is_rectangle it /\
  item_coords (Tk.with_fill col it) = item_coords it /\
  item_tags (Tk.with_fill col it) = item_tags it.
Proof.
  unfold Tk.with_fill, is_rectangle.
  destruct it as [i crd tags [o f|s]]; repeat split.
Qed.

Lemma items_ok_fill its n b t q names i col :
  items_ok its n names ->
  items_ok (items (Tk.itemconfig_fill i col (MkCanvas its n b t q)).2) n names.
Proof.
  intros H. unfold Tk.itemconfig_fill.
  destruct (Tk.has_fill i _); [|exact H].
  cbn [snd Tk.update Tk.set_items items].
  apply items_ok_update; [|exact H]. intros it. apply with_fill_same.
Qed.

(** No item carries the tag [image], so [delete("image")] removes nothing. *)
Lemma items_ok_delete_withtag its next names :
  "image"%string ∉ names -> items_ok its next names ->
  filter (fun it => "image"%string ∉ item_tags it) its = its.
Proof.
  intros Hnames (tiles & imgs & -> & Hids & Hrect & Htags & Himgs & Hnd).
  apply filter_all, Forall_app. split.
  - rewrite Forall_forall. intros it Hit Htag.
    assert (In (item_tags it) (map (fun n => [n]) (take 16 names))) as H.
    { rewrite <- Htags. apply in_map. now apply list_elem_of_In. }
    apply in_map_iff in H as (n & Hn & Hin). rewrite <- Hn in Htag.
    apply list_elem_of_singleton in Htag. subst n.
    apply Hnames. apply list_elem_of_In in Hin.
    rewrite <- (take_drop 16 names). apply elem_of_app. now left.
  - eapply Forall_impl; [exact Himgs|]. now intros it (_&_&_&H).
Qed.

(** *** The loop of [restart] on such a canvas *)

Lemma update_unique (u : item -> item) (l1 l2 : list item) x :
  NoDup (map item_id (l1 ++ x :: l2)) ->
  map (fun it => if Nat.eqb (item_id it) (item_id x) then u it else it)
    (l1 ++ x :: l2)
  = l1 ++ u x :: l2.
Proof.
  intros Hnd. rewrite map_app in Hnd. cbn [map] in Hnd.
  apply NoDup_app in Hnd as (_ & Hl1 & Hnd).
  apply NoDup_cons in Hnd as [Hl2 _].
  assert (forall l, item_id x ∉ map item_id l ->
            map (fun it => if Nat.eqb (item_id it) (item_id x) then u it
                           else it) l = l) as Hother.
  { induction l as [|y l IH]; [reflexivity|]. cbn [map].
    intros [Hy Hl]%not_elem_of_cons.
    destruct (Nat.eqb_spec (item_id y) (item_id x)); [congruence|].
    now rewrite IH. }
  rewrite map_app. cbn [map]. rewrite Nat.eqb_refl.
  rewrite !Hother; [reflexivity|exact Hl2|].
  intros H. apply (Hl1 _ H). apply list_elem_of_here.
Qed.

Lemma find_unique (l1 l2 : list item) x :
  NoDup (map item_id (l1 ++ x :: l2)) ->
  List.find (fun it => Nat.eqb (item_id it) (item_id x)) (l1 ++ x :: l2)
  = Some x.
Proof.
  intros Hnd. rewrite map_app in Hnd. cbn [map] in Hnd.
  apply NoDup_app in Hnd as (_ & Hl1 & _).
  induction l1 as [|y l1 IH]; cbn [app List.find].
  - now rewrite Nat.eqb_refl.
  - destruct (Nat.eqb_spec (item_id y) (item_id x)) as [Heq|_].
    + exfalso. apply (Hl1 (item_id x)); [|apply list_elem_of_here].
      cbn [map]. rewrite Heq. apply list_elem_of_here.
    + apply IH. intros i Hi. apply Hl1. cbn [map].
      now apply list_elem_of_further.
Qed.

Lemma retag_same fill it name :
  item_id (retag fill it name) = item_id it /\
  is_rectangle (retag fill it name) = is_rectangle it /\
  item_coords (retag fill it name) = item_coords it /\
  item_tags (retag fill it name) = [name].
Proof.
  unfold retag, Tk.with_fill, Tk.with_tags, is_rectangle.
  destruct it as [i crd tags [o f|s]]; repeat split.
Qed.

Lemma itemconfig_tag_fill_tile f name (l1 l2 : list item) x n b t q :
  NoDup (map item_id (l1 ++ x :: l2)) -> is_rectangle x = true ->
  Tk.itemconfig_tag_fill (item_id x) name f (MkCanvas (l1 ++ x :: l2) n b t q)
  = (Return tt, MkCanvas (l1 ++ retag f x name :: l2) n b t q).
Proof.
  intros Hnd Hrect.
  unfold Tk.itemconfig_tag_fill, Tk.itemconfig_tag, Tk.itemconfig_fill,
    Tk.has_fill, Tk.find_item, Tk.update, Tk.set_items.
  cbn [items next_id button1 clock timers].
  rewrite (update_unique (Tk.with_tags [name]) l1 l2 x Hnd).
  assert (NoDup (map item_id (l1 ++ Tk.with_tags [name] x :: l2))) as Hnd'.
  { rewrite map_app in *. exact Hnd. }
  change (item_id x) with (item_id (Tk.with_tags [name] x)).
  rewrite (find_unique l1 l2 (Tk.with_tags [name] x) Hnd').
  replace (item_options_of (Tk.with_tags [name] x)) with (item_options_of x)
    by reflexivity.
  unfold is_rectangle in Hrect. destruct (item_options_of x) eqn:Ho;
    [|discriminate].
  now rewrite (update_unique (Tk.with_fill f) l1 l2 _ Hnd').
Qed.

Lemma itemconfig_tag_fill_image f name (l1 l2 : list item) x n b t q :
  NoDup (map item_id (l1 ++ x :: l2)) -> is_rectangle x = false ->
  Tk.itemconfig_tag_fill (item_id x) name f (MkCanvas (l1 ++ x :: l2) n b t q)
  = (Raise TclError, MkCanvas (l1 ++ Tk.with_tags [name] x :: l2) n b t q).
Proof.
  intros Hnd Hrect.
  unfold Tk.itemconfig_tag_fill, Tk.itemconfig_tag, Tk.itemconfig_fill,
    Tk.has_fill, Tk.find_item, Tk.update, Tk.set_items.
  cbn [items next_id button1 clock timers].
  rewrite (update_unique (Tk.with_tags [name]) l1 l2 x Hnd).
  assert (NoDup (map item_id (l1 ++ Tk.with_tags [name] x :: l2))) as Hnd'.
  { rewrite map_app in *. exact Hnd. }
  change (item_id x) with (item_id (Tk.with_tags [name] x)).
  rewrite (find_unique l1 l2 (Tk.with_tags [name] x) Hnd').
  replace (item_options_of (Tk.with_tags [name] x)) with (item_options_of x)
    by reflexivity.
  unfold is_rectangle in Hrect. now destruct (item_options_of x).
Qed.

Lemma assign_images_tiles f n b t q : forall tiles done names rest ids,
  NoDup (map item_id (done ++ tiles ++ rest)) ->
  Forall (fun it => is_rectangle it = true) tiles ->
  (length tiles <= length names)%nat ->
  assign_images (Some f) (map item_id tiles ++ ids) names
    (MkCanvas (done ++ tiles ++ rest) n b t q)
  = assign_images (Some f) ids (drop (length tiles) names)
      (MkCanvas (done ++ zip_with (retag f) tiles names ++ rest) n b t q).
Proof.
  induction tiles as [|x tiles IH]; intros done names rest ids Hnd Hrect Hlen.
  - reflexivity.
  - destruct names as [|name names]; [cbn in Hlen; lia|].
    apply Forall_cons in Hrect as [Hx Hrect].
    cbn [map app assign_images length drop zip_with].
    rewrite (itemconfig_tag_fill_tile f name done (tiles ++ rest) x n b t q
               Hnd Hx).
    specialize (IH (done ++ [retag f x name]) names rest ids).
    rewrite <- !app_assoc in IH. cbn [app] in IH. apply IH.
    + cbn [app] in Hnd. rewrite !map_app in *. cbn [map] in *.
      rewrite !map_app in *.
      destruct (retag_same f x name) as (-> & _). exact Hnd.
    + exact Hrect.
    + cbn in Hlen. lia.
Qed.

Lemma zip_retag_tags f tiles names :
  (length tiles <= length names)%nat ->
  map item_tags (zip_with (retag f) tiles names)
  = map (fun n => [n]) (take (length tiles) names).
Proof.
  revert names. induction tiles as [|x tiles IH]; intros names Hlen;
    [reflexivity|].
  destruct names as [|name names]; [cbn in Hlen; lia|].
  cbn [zip_with map length take]. f_equal; [apply retag_same|].
  apply IH. cbn in Hlen. lia.
Qed.

Lemma zip_retag_same f tiles names :
  (length tiles <= length names)%nat ->
  map item_id (zip_with (retag f) tiles names) = map item_id tiles /\
  (Forall (fun it => is_rectangle it = true) tiles ->
   Forall (fun it => is_rectangle it = true) (zip_with (retag f) tiles names)).
Proof.
  revert names. induction tiles as [|x tiles IH]; intros names Hlen;
    [split; [reflexivity|constructor]|].
  destruct names as [|name names]; [cbn in Hlen; lia|].
  cbn [zip_with map]. destruct (IH names) as [Hid Hr]; [cbn in Hlen; lia|].
  destruct (retag_same f x name) as (Hi & Hrect & _).
  split; [now rewrite Hi, Hid|].
  intros [Hx Ht]%Forall_cons. constructor; [now rewrite Hrect|auto].
Qed.

(** The loop of [restart] gives every tile a new name and then returns if
    no image is shown, and raises at the first image otherwise. *)
Lemma restart_loop f its n b t q old names :
  items_ok its n old -> (16 <= length names)%nat ->
  "image"%string ∉ names ->
  let r := assign_images (Some f) (map item_id its) names
             (MkCanvas its n b t q) in
  items_ok (items r.2) n names /\
  (returned r.1 = true <-> length its = 16%nat).
Proof.
  intros (tiles & imgs & -> & Hids & Hrect & Htags & Himgs & Hnd) Hlen Hnames.
  assert (length tiles = 16%nat) as Hl16.
  { rewrite <- (length_map item_id), Hids. apply length_seq. }
  assert (NoDup (map item_id ([] ++ tiles ++ imgs))) as Hnd'.
  { cbn [app]. rewrite map_app, Hids. apply NoDup_app. repeat split.
    - apply NoDup_ListNoDup, seq_NoDup.
    - intros i Hi Hin. apply list_elem_of_In, in_seq in Hi.
      apply list_elem_of_In, in_map_iff in Hin as (it & Hid & Hit).
      apply list_elem_of_In in Hit. rewrite Forall_forall in Himgs.
      destruct (Himgs it Hit) as (_ & _ & Hge & _). lia.
    - exact Hnd. }
  cbn zeta. rewrite map_app.
  pose proof (assign_images_tiles f n b t q tiles [] names imgs
                (map item_id imgs) Hnd' Hrect ltac:(lia)) as Hloop.
  cbn [app] in Hloop. rewrite Hloop, Hl16. clear Hloop.
  destruct (zip_retag_same f tiles names) as [Hzid Hzrect]; [lia|].
  pose proof (zip_retag_tags f tiles names) as Hztags.
  rewrite Hl16 in Hztags. specialize (Hztags Hlen).
  set (tiles' := zip_with (retag f) tiles names) in *.
  destruct imgs as [|im imgs].
  - cbn [map assign_images]. rewrite app_nil_r. cbn [fst snd returned items].
    split; [|split; [intros _; now rewrite length_app, Hl16|reflexivity]].
    exists tiles', []. rewrite app_nil_r, Hzid.
    repeat split; auto; constructor.
  - cbn [map assign_images].
    assert (length (tiles ++ im :: imgs) <> 16%nat) as Hne
      by (rewrite length_app, Hl16; cbn; lia).
    destruct (drop 16 names) as [|name rest] eqn:Hdrop.
    + cbn [fst snd returned items].
      split; [|split; [discriminate|intros; contradiction]].
      exists tiles', (im :: imgs). rewrite Hzid. repeat split; auto.
    + apply Forall_cons in Himgs as [Him Himgs].
      assert (NoDup (map item_id (tiles' ++ im :: imgs))) as Hnd2.
      { rewrite map_app, Hzid, <- map_app. exact Hnd'. }
      rewrite (itemconfig_tag_fill_image f name tiles' imgs im n b t q Hnd2)
        by apply Him.
      cbn [fst snd returned items].
      split; [|split; [discriminate|intros; contradiction]].
      exists tiles', (Tk.with_tags [name] im :: imgs). rewrite Hzid.
      repeat split; auto.
      constructor; [|exact Himgs].
      destruct Him as (H1 & H2 & (H3 & H3') & _).
      split; [exact H1|]. split; [exact H2|]. split; [now split|].
      unfold Tk.with_tags. cbn [item_tags].
      rewrite list_elem_of_singleton. intros Heq. apply Hnames. rewrite Heq.
      rewrite <- (take_drop 16 names), Hdrop. apply elem_of_app. right.
      apply list_elem_of_here.
Qed.

(** *** The invariant *)

Lemma new_tiles_shape color n1 n2 n3 n4 n5 n6 n7 n8 n9 n10 n11 n12 n13 n14
    n15 n16 l :
  let names := n1 :: n2 :: n3 :: n4 :: n5 :: n6 :: n7 :: n8 :: n9 :: n10 ::
               n11 :: n12 :: n13 :: n14 :: n15 :: n16 :: l in
  let c := (assign_images None (Tk.find_all (create_tiles color Tk.empty))
              names (create_tiles color Tk.empty)).2 in
  items_ok (items c) 17 names /\ next_id c = 17%nat.
Proof.
  cbv zeta. split; [|vm_compute; reflexivity].
  eexists _, []. rewrite app_nil_r.
  split; [reflexivity|].
  split; [vm_compute; reflexivity|].
  split; [compute_list; repeat (constructor; [reflexivity|]); constructor|].
  split; [vm_compute; reflexivity|].
  split; constructor.
Qed.

Lemma init_canvas_ok color listing readable fast draws g :
  init color listing readable fast draws = Return g -> canvas_ok g.
Proof.
  intros Hinit.
  pose proof (init_fresh _ _ _ _ _ _ Hinit)
    as (_&_&_&_&_& (Hpi & _ & _) &_&_& Htimers & _ & Hnames).
  assert ("image"%string ∉ image_names g) as Himage.
  { rewrite Hnames, shuffle_Permutation, elem_of_app.
    pose proof (not_gif_image listing). tauto. }
  revert Hinit. unfold init, load_images.
  destruct (forallb readable (gif_names listing)); [|discriminate].
  rewrite retag_images_untagged by apply new_tiles_untagged.
  set (names := shuffle draws (gif_names listing ++ gif_names listing)) in *.
  clearbody names.
  destruct names
    as [|n1 [|n2 [|n3 [|n4 [|n5 [|n6 [|n7 [|n8 [|n9 [|n10 [|n11 [|n12
        [|n13 [|n14 [|n15 [|n16 l]]]]]]]]]]]]]]]];
    try (vm_compute; discriminate).
  rename Hnames into Hg. intros Hinit.
  pose proof (new_tiles_shape color n1 n2 n3 n4 n5 n6 n7 n8 n9 n10 n11 n12
                n13 n14 n15 n16 l) as [Hshape Hnext].
  cbv zeta in Hshape, Hnext.
  destruct (assign_images None _ _ _) as [[[]|e] c]; [|discriminate].
  injection Hinit as <-. unfold canvas_ok. proj. cbn [snd] in *.
  rewrite Hnext. repeat split.
  - exact Hshape.
  - lia.
  - cbn [length]. lia.
  - exact Himage.
  - first [rewrite Htimers | idtac]. constructor.
  - intros i. discriminate.
Qed.

Lemma pointed_name p c c' names s l x1 y1 x2 y2 :
  items_ok (items c) (next_id c) names -> "image"%string ∉ names ->
  Tk.gettags (Tk.find_withtag_current p c) c = s :: l ->
  items c' = items c ->
  Tk.coords (Tk.find_withtag_current p c) c' = [x1; y1; x2; y2] ->
  s <> "image"%string.
Proof.
  intros (tiles & imgs & Hits & Hids & Hrect & Htags & Himgs & Hnd) Hnames
    (i & it & -> & Hi & -> & Hs & Hc)%pointed_item Hsame Hcoords.
  assert (Tk.coords [i] c' = Tk.coords [i] c) as Hcc.
  { unfold Tk.coords, Tk.find_item. now rewrite Hsame. }
  rewrite Hcc, Hc in Hcoords.
  destruct (find_item_some _ _ _ Hi) as [Hin _].
  rewrite Hits in Hin. apply elem_of_app in Hin as [Hin|Hin].
  - assert (In (item_tags it) (map (fun n => [n]) (take 16 names))) as H.
    { rewrite <- Htags. apply in_map. now apply list_elem_of_In. }
    apply in_map_iff in H as (n & Hn & Hnin). rewrite <- Hn in Hs.
    cbn in Hs. injection Hs as <-. intros ->. apply Hnames.
    apply list_elem_of_In in Hnin.
    rewrite <- (take_drop 16 names). apply elem_of_app. now left.
  - rewrite Forall_forall in Himgs. destruct (Himgs it Hin) as (_ & Hlen & _).
    rewrite Hcoords in Hlen. discriminate.
Qed.

Lemma removes_image_other d f :
  (forall i, f <> Disappear i) -> removes_image (Timer d f).
Proof. intros H i Hi. cbn in Hi. now apply H in Hi. Qed.

Lemma removes_image_disappear d i :
  (17 <= i)%nat -> removes_image (Timer d (Disappear i)).
Proof. intros H j [= <-]. exact H. Qed.

Lemma play_canvas_ok p g :
  canvas_ok g -> canvas_ok (callback_wrapper (play p) g).
Proof.
  intros (Hitems & Hnext & Hlen & Himage & Htimers & Hprev).
  assert (wp (play p) (fun _ => canvas_ok) (fun _ => canvas_ok) g) as H.
  { unfold play. wp_run.
    all: unfold canvas_ok; proj.
    all: repeat match goal with
                | H : prev_image _ = Some _ |- _ => apply Hprev in H
                end.
    all: repeat (apply conj);
      try assumption; try lia;
      try (intros ? [= <-]; lia);
      try (repeat (apply enqueue_Forall;
                   [first [apply removes_image_disappear; lia
                          | apply removes_image_other; intros; discriminate]|]);
           assumption).
    all: apply items_ok_create; [lia| |exact Hitems].
    all: eapply pointed_name; eauto. }
  apply wp_run in H. unfold callback_wrapper. destruct ((play p g).1); exact H.
Qed.

Lemma fire_canvas_ok f g :
  canvas_ok g -> (forall i, f = Disappear i -> (17 <= i)%nat) ->
  canvas_ok (callback_wrapper (fire f) g).
Proof.
  intros (Hitems & Hnext & Hlen & Himage & Htimers & Hprev) Hf.
  unfold callback_wrapper.
  destruct f as [i|tile col|text|]; cbn [fire].
  - unfold disappear, on_canvas, modify, canvas_ok. proj.
    repeat split; auto. apply items_ok_delete; auto.
  - unfold change_color. destruct (Tk.single tile) as [i|];
      [|now repeat split].
    unfold canvas_call.
    pose proof (itemconfig_fill_frame i col (canvas g)) as (_ & _ & Ht).
    assert (next_id (Tk.itemconfig_fill i col (canvas g)).2
            = next_id (canvas g)) as Hn.
    { unfold Tk.itemconfig_fill. now destruct (Tk.has_fill _ _). }
    assert (items_ok (items (Tk.itemconfig_fill i col (canvas g)).2)
              (next_id (canvas g)) (image_names g)) as Hi.
    { destruct (canvas g) as [its n b t q]. now apply items_ok_fill. }
    destruct (Tk.itemconfig_fill i col (canvas g)) as [o c].
    cbn [snd] in *. unfold canvas_ok. proj. rewrite Hn, Ht.
    repeat split; auto.
  - now repeat split.
  - now repeat split.
Qed.

Lemma run_timers_canvas_ok q : forall g,
  timers (canvas g) = q -> canvas_ok g -> canvas_ok (run_timers q g).
Proof.
  induction q as [|t q IH]; intros g Hq Hok; [exact Hok|].
  cbn [run_timers]. destruct (due t <=? clock (canvas g)); [|exact Hok].
  destruct Hok as (Hitems & Hnext & Hlen & Himage & Htimers & Hprev).
  rewrite Hq in Htimers. apply Forall_cons in Htimers as [Ht Htimers].
  apply IH.
  - now destruct (fire_frame (handler t)
                    (set_canvas (Tk.set_timers q (canvas g)) g))
      as (_ & _ & -> & _).
  - apply fire_canvas_ok; [now repeat split|exact Ht].
Qed.

Lemma idle_canvas_ok g : canvas_ok g -> canvas_ok (idle g).
Proof. now apply run_timers_canvas_ok. Qed.

Lemma image_not_shuffled draws (names : list string) :
  "image"%string ∉ names -> "image"%string ∉ shuffle draws names.
Proof. now rewrite shuffle_Permutation. Qed.

Lemma restart_loop_canvas f c old names :
  items_ok (items c) (next_id c) old -> (16 <= length names)%nat ->
  "image"%string ∉ names ->
  let r := assign_images (Some f) (map item_id (items c)) names c in
  items_ok (items r.2) (next_id r.2) names /\
  (returned r.1 = true <-> length (items c) = 16%nat) /\
  timers r.2 = timers c /\ next_id r.2 = next_id c.
Proof.
  intros Hitems Hlen Himage. cbn zeta.
  pose proof (assign_images_frame (Some f) (map item_id (items c)) names c)
    as (_ & _ & Hq & Hn).
  cbn zeta in Hq, Hn. rewrite Hn. split; [|split; [|now split]].
  - destruct c as [its n b t q]. now apply (restart_loop f its n b t q old).
  - destruct c as [its n b t q]. now apply (restart_loop f its n b t q old).
Qed.

Lemma restart_canvas_ok draws g :
  canvas_ok g -> canvas_ok (callback_wrapper (restart draws) g).
Proof.
  intros Hok.
  pose proof Hok as (Hitems & Hnext & Hlen & Himage & Htimers & Hprev).
  pose proof (image_not_shuffled draws _ Himage) as Himage'.
  pose proof (length_shuffle draws (image_names g)) as Hlen'.
  pose proof (items_ok_delete_withtag _ _ _ Himage Hitems) as Hdel.
  assert (wp (restart draws) (fun _ => canvas_ok) (fun _ => canvas_ok) g) as H.
  { unfold restart. apply wp_bind, wp_attr.
    destruct (prev_image g) as [i|] eqn:Hpi; [|exact Hok].
    specialize (Hprev i eq_refl). clear Hok.
    wp_run.
    all: match goal with
         | H : assign_images (Some ?f) (Tk.find_all ?c1) ?names ?c1
               = (_, ?c') |- _ =>
             assert (items c1 = items (canvas g)) as Hc1 by exact Hdel;
             pose proof (restart_loop_canvas f c1 (image_names g) names)
               as Hloop;
             unfold Tk.find_all in H; cbn zeta in Hloop;
             rewrite H in Hloop; cbn [snd] in Hloop;
             destruct Hloop as (Hloop & _ & Hq & Hn);
             [rewrite Hc1; exact Hitems | lia | exact Himage' |]
         end.
    all: unfold canvas_ok; proj; rewrite Hn in Hloop; rewrite ?Hq, ?Hn.
    all: repeat (apply conj); try assumption; try lia;
      try (intros ? Hx; rewrite Hpi in Hx; injection Hx as <-; lia);
      try (apply enqueue_Forall; [apply removes_image_disappear; lia|];
           assumption). }
  apply wp_run in H. unfold callback_wrapper.
  destruct ((restart draws g).1); exact H.
Qed.

Lemma deliver_canvas_ok ev g : canvas_ok g -> canvas_ok (deliver g ev).
Proof.
  intros Hok. destruct ev as [[p|ms]|draws]; cbn [deliver deliver_input].
  - destruct (button1 (canvas g)); apply idle_canvas_ok;
      [now apply play_canvas_ok|exact Hok].
  - apply idle_canvas_ok. exact Hok.
  - apply idle_canvas_ok. now apply restart_canvas_ok.
Qed.

Lemma run_canvas_ok evs : forall g, canvas_ok g -> canvas_ok (run g evs).
Proof.
  induction evs as [|ev evs IH]; intros g Hok; [exact Hok|].
  cbn [run foldl]. apply IH. now apply deliver_canvas_ok.
Qed.

Lemma deliver_input_delay i g : delay (deliver_input g i) = delay g.
Proof.
  destruct i as [p|ms]; cbn [deliver_input].
  - destruct (button1 (canvas g)).
    + destruct (idle_same_data (callback_wrapper (play p) g)) as (_&_&_&->&_).
      apply play_frame.
    + now destruct (idle_same_data g) as (_&_&_&->&_).
  - now destruct (idle_same_data
                    (set_canvas
                       (Tk.set_clock (clock (canvas g) + Z.of_nat ms) (canvas g))
                       g)) as (_&_&_&->&_).
Qed.

Lemma session_delay ins : forall g, delay (session g ins) = delay g.
Proof.
  induction ins as [|i ins IH]; intros g; [reflexivity|].
  cbn [session foldl]. etransitivity; [apply IH|apply deliver_input_delay].
Qed.

(** The final display and the rebinding in a new game, after any clicks and
    waits: the final display (game over, with score and number of tries) is
    shown only when no tile remains, and the canvas is then unbound.  When
    [play] handles a second click to the end and tiles are left on the
    board, the canvas is bound again exactly once the delay has passed: it
    is unbound for shorter waits and bound for any wait of at least the
    delay. *)
Lemma terminal_display color listing readable fast draws g0 ins p ms :
  init color listing readable fast draws = Return g0 ->
  let g := session g0 ins in
  (is_game_over (score_text g) = true ->
   remaining_tiles g = 0 /\ button1 (canvas g) = false) /\
  (button1 (canvas g) = true ->
   Float.whole (turns g + (1 # 2)) = true ->
   (play p g).1 = Return tt ->
   let g1 := deliver_input g (Click p) in
   remaining_tiles g1 <> 0 ->
   button1 (canvas (deliver_input g1 (Elapse ms))) = (delay g <=? Z.of_nat ms)).
Proof.
  intros Hinit. cbn zeta.
  pose proof (session_binding_ok ins g0 (init_binding_ok _ _ _ _ _ _ Hinit))
    as Hok.
  split.
  - intros Hover. destruct Hok as (_ & _ & Hok).
    destruct Hok as (? & ? & _); [|now split].
    rewrite Hover. reflexivity.
  - intros Hb Hwhole Hret. cbn [deliver_input]. rewrite Hb. intros Hrem.
    destruct (idle_same_data (callback_wrapper (play p) (session g0 ins)))
      as (_ & _ & Hrem' & _).
    rewrite Hrem' in Hrem.
    apply rebind_after_delay.
    + rewrite session_delay.
      apply init_fresh in Hinit as (_&_&_& -> &_). now destruct fast.
    + destruct Hok as (_ & Hnb & _). now apply Hnb.
    + apply play_frame.
    + now apply play_second_tile_returns.
Qed.

Lemma terminal_display_witness :
  init "blue" eight_gifs all_readable true [] = Return sample_game /\
  let g := session sample_game [Click (Some 1%nat)] in
  button1 (canvas g) = true /\
  Float.whole (turns g + (1 # 2)) = true /\
  (play (Some 2%nat) g).1 = Return tt /\
  remaining_tiles (deliver_input g (Click (Some 2%nat))) <> 0 /\
  button1 (canvas (deliver_input (deliver_input g (Click (Some 2%nat)))
                     (Elapse 1000))) = (delay g <=? Z.of_nat 1000).
Proof.
  split; [exact sample_game_init|]. cbn zeta.
  assert (button1 (canvas (session sample_game [Click (Some 1%nat)])) = true)
    as Hb by (vm_compute; reflexivity).
  assert (Float.whole (turns (session sample_game [Click (Some 1%nat)])
                       + (1 # 2)) = true)
    as Hw by (vm_compute; reflexivity).
  assert ((play (Some 2%nat) (session sample_game [Click (Some 1%nat)])).1
          = Return tt) as Hr by (vm_compute; reflexivity).
  assert (remaining_tiles
            (deliver_input (session sample_game [Click (Some 1%nat)])
               (Click (Some 2%nat))) <> 0)
    as Hn by (vm_compute; discriminate).
  repeat (split; [assumption|]).
  exact (proj2 (terminal_display "blue" eight_gifs all_readable true []
                  sample_game [Click (Some 1%nat)] (Some 2%nat) 1000%nat
                  sample_game_init)
           Hb Hw Hr Hn).
Defined.

(** While nothing is pending an unbound canvas stays unbound. *)
Lemma wait_stays_unbound g :
  timers (canvas g) = [] -> button1 (canvas g) = false ->
  forall ms, button1 (canvas (deliver_input g (Elapse ms))) = false.
Proof. intros Hq Hb ms. now rewrite (deliver_wait ms g Hq). Qed.

(** C6 (the code departs from the claim).  New game; click tile 1, then
    click the image that this first click has put on the tile (item 17).
    That is a second click with all sixteen tiles left: [play] unbinds the
    canvas and [appear] raises [ValueError] before any handler is
    registered.  No handler is pending afterwards, so the canvas is not
    bound again however long the player waits, and the final display is not
    shown either. *)
Theorem second_click_on_image_no_rebind :
  let g := session sample_game [Click (Some 1%nat)] in
  let g1 := deliver_input g (Click (Some 17%nat)) in
  (button1 (canvas g) = true /\
   Float.whole (turns g + (1 # 2)) = true /\
   over_image (Some 17%nat) g = true /\
   (play (Some 17%nat) g).1 = Raise ValueError) /\
  (remaining_tiles g1 = 16 /\ is_game_over (score_text g1) = false /\
   timers (canvas g1) = []) /\
  forall ms, button1 (canvas (deliver_input g1 (Elapse ms))) = false.
Proof.
  cbv zeta.
  split; [split; [|split; [|split]]; vm_compute; reflexivity|].
  split; [split; [|split]; vm_compute; reflexivity|].
  apply wait_stays_unbound; vm_compute; reflexivity.
Qed.

(** ** Clicks on tiles *)

Lemma tile_bears_item i name g :
  tile_bears i name g = true ->
  exists it x1 y1 x2 y2 rest,
    Tk.find_item i (canvas g) = Some it /\
    item_coords it = [x1; y1; x2; y2] /\
    item_tags it = name :: rest.
Proof.
  unfold tile_bears. destruct (Tk.find_item i (canvas g)) as [it|]; [|done].
  rewrite !andb_true_iff, !bool_decide_eq_true. intros [[_ Hc] Ht].
  destruct (item_coords it) as [|x1 [|y1 [|x2 [|y2 [|]]]]] eqn:Hcoords;
    try discriminate.
  destruct (item_tags it) as [|n rest] eqn:Htags; [discriminate|].
  injection Ht as ->. now exists it, x1, y1, x2, y2, rest.
Qed.

Lemma find_item_create i crd tags opts c it :
  Tk.find_item i c = Some it ->
  Tk.find_item i (Tk.create crd tags opts c).2 = Some it.
Proof.
  unfold Tk.find_item, Tk.create. cbn [snd items].
  induction (items c) as [|x l IH]; [discriminate|].
  cbn [List.find app]. destruct (Nat.eqb (item_id x) i); auto.
Qed.

Lemma count_turn_returns g :
  exists g1, count_turn g = (Return tt, g1) /\
    turns g1 = (turns g + (1 # 2))%Q /\ canvas g1 = canvas g /\
    image_dict g1 = image_dict g /\ remaining_tiles g1 = remaining_tiles g /\
    prev_name g1 = prev_name g /\ prev_image g1 = prev_image g /\
    prev_tile g1 = prev_tile g.
Proof.
  unfold count_turn. cbv [mbind M_bind mret M_ret get modify]. proj.
  destruct (_ && _); eexists; (split; [reflexivity|]); repeat split.
Qed.

Lemma first_tile_on_tile i name g :
  tile_bears i name g = true -> name ∈ image_dict g ->
  exists g', first_tile [i] name g = (Return tt, g') /\
    prev_name g' = Some name /\ is_Some (prev_image g') /\
    is_Some (prev_tile g') /\ turns g' = turns g /\
    remaining_tiles g' = remaining_tiles g /\
    image_dict g' = image_dict g /\
    forall j n, tile_bears j n g = true -> tile_bears j n g' = true.
Proof.
  intros (it & x1 & y1 & x2 & y2 & rest & Hi & Hc & _)%tile_bears_item Hin.
  unfold first_tile, appear. cbv [mbind M_bind mret M_ret get modify raise canvas_call].
  unfold Tk.coords. cbn [Tk.single]. rewrite Hi, Hc.
  rewrite bool_decide_eq_true_2 by exact Hin.
  eexists. split; [reflexivity|]. proj.
  repeat split; eauto.
  intros j n. unfold tile_bears. proj.
  destruct (Tk.find_item j (canvas g)) as [jt|] eqn:Hj; [|discriminate].
  pose proof (find_item_create j [(x1 + x2) / 2; (y1 + y2) / 2] [name]
                (Image name) (canvas g) jt Hj) as H.
  unfold Tk.create in H. cbn [snd] in H. now rewrite H.
Qed.

Lemma second_tile_on_tile i name g previous :
  tile_bears i name g = true -> name ∈ image_dict g ->
  prev_name g = Some previous -> is_Some (prev_image g) ->
  is_Some (prev_tile g) ->
  (second_tile [i] name g).1 = Return tt /\
  remaining_tiles (second_tile [i] name g).2 =
    if bool_decide (name = previous) then remaining_tiles g - 2
    else remaining_tiles g.
Proof.
  intros (it & x1 & y1 & x2 & y2 & rest & Hi & Hc & _)%tile_bears_item Hin
    Hname [pi Hpi] [pt Hpt].
  assert (Tk.coords [i] (Tk.unbind (canvas g)) = [x1; y1; x2; y2]) as Hcoords.
  { unfold Tk.coords. cbn [Tk.single].
    change (Tk.find_item i (Tk.unbind (canvas g)))
      with (Tk.find_item i (canvas g)).
    now rewrite Hi. }
  assert (wp (second_tile [i] name)
            (fun _ g' => remaining_tiles g' =
                         if bool_decide (name = previous)
                         then remaining_tiles g - 2 else remaining_tiles g)
            (fun _ _ => False) g) as H.
  { unfold second_tile. wp_run;
      repeat match goal with
             | H : forall _ _ _ _, Tk.coords _ _ <> _ |- _ =>
                 exfalso; exact (H _ _ _ _ Hcoords)
             | H : name ∉ image_dict g |- _ => exfalso; exact (H Hin)
             | H : prev_name g = _ |- _ => rewrite Hname in H
             | H : prev_image g = _ |- _ => rewrite Hpi in H
             | H : prev_tile g = _ |- _ => rewrite Hpt in H
             | H : Some _ = Some _ |- _ => injection H as ->
             | H : Some _ = None |- _ => discriminate H
             | H : bool_decide (name = _) = _ |- _ => rewrite H
             end; reflexivity. }
  apply wp_run in H. destruct ((second_tile [i] name g).1) as [[]|e]; [|done].
  now split.
Qed.

Lemma play_on_tile i name g :
  tile_bears i name g = true ->
  exists g1, count_turn g = (Return tt, g1) /\
  play (Some i) g =
    if negb (Float.whole (turns g1)) then first_tile [i] name g1
    else second_tile [i] name g1.
Proof.
  intros (it & x1 & y1 & x2 & y2 & rest & Hi & _ & Ht)%tile_bears_item.
  destruct (count_turn_returns g) as (g1 & Hcount & _).
  exists g1. split; [exact Hcount|].
  rewrite play_branches. cbv zeta.
  unfold Tk.find_withtag_current, Tk.gettags. rewrite Hi. cbn [Tk.single].
  rewrite Hi, Ht, Hcount. reflexivity.
Qed.

(** C9. The match test compares image names.  From the start of a pair,
    click a tile bearing [name1], then a tile bearing [name2]: [play] handles
    the second click to the end and takes 2 off [remaining_tiles] exactly
    when the two names are equal.  Nothing is asked of the two tiles: they
    may be one and the same tile, and they may be tiles that were matched
    before. *)
Theorem match_by_name g t1 t2 name1 name2 :
  Float.whole (turns g) = true ->
  tile_bears t1 name1 g = true -> tile_bears t2 name2 g = true ->
  name1 ∈ image_dict g -> name2 ∈ image_dict g ->
  let g1 := callback_wrapper (play (Some t1)) g in
  (play (Some t2) g1).1 = Return tt /\
  remaining_tiles (play (Some t2) g1).2 =
    if bool_decide (name2 = name1) then remaining_tiles g - 2
    else remaining_tiles g.
Proof.
  intros Hwhole Ht1 Ht2 Hin1 Hin2. cbn zeta. unfold callback_wrapper.
  destruct (whole_next _ Hwhole) as [Hhalf Hfull].
  (* first click *)
  destruct (play_on_tile t1 name1 g Ht1) as (ga & Hcount & ->).
  destruct (count_turn_returns g) as (ga' & Hcount' & Hta & Hca & Hda & Hra & _).
  rewrite Hcount in Hcount'. injection Hcount' as <-.
  rewrite Hta, Hhalf. cbn [negb].
  assert (tile_bears t1 name1 ga = true) as Ht1a
    by (unfold tile_bears in *; now rewrite Hca).
  assert (name1 ∈ image_dict ga) as Hin1a by now rewrite Hda.
  destruct (first_tile_on_tile t1 name1 ga Ht1a Hin1a)
    as (gb & -> & Hpn & Hpi & Hpt & Htb & Hrb & Hdb & Htiles).
  cbn [snd].
  (* second click *)
  assert (tile_bears t2 name2 gb = true) as Ht2b.
  { apply Htiles. unfold tile_bears in *. now rewrite Hca. }
  destruct (play_on_tile t2 name2 gb Ht2b) as (gc & Hcountc & ->).
  destruct (count_turn_returns gb)
    as (gc' & Hcount' & Htc & Hcc & Hdc & Hrc & Hpnc & Hpic & Hptc).
  rewrite Hcountc in Hcount'. injection Hcount' as <-.
  rewrite Htc, Htb, Hta, Hfull. cbn [negb].
  destruct (second_tile_on_tile t2 name2 gc name1) as [Hret Hrem].
  - unfold tile_bears in *. now rewrite Hcc.
  - now rewrite Hdc, Hdb, Hda.
  - now rewrite Hpnc.
  - now rewrite Hpic.
  - now rewrite Hptc.
  - split; [exact Hret|]. rewrite Hrem, Hrc, Hrb, Hra. reflexivity.
Qed.

Lemma match_by_name_witness :
  Float.whole (turns sample_game) = true /\
  tile_bears 1 "b.gif" sample_game = true /\
  "b.gif"%string ∈ image_dict sample_game /\
  let g1 := callback_wrapper (play (Some 1%nat)) sample_game in
  (play (Some 1%nat) g1).1 = Return tt /\
  remaining_tiles (play (Some 1%nat) g1).2 =
    if bool_decide ("b.gif"%string = "b.gif"%string)
    then remaining_tiles sample_game - 2
    else remaining_tiles sample_game.
Proof.
  assert (Float.whole (turns sample_game) = true) as Hw
    by (vm_compute; reflexivity).
  assert (tile_bears 1 "b.gif" sample_game = true) as Ht
    by (vm_compute; reflexivity).
  assert ("b.gif"%string ∈ image_dict sample_game) as Hin
    by (apply (bool_decide_unpack _); vm_compute; exact I).
  repeat (split; [assumption|]).
  exact (match_by_name sample_game 1 1 "b.gif" "b.gif" Hw Ht Ht Hin Hin).
Defined.

(** ** [restart] *)

Lemma restart_without_prev_image draws g :
  prev_image g = None ->
  restart draws g = (Raise (AttributeError "prev_image"), g).
Proof.
  intros H. unfold restart. cbv [mbind M_bind attr]. now rewrite H.
Qed.

Lemma session_not_counted ins : forall g,
  counted_clicks g ins = 0%nat -> same_data g (session g ins).
Proof.
  induction ins as [|i ins IH]; intros g H; [apply same_data_refl|].
  cbn [counted_clicks] in H. cbn [session foldl].
  destruct (counted g i) eqn:Hc; [discriminate|].
  eapply same_data_trans; [apply deliver_not_counted, Hc|].
  apply IH. exact H.
Qed.

Lemma play_returns_prev_image p g :
  (play p g).1 = Return tt -> is_Some (prev_image (play p g).2).
Proof.
  intros Hret.
  assert (wp (play p) (fun _ g' => is_Some (prev_image g'))
            (fun _ _ => True) g) as H.
  { unfold play. wp_run; eauto. }
  apply wp_run in H. now rewrite Hret in H.
Qed.

Lemma assign_images_raises fill tiles : forall names c e c',
  assign_images fill tiles names c = (Raise e, c') ->
  e = StopIteration \/ e = TclError.
Proof.
  induction tiles as [|tile tiles IH]; intros names c e c' H;
    cbn [assign_images] in H; [discriminate|].
  destruct names as [|name names]; [injection H as <- _; now left|].
  destruct fill as [f|]; [|eauto].
  unfold Tk.itemconfig_tag_fill, Tk.itemconfig_fill in H.
  destruct (Tk.has_fill _ _); [eauto|]. injection H as <- _. now right.
Qed.

Lemma restart_with_prev_image draws g :
  is_Some (prev_image g) ->
  (restart draws g).1 <> Raise (AttributeError "prev_image").
Proof.
  intros [i Hi].
  assert (wp (restart draws) (fun _ _ => True)
            (fun e _ => e <> AttributeError "prev_image") g) as H.
  { unfold restart. apply wp_bind, wp_attr. rewrite Hi.
    wp_run; auto;
      match goal with
      | H : assign_images _ _ _ _ = (Raise _, _) |- _ =>
          apply assign_images_raises in H as [-> | ->]; discriminate
      end. }
  apply wp_run in H. destruct ((restart draws g).1) as [[]|e]; [discriminate|].
  congruence.
Qed.

(** C10. [restart] needs a first tile.  [__init__] does not create
    [prev_image]; as long as no click has been handled in a new game,
    [restart] raises [AttributeError] when it reads the attribute and leaves
    the game as it was.  Once [play] has handled a click to the end the
    attribute exists and [restart] no longer fails in this way. *)
Theorem restart_needs_first_tile color listing readable fast draws
    g0 ins draws' p :
  init color listing readable fast draws = Return g0 ->
  let g := session g0 ins in
  (counted_clicks g0 ins = 0%nat ->
   restart draws' g = (Raise (AttributeError "prev_image"), g)) /\
  ((play p g).1 = Return tt ->
   (restart draws' (play p g).2).1 <> Raise (AttributeError "prev_image")).
Proof.
  intros (_&_&_&_&_& (Hp & _) & _)%init_fresh. cbn zeta. split.
  - intros (_&_&_&_& Hp' & _)%session_not_counted.
    apply restart_without_prev_image. now rewrite Hp'.
  - intros Hret. now apply restart_with_prev_image, play_returns_prev_image.
Qed.

Lemma restart_needs_first_tile_witness :
  init "blue" eight_gifs all_readable true [] = Return sample_game /\
  counted_clicks sample_game [Elapse 5; Click None] = 0%nat /\
  restart [] (session sample_game [Elapse 5; Click None]) =
  (Raise (AttributeError "prev_image"),
   session sample_game [Elapse 5; Click None]).
Proof.
  split; [exact sample_game_init|].
  assert (counted_clicks sample_game [Elapse 5; Click None] = 0%nat) as H
    by (vm_compute; reflexivity).
  split; [exact H|].
  exact (proj1 (restart_needs_first_tile "blue" eight_gifs all_readable true []
           sample_game
                  [Elapse 5; Click None] [] None sample_game_init) H).
Defined.

(** C2 (the code departs from the claim).  A folder with nine gif files
    passes [validate_images], and then, whatever the shuffle draws, some
    image sits on fewer than two of the 16 tiles: the board takes the first
    16 of 18 shuffled names. *)
Theorem nine_images_break_pairs color fast draws :
  validate_images (one_folder "images" nine_gifs) "images"
    = Return "images"%string /\
  exists g, init color nine_gifs all_readable fast draws = Return g /\
    exists name, name ∈ gif_names nine_gifs /\ (tiles_with name g < 2)%nat.
Proof.
  split; [vm_compute; reflexivity|].
  destruct (nine_gifs_board color fast draws) as (g & Hinit & Htiles).
  exists g. split; [exact Hinit|]. unfold tiles_with. rewrite Htiles.
  change (gif_names nine_gifs) with nine_gifs.
  pose proof (shuffle_Permutation draws (nine_gifs ++ nine_gifs)) as Hperm.
  pose proof (length_shuffle draws (nine_gifs ++ nine_gifs)) as Hlen.
  destruct (shuffle draws (nine_gifs ++ nine_gifs))
    as [|n1 [|n2 [|n3 [|n4 [|n5 [|n6 [|n7 [|n8 [|n9 [|n10 [|n11 [|n12
        [|n13 [|n14 [|n15 [|n16 [|n17 [|n18 [|n19 l]]]]]]]]]]]]]]]]]]];
    try discriminate Hlen.
  clear Hlen. exists n17.
  set (board := [n1; n2; n3; n4; n5; n6; n7; n8; n9; n10; n11; n12; n13;
                 n14; n15; n16]) in *.
  change (take 16 _) with board.
  change (board ++ [n17; n18] ≡ₚ nine_gifs ++ nine_gifs) in Hperm.
  assert (n17 ∈ nine_gifs) as Hin.
  { assert (n17 ∈ nine_gifs ++ nine_gifs) as H.
    { rewrite <- Hperm. apply elem_of_app. right. apply list_elem_of_here. }
    apply elem_of_app in H. tauto. }
  split; [exact Hin|].
  pose proof (count_Permutation n17 _ _ Hperm) as Hcount.
  rewrite filter_app, length_app in Hcount.
  rewrite (filter_cons_True (fun n => n = n17) n17 [n18] eq_refl) in Hcount.
  cbn [length] in Hcount.
  assert (length (filter (fun n => n = n17) (nine_gifs ++ nine_gifs)) = 2%nat)
    as Htwo.
  { clear -Hin. unfold nine_gifs, eight_gifs in Hin. cbn [app] in Hin.
    repeat (apply elem_of_cons in Hin as [-> | Hin]; [vm_compute; reflexivity|]).
    now apply elem_of_nil in Hin. }
  lia.
Qed.

(** ** What [restart] does *)

Lemma assign_images_short fill tiles : forall names c,
  (length names < length tiles)%nat ->
  returned (assign_images fill tiles names c).1 = false.
Proof.
  induction tiles as [|tile tiles IH]; intros names c Hlen;
    [cbn in Hlen; lia|].
  cbn [assign_images]. destruct names as [|name names]; [reflexivity|].
  cbn [length] in Hlen. destruct fill as [f|].
  - destruct (Tk.itemconfig_tag_fill tile name f c) as [[[]|e] c'];
      [|reflexivity].
    apply IH. lia.
  - apply IH. lia.
Qed.

(** Whenever [restart] raises, the score, the turn count, the number of
    remaining tiles and the binding are what they were. *)
Lemma restart_raises_no_reset draws g :
  returned (restart draws g).1 = false ->
  let g' := (restart draws g).2 in
  turns g' = turns g /\ score g' = score g /\
  remaining_tiles g' = remaining_tiles g /\
  button1 (canvas g') = button1 (canvas g).
Proof.
  intros Hraise. cbn zeta.
  set (P := fun g' : MatchGame =>
              turns g' = turns g /\ score g' = score g /\
              remaining_tiles g' = remaining_tiles g /\
              button1 (canvas g') = button1 (canvas g)).
  assert (wp (restart draws) (fun _ _ => True) (fun _ => P) g) as H.
  { unfold restart, P. wp_run; auto;
      match goal with
      | H : assign_images ?f ?t ?n ?c = (_, ?c') |- _ =>
          pose proof (assign_images_frame f t n c) as (Hb & _);
          cbn zeta in Hb; rewrite H in Hb; cbn [snd] in Hb; rewrite Hb
      end; repeat split. }
  apply wp_run in H. destruct ((restart draws g).1); [discriminate|exact H].
Qed.


(** [restart] raises as soon as the canvas holds more items than there are
    image names: an image that is still shown is such an item. *)
Lemma restart_too_many_items draws g :
  (length (image_names g)
   < length (items (Tk.delete_withtag "image" (canvas g))))%nat ->
  returned (restart draws g).1 = false.
Proof.
  intros Hlen.
  assert (wp (restart draws) (fun _ _ => False) (fun _ _ => True) g) as H.
  { unfold restart. wp_run; auto;
      match goal with
      | H : assign_images ?f ?t ?n ?c = (Return _, _) |- _ =>
          pose proof (assign_images_short f t n c) as Hs;
          rewrite H in Hs; cbn [fst returned] in Hs;
          assert (true = false) by
            (apply Hs; unfold Tk.find_all; rewrite length_map, length_shuffle;
             exact Hlen);
          discriminate
      end. }
  apply wp_run in H. now destruct ((restart draws g).1).
Qed.

(** C3 (the code departs from the claim).  In a new game click one tile, so
    that its image is shown, and press RESTART.  Whatever the shuffle draws,
    [restart] raises (with every draw 0, [StopIteration]: the shown image is
    a 17th canvas item and the iterator holds 16 names) before it reaches
    the resets, and the turn count stays at one half. *)
Theorem restart_after_one_click draws :
  let g := session sample_game [Click (Some 1%nat)] in
  returned (restart draws g).1 = false /\
  (restart [] g).1 = Raise StopIteration /\
  turns (deliver g (PressRestart draws)) = (1 # 2)%Q.
Proof.
  cbn zeta. set (g := session sample_game [Click (Some 1%nat)]).
  assert (returned (restart draws g).1 = false) as Hraise.
  { apply restart_too_many_items. vm_compute. lia. }
  split; [exact Hraise|]. split; [vm_compute; reflexivity|].
  cbn [deliver]. unfold callback_wrapper.
  destruct (idle_same_data (restart draws g).2) as (-> & _).
  destruct (restart_raises_no_reset draws g Hraise) as (-> & _).
  vm_compute. reflexivity.
Qed.

(** C4 (the code departs from the claim).  In a new game the tiles 1 and 9
    bear the same image.  Click them, wait for the delay, and do so eight
    times: [remaining_tiles] is 0 and the final display is shown, although
    only these two tiles were ever matched and the other fourteen are still
    yellow. *)
Theorem one_pair_ends_game :
  let g := session sample_game (same_pair 8 1 9 1000) in
  remaining_tiles g = 0 /\
  score_text g = GameOverLabel 100 8 /\
  button1 (canvas g) = false /\
  tile_images g =
    ["b.gif"; "c.gif"; "d.gif"; "e.gif"; "f.gif"; "g.gif"; "h.gif"; "a.gif";
     "b.gif"; "c.gif"; "d.gif"; "e.gif"; "f.gif"; "g.gif"; "h.gif"; "a.gif"]%string /\
  tile_fills g =
    ["blue"; "yellow"; "yellow"; "yellow"; "yellow"; "yellow"; "yellow"; "yellow";
     "blue"; "yellow"; "yellow"; "yellow"; "yellow"; "yellow"; "yellow"; "yellow"]%string.
Proof. vm_compute. repeat split. Qed.

(** ** Validation of the folder *)

Lemma validate_images_cases fs folder :
  validate_images fs folder =
  match fs folder with
  | None =>
      Raise (ArgumentTypeError (folder +:+ " is not a valid folder"))
  | Some Os.File => Raise NotADirectoryError
  | Some (Os.Directory listing) =>
      if (length (gif_names listing) <? 8)%nat then
        Raise (ArgumentTypeError
                 (folder +:+ " must contain at least 8 gif images"))
      else Return folder
  end.
Proof.
  unfold validate_images, Os.exists_, Os.listdir.
  destruct (fs folder) as [[|listing]|]; reflexivity.
Qed.

(** C7 (the code departs from the claim).  Give the path of a regular file
    as image folder: it exists, so the first check passes, and [os.listdir]
    raises [NotADirectoryError]; this is neither the usage error nor the
    path returned, and [argparse] does not turn it into a usage error. *)
Theorem file_as_folder :
  validate_images (one_file "cat.gif") "cat.gif" = Raise NotADirectoryError /\
  get_arguments (one_file "cat.gif") ["blue"; "cat.gif"]%string
    = Uncaught NotADirectoryError.
Proof. vm_compute. split; reflexivity. Qed.

(** * Further properties *)

(** ** Clicks on tiles *)

Lemma over_tile_bears p g :
  board_ok g -> over_tile p g = true ->
  exists i name, p = Some i /\ tile_bears i name g = true /\
                 name ∈ image_dict g.
Proof.
  intros (Htiles & _) Hover. unfold over_tile in Hover.
  destruct p as [i|]; [|discriminate].
  destruct (Tk.find_item i (canvas g)) as [it|] eqn:Hi; [|discriminate].
  destruct (find_item_some _ _ _ Hi) as [Hin _].
  rewrite Forall_forall in Htiles.
  destruct (Htiles it Hin Hover) as (Hlen & name & Hname & Hdict).
  exists i, name. split; [reflexivity|]. split; [|exact Hdict].
  unfold tile_bears. rewrite Hi, Hover.
  now rewrite !bool_decide_eq_true_2.
Qed.

Lemma play_on_tile_returns p g :
  board_ok g -> over_tile p g = true -> (play p g).1 = Return tt.
Proof.
  intros Hok Hover.
  destruct (over_tile_bears p g Hok Hover) as (i & name & -> & Hbears & Hin).
  destruct Hok as (_ & _ & Hattr).
  destruct (play_on_tile i name g Hbears) as (g1 & Hcount & ->).
  destruct (count_turn_returns g)
    as (g1' & Hcount' & Ht & Hc & Hd & _ & Hpn & Hpi & Hpt).
  rewrite Hcount in Hcount'. injection Hcount' as <-.
  assert (tile_bears i name g1 = true) as Hbears1
    by (unfold tile_bears in *; now rewrite Hc).
  assert (name ∈ image_dict g1) as Hin1 by now rewrite Hd.
  destruct (Float.whole (turns g1)) eqn:Hwhole; cbn [negb].
  - destruct Hattr as [(_ & _ & _ & Hzero & _) | (Hn & Hi & Htile)].
    + rewrite Ht, Hzero in Hwhole. vm_compute in Hwhole. discriminate.
    + destruct Hn as [previous Hprev]. rewrite <- Hpn in Hprev.
      rewrite <- Hpi in Hi. rewrite <- Hpt in Htile.
      now destruct (second_tile_on_tile i name g1 previous Hbears1 Hin1 Hprev
                      Hi Htile).
  - destruct (first_tile_on_tile i name g1 Hbears1 Hin1) as (g2 & -> & _).
    reflexivity.
Qed.

(** X1. Clicks on tiles are always handled to the end.  In a game started by
    [__init__] on a folder whose gif names are one tag each, after any
    clicks, waits and presses of RESTART, [play] called with the pointer
    over a tile returns without raising. *)
Theorem click_on_tile_returns color listing readable fast draws g0 evs p :
  forallb Tk.tag_word (gif_names listing) = true ->
  init color listing readable fast draws = Return g0 ->
  let g := run g0 evs in
  over_tile p g = true ->
  (play p g).1 = Return tt.
Proof.
  intros _ Hinit g Hover. apply play_on_tile_returns; [|exact Hover].
  apply run_board_ok.
  now apply (init_board_ok color listing readable fast draws).
Qed.

Lemma click_on_tile_returns_witness :
  forallb Tk.tag_word (gif_names eight_gifs) = true /\
  init "blue" eight_gifs all_readable true [] = Return sample_game /\
  let g := run sample_game
             [Input (Click (Some 3%nat)); PressRestart [2%nat]] in
  over_tile (Some 5%nat) g = true /\
  (play (Some 5%nat) g).1 = Return tt.
Proof.
  assert (forallb Tk.tag_word (gif_names eight_gifs) = true) as Hw
    by (vm_compute; reflexivity).
  split; [exact Hw|].
  split; [exact sample_game_init|]. cbn zeta.
  assert (over_tile (Some 5%nat)
            (run sample_game
               [Input (Click (Some 3%nat)); PressRestart [2%nat]]) = true)
    as Hover by (vm_compute; reflexivity).
  split; [exact Hover|].
  exact (click_on_tile_returns "blue" eight_gifs all_readable true []
           sample_game [Input (Click (Some 3%nat)); PressRestart [2%nat]]
           (Some 5%nat) Hw sample_game_init Hover).
Defined.

(** ** The tiles and their images *)

Lemma filter_rectangles_app tiles imgs next :
  Forall (fun it => is_rectangle it = true) tiles ->
  Forall (image_shown next) imgs ->
  List.filter is_rectangle (tiles ++ imgs) = tiles.
Proof.
  intros Ht Hi. rewrite List.filter_app.
  assert (List.filter is_rectangle tiles = tiles) as ->.
  { induction Ht as [|x l Hx Hl IH]; [reflexivity|].
    cbn [List.filter]. now rewrite Hx, IH. }
  assert (List.filter is_rectangle imgs = []) as ->.
  { induction Hi as [|x l Hx Hl IH]; [reflexivity|].
    cbn [List.filter]. destruct Hx as (-> & _). exact IH. }
  apply app_nil_r.
Qed.

Lemma omap_head_singletons (names : list string) :
  omap (fun tags : list string => head tags) (map (fun n => [n]) names)
  = names.
Proof.
  induction names as [|n names IH]; [reflexivity|].
  cbn. now rewrite IH.
Qed.

Lemma canvas_ok_tiles g :
  canvas_ok g ->
  length (tiles_of g) = 16%nat /\
  tile_images g = take 16 (image_names g).
Proof.
  intros ((tiles & imgs & Hits & Hids & Hrect & Htags & Himgs & _) & _).
  unfold tile_images, tiles_of. rewrite Hits.
  rewrite (filter_rectangles_app tiles imgs _ Hrect Himgs). split.
  - rewrite <- (length_map item_id), Hids. apply length_seq.
  - rewrite <- omap_head_singletons, <- Htags.
    clear. induction tiles as [|x l IH]; [reflexivity|].
    cbn. destruct (head (item_tags x)); now rewrite IH.
Qed.

(** X2. The board keeps its sixteen tiles.  In a game started by
    [__init__] on a folder whose gif names are one tag each, after any
    clicks, waits and presses of RESTART, the canvas holds exactly sixteen
    tiles and they carry, in order, the first sixteen names of
    [image_names]. *)
Theorem board_keeps_tiles color listing readable fast draws g0 evs :
  forallb Tk.tag_word (gif_names listing) = true ->
  init color listing readable fast draws = Return g0 ->
  let g := run g0 evs in
  length (tiles_of g) = 16%nat /\
  tile_images g = take 16 (image_names g).
Proof.
  intros _ Hinit. apply canvas_ok_tiles, run_canvas_ok.
  now apply (init_canvas_ok color listing readable fast draws).
Qed.

Lemma board_keeps_tiles_witness :
  forallb Tk.tag_word (gif_names eight_gifs) = true /\
  init "blue" eight_gifs all_readable true [] = Return sample_game /\
  let g := run sample_game
             [Input (Click (Some 3%nat)); PressRestart [2%nat]] in
  length (tiles_of g) = 16%nat /\
  tile_images g = take 16 (image_names g).
Proof.
  assert (forallb Tk.tag_word (gif_names eight_gifs) = true) as Hw
    by (vm_compute; reflexivity).
  split; [exact Hw|]. split; [exact sample_game_init|].
  exact (board_keeps_tiles "blue" eight_gifs all_readable true [] sample_game
           [Input (Click (Some 3%nat)); PressRestart [2%nat]]
           Hw sample_game_init).
Defined.

(** *** The names are only ever reordered *)

Lemma fire_names f g :
  image_names (callback_wrapper (fire f) g) = image_names g /\
  image_dict (callback_wrapper (fire f) g) = image_dict g.
Proof.
  unfold callback_wrapper. destruct f as [i|tile col|text|]; cbn [fire];
    try (split; reflexivity).
  unfold change_color. destruct (Tk.single tile); [|split; reflexivity].
  unfold canvas_call. destruct (Tk.itemconfig_fill _ _ _); split; reflexivity.
Qed.

Lemma run_timers_names q : forall g,
  image_names (run_timers q g) = image_names g /\
  image_dict (run_timers q g) = image_dict g.
Proof.
  induction q as [|t q IH]; intros g; [split; reflexivity|].
  cbn [run_timers]. destruct (due t <=? clock (canvas g)); [|split; reflexivity].
  destruct (IH (callback_wrapper (fire (handler t))
                  (set_canvas (Tk.set_timers q (canvas g)) g))) as [-> ->].
  apply (fire_names (handler t) (set_canvas (Tk.set_timers q (canvas g)) g)).
Qed.

Lemma restart_names draws g :
  image_names (restart draws g).2 ≡ₚ image_names g /\
  image_dict (restart draws g).2 = image_dict g.
Proof.
  set (P := fun g' : MatchGame =>
              image_names g' ≡ₚ image_names g /\
              image_dict g' = image_dict g).
  assert (wp (restart draws) (fun _ => P) (fun _ => P) g) as H.
  { unfold restart, P. wp_run; split; auto using shuffle_Permutation. }
  apply wp_run in H. destruct ((restart draws g).1); exact H.
Qed.

Lemma deliver_names ev g :
  image_names (deliver g ev) ≡ₚ image_names g /\
  image_dict (deliver g ev) = image_dict g.
Proof.
  destruct ev as [[p|ms]|draws]; cbn [deliver deliver_input]; unfold idle.
  - destruct (button1 (canvas g)).
    + destruct (run_timers_names
                  (timers (canvas (callback_wrapper (play p) g)))
                  (callback_wrapper (play p) g)) as [-> ->].
      unfold callback_wrapper.
      destruct (play_frame p g) as (_ & _ & -> & -> & _). now split.
    + now destruct (run_timers_names (timers (canvas g)) g) as [-> ->].
  - match goal with
    | |- context [run_timers ?q ?g'] =>
        destruct (run_timers_names q g') as [-> ->]
    end. now split.
  - match goal with
    | |- context [run_timers ?q ?g'] =>
        destruct (run_timers_names q g') as [-> ->]
    end. apply restart_names.
Qed.

Lemma run_names evs : forall g,
  image_names (run g evs) ≡ₚ image_names g /\
  image_dict (run g evs) = image_dict g.
Proof.
  induction evs as [|ev evs IH]; intros g; [now split|].
  cbn [run foldl]. destruct (IH (deliver g ev)) as [H1 H2].
  destruct (deliver_names ev g) as [H3 H4]. split.
  - etransitivity; [exact H1|exact H3].
  - etransitivity; [exact H2|exact H4].
Qed.

(** X3. Two tiles for every image.  When the folder holds exactly eight gif
    files (with different names, each of them one tag), then at every
    moment of the game, after any clicks, waits and presses of RESTART
    (also those that raise), every image is the image of exactly two
    tiles. *)
Theorem two_tiles_per_image color listing readable fast draws g0 evs name :
  forallb Tk.tag_word (gif_names listing) = true ->
  init color listing readable fast draws = Return g0 ->
  length (gif_names listing) = 8%nat -> NoDup (gif_names listing) ->
  name ∈ gif_names listing ->
  tiles_with name (run g0 evs) = 2%nat.
Proof.
  intros _ Hinit Hlen Hnd Hin.
  pose proof (init_fresh _ _ _ _ _ _ Hinit) as (_&_&_&_&_&_&_&_&_&_& Hnames).
  destruct (run_names evs g0) as [Hperm _].
  destruct (canvas_ok_tiles (run g0 evs)) as [_ Htiles].
  { apply run_canvas_ok.
    now apply (init_canvas_ok color listing readable fast draws). }
  unfold tiles_with. rewrite Htiles.
  assert (length (image_names (run g0 evs)) = 16%nat) as Hlen16.
  { rewrite Hperm, Hnames, length_shuffle, length_app, Hlen. reflexivity. }
  rewrite firstn_all2 by lia.
  rewrite (count_Permutation name _ _ Hperm), Hnames.
  rewrite (count_Permutation name _ _ (shuffle_Permutation draws _)).
  rewrite filter_app, length_app, (count_NoDup name _ Hnd Hin). reflexivity.
Qed.

Lemma two_tiles_per_image_witness :
  forallb Tk.tag_word (gif_names eight_gifs) = true /\
  init "blue" eight_gifs all_readable true [] = Return sample_game /\
  length (gif_names eight_gifs) = 8%nat /\ NoDup (gif_names eight_gifs) /\
  "c.gif"%string ∈ gif_names eight_gifs /\
  tiles_with "c.gif"
    (run sample_game
       [Input (Click (Some 3%nat)); PressRestart [2%nat];
        Input (Elapse 10); PressRestart [1%nat; 4%nat]]) = 2%nat.
Proof.
  assert (length (gif_names eight_gifs) = 8%nat) as Hlen
    by (vm_compute; reflexivity).
  assert (NoDup (gif_names eight_gifs)) as Hnd
    by (apply (bool_decide_unpack _); vm_compute; exact I).
  assert ("c.gif"%string ∈ gif_names eight_gifs) as Hin
    by (apply (bool_decide_unpack _); vm_compute; exact I).
  assert (forallb Tk.tag_word (gif_names eight_gifs) = true) as Hw
    by (vm_compute; reflexivity).
  split; [exact Hw|].
  split; [exact sample_game_init|]. repeat (split; [assumption|]).
  exact (two_tiles_per_image "blue" eight_gifs all_readable true []
           sample_game _ "c.gif" Hw sample_game_init Hlen Hnd Hin).
Defined.

(** ** When [restart] works *)




(** ** Clicks on images *)

Lemma shown_image_coords g i it :
  canvas_ok g -> Tk.find_item i (canvas g) = Some it ->
  is_rectangle it = false -> length (item_coords it) = 2%nat.
Proof.
  intros ((tiles & imgs & Hits & _ & Hrect & _ & Himgs & _) & _) Hi Hnot.
  destruct (find_item_some _ _ _ Hi) as [Hin _]. rewrite Hits in Hin.
  apply elem_of_app in Hin as [Hin|Hin].
  - rewrite Forall_forall in Hrect. rewrite (Hrect it Hin) in Hnot.
    discriminate.
  - rewrite Forall_forall in Himgs. now destruct (Himgs it Hin) as (_ & H & _).
Qed.

Lemma play_on_image i it g :
  Tk.find_item i (canvas g) = Some it -> length (item_coords it) = 2%nat ->
  exists g1, count_turn g = (Return tt, g1) /\
    play (Some i) g =
    (Raise ValueError,
     if Float.whole (turns g1) then set_canvas (Tk.unbind (canvas g1)) g1
     else g1).
Proof.
  intros Hi Hlen.
  destruct (count_turn_returns g) as (g1 & Hcount & _ & Hc & _).
  exists g1. split; [exact Hcount|].
  rewrite play_branches. cbv zeta.
  unfold Tk.find_withtag_current, Tk.gettags. rewrite Hi. cbn [Tk.single].
  rewrite Hi, Hcount.
  assert (forall c, items c = items (canvas g) ->
            exists x y, Tk.coords [i] c = [x; y]) as Hcoords.
  { intros c Hsame. unfold Tk.coords, Tk.find_item. cbn [Tk.single].
    rewrite Hsame. fold (Tk.find_item i (canvas g)). rewrite Hi.
    destruct (item_coords it) as [|x [|y [|]]]; try discriminate. eauto. }
  destruct (item_tags it ++ ["current"%string]) as [|name tags] eqn:Htags.
  { now destruct (item_tags it). }
  destruct (Float.whole (turns g1)); cbn [negb].
  - unfold second_tile, appear.
    cbv [mbind M_bind mret M_ret get modify raise on_canvas]. proj.
    destruct (Hcoords (Tk.unbind (canvas g1))) as (x & y & ->);
      [now rewrite <- Hc|reflexivity].
  - unfold first_tile, appear. cbv [mbind M_bind mret M_ret get modify raise].
    destruct (Hcoords (canvas g1)) as (x & y & ->);
      [now rewrite Hc|reflexivity].
Qed.

(** X5. A click on an image raises.  In a game started by [__init__], after
    any clicks, waits and presses of RESTART, [play] called with the pointer
    over an image that is shown raises [ValueError] ([appear] unpacks four
    coordinates, an image has two).  The click is counted and charged like
    any other, no handler is registered and nothing is added to the canvas;
    on a second click the canvas has been unbound before. *)
Theorem click_on_image_raises color listing readable fast draws g0 evs p :
  init color listing readable fast draws = Return g0 ->
  let g := run g0 evs in
  over_image p g = true ->
  let g' := (play p g).2 in
  (play p g).1 = Raise ValueError /\
  turns g' = (turns g + (1 # 2))%Q /\ score g' = counted_score g /\
  remaining_tiles g' = remaining_tiles g /\
  items (canvas g') = items (canvas g) /\
  timers (canvas g') = timers (canvas g) /\
  button1 (canvas g') = button1 (canvas g) && negb (Float.whole (turns g')).
Proof.
  intros Hinit g Hover. cbn zeta.
  assert (canvas_ok g) as Hok.
  { apply run_canvas_ok.
    now apply (init_canvas_ok color listing readable fast draws). }
  unfold over_image in Hover. destruct p as [i|]; [|discriminate].
  destruct (Tk.find_item i (canvas g)) as [it|] eqn:Hi; [|discriminate].
  apply negb_true_iff in Hover.
  pose proof (shown_image_coords g i it Hok Hi Hover) as Hlen.
  destruct (play_on_image i it g Hi Hlen) as (g1 & Hcount & Hplay).
  assert (Tk.find_withtag_current (Some i) (canvas g) <> []) as Hcounted.
  { unfold Tk.find_withtag_current. now rewrite Hi. }
  destruct (play_counted (Some i) g Hcounted) as [Ht Hs].
  destruct (count_turn_returns g)
    as (g1' & Hcount' & Ht1 & Hc1 & _ & Hr1 & _).
  rewrite Hcount in Hcount'. injection Hcount' as <-.
  split; [now rewrite Hplay|]. split; [exact Ht|]. split; [exact Hs|].
  rewrite Ht. rewrite Hplay. cbn [snd]. rewrite <- Ht1.
  destruct (Float.whole (turns g1)); proj; rewrite ?Hc1, ?Hr1;
    repeat split; auto using andb_false_r, andb_true_r.
Qed.

Lemma click_on_image_raises_witness :
  init "blue" eight_gifs all_readable true [] = Return sample_game /\
  let g := run sample_game [Input (Click (Some 1%nat))] in
  over_image (Some 17%nat) g = true /\
  (play (Some 17%nat) g).1 = Raise ValueError.
Proof.
  split; [exact sample_game_init|]. cbn zeta.
  assert (over_image (Some 17%nat)
            (run sample_game [Input (Click (Some 1%nat))]) = true) as Hover
    by (vm_compute; reflexivity).
  split; [exact Hover|].
  exact (proj1 (click_on_image_raises "blue" eight_gifs all_readable true []
           sample_game
                  [Input (Click (Some 1%nat))] (Some 17%nat)
                  sample_game_init Hover)).
Defined.

(** ** While the canvas is unbound *)

Lemma no_binds_not_before T q : binds q = 0%nat -> binds_not_before T q.
Proof.
  unfold binds, binds_not_before. induction q as [|t q IH]; [constructor|].
  cbn [List.filter]. destruct (is_bind (handler t)) eqn:Hb; [discriminate|].
  intros H. constructor; [cbv beta; congruence|auto].
Qed.

Lemma due_prefix_not_before now T q :
  now < T -> binds_not_before T q -> bind_in (due_prefix now q) = false.
Proof.
  intros Hlt Hq. unfold bind_in.
  induction Hq as [|t q Ht Hq IH]; [reflexivity|].
  cbn [due_prefix]. destruct (due t <=? now) eqn:Hdue; [|reflexivity].
  apply Z.leb_le in Hdue. cbn [existsb]. rewrite IH, orb_false_r.
  destruct (is_bind (handler t)); [|reflexivity]. specialize (Ht eq_refl). lia.
Qed.

Lemma idle_quiet T g :
  button1 (canvas g) = false ->
  binds_not_before T (timers (canvas g)) -> clock (canvas g) < T ->
  same_data g (idle g) /\ clock (canvas (idle g)) = clock (canvas g) /\
  button1 (canvas (idle g)) = false /\
  binds_not_before T (timers (canvas (idle g))).
Proof.
  intros Hb Hq Hlt.
  pose proof (run_timers_frame (timers (canvas g)) g) as (Hd & Hc & Ht & Hb').
  cbn zeta in *. fold (idle g) in *. specialize (Ht eq_refl).
  split; [exact Hd|]. split; [exact Hc|]. split.
  - now rewrite Hb', Hb, (due_prefix_not_before _ T).
  - rewrite Ht. unfold binds_not_before. now apply Forall_drop.
Qed.

Lemma deliver_input_quiet T i g :
  button1 (canvas g) = false ->
  binds_not_before T (timers (canvas g)) ->
  clock (canvas g) + elapsed [i] < T ->
  let g' := deliver_input g i in
  same_data g g' /\ clock (canvas g') = clock (canvas g) + elapsed [i] /\
  button1 (canvas g') = false /\ binds_not_before T (timers (canvas g')).
Proof.
  intros Hb Hq Hlt. unfold elapsed in *.
  destruct i as [p|ms]; cbn [deliver_input foldr] in *.
  - rewrite Hb. rewrite Z.add_0_r in *. now apply idle_quiet.
  - rewrite Z.add_0_r in *.
    set (g1 := set_canvas (Tk.set_clock _ (canvas g)) g).
    destruct (idle_quiet T g1) as (Hd & Hc & Hb1 & Hq1); try assumption.
    repeat split; try assumption; apply Hd.
Qed.

Lemma elapsed_cons i ins :
  elapsed (i :: ins) = elapsed [i] + elapsed ins /\ 0 <= elapsed ins.
Proof.
  split.
  - unfold elapsed. cbn [foldr]. destruct i; lia.
  - unfold elapsed. induction ins as [|[p|ms] ins IH]; cbn [foldr]; lia.
Qed.

Lemma session_quiet T ins : forall g,
  button1 (canvas g) = false ->
  binds_not_before T (timers (canvas g)) ->
  clock (canvas g) + elapsed ins < T ->
  same_data g (session g ins) /\ button1 (canvas (session g ins)) = false.
Proof.
  induction ins as [|i ins IH]; intros g Hb Hq Hlt.
  - split; [apply same_data_refl|exact Hb].
  - cbn [session foldl].
    destruct (elapsed_cons i ins) as [Hsum Hpos].
    rewrite Hsum in Hlt.
    destruct (deliver_input_quiet T i g Hb Hq) as (Hd & Hc & Hb' & Hq');
      [lia|].
    destruct (IH (deliver_input g i) Hb' Hq') as [Hd' Hb'']; [lia|].
    split; [eapply same_data_trans; eassumption|exact Hb''].
Qed.

(** X6. The end of the game is final.  In a new game, once the final display
    is shown, no click and no wait changes the score, the turn count or the
    number of remaining tiles, and the canvas stays unbound (only RESTART
    is left to the player). *)
Theorem game_over_is_final color listing readable fast draws g0 ins more :
  init color listing readable fast draws = Return g0 ->
  let g := session g0 ins in
  is_game_over (score_text g) = true ->
  let g' := session g more in
  score g' = score g /\ turns g' = turns g /\
  remaining_tiles g' = 0 /\ button1 (canvas g') = false.
Proof.
  intros Hinit g Hover. cbn zeta.
  pose proof (session_binding_ok ins g0 (init_binding_ok _ _ _ _ _ _ Hinit))
    as (_ & _ & Hok).
  destruct Hok as (Hrem & Hb & Hnb); [fold g; now rewrite Hover|].
  fold g in Hrem, Hb, Hnb.
  destruct (session_quiet (clock (canvas g) + elapsed more + 1) more g Hb)
    as [(Ht & Hs & Hr & _) Hb'].
  - now apply no_binds_not_before.
  - lia.
  - rewrite Ht, Hs, Hr, Hrem, Hb'. repeat split.
Qed.

Lemma game_over_is_final_witness :
  init "blue" eight_gifs all_readable true [] = Return sample_game /\
  let g := session sample_game (same_pair 8 1 9 1000) in
  is_game_over (score_text g) = true /\
  let g' := session g [Click (Some 2%nat); Elapse 5000; Click (Some 3%nat)] in
  score g' = score g /\ turns g' = turns g /\
  remaining_tiles g' = 0 /\ button1 (canvas g') = false.
Proof.
  split; [exact sample_game_init|]. cbn zeta.
  assert (is_game_over
            (score_text (session sample_game (same_pair 8 1 9 1000))) = true)
    as Hover by (vm_compute; reflexivity).
  split; [exact Hover|].
  exact (game_over_is_final "blue" eight_gifs all_readable true [] sample_game
           (same_pair 8 1 9 1000)
           [Click (Some 2%nat); Elapse 5000; Click (Some 3%nat)]
           sample_game_init Hover).
Defined.

Lemma session_run ins : forall g, session g ins = run g (map Input ins).
Proof.
  induction ins as [|i ins IH]; intros g; [reflexivity|].
  cbn [session run map foldl]. apply IH.
Qed.

Lemma bind_not_before_other T d f :
  is_bind f = false -> is_bind (handler (Timer d f)) = true -> T <= d.
Proof. cbn. congruence. Qed.

Lemma play_second_quiet p g :
  binds (timers (canvas g)) = 0%nat ->
  Float.whole (turns g + (1 # 2)) = true ->
  Tk.find_withtag_current p (canvas g) <> [] ->
  let g' := (play p g).2 in
  button1 (canvas g') = false /\
  binds_not_before (clock (canvas g) + delay g) (timers (canvas g')).
Proof.
  intros Hnb Hwhole Hp. cbn zeta.
  pose proof (no_binds_not_before (clock (canvas g) + delay g) _ Hnb) as Hq.
  set (P := fun g' : MatchGame =>
              button1 (canvas g') = false /\
              binds_not_before (clock (canvas g) + delay g)
                (timers (canvas g'))).
  assert (wp (play p) (fun _ => P) (fun _ => P) g) as H.
  { unfold play, P. wp_run.
    all: try (match goal with
              | H : Tk.gettags _ _ = [] |- _ =>
                  apply gettags_current in H; contradiction
              end).
    all: try (match goal with
              | H : negb (Float.whole _) = true |- _ =>
                  rewrite Hwhole in H; discriminate
              end).
    all: split; [reflexivity|].
    all: unfold binds_not_before;
      repeat (apply enqueue_Forall;
              [cbn [handler due is_bind]; intros; first [discriminate | lia]|]);
      exact Hq. }
  apply wp_run in H. destruct ((play p g).1); exact H.
Qed.

(** X7. While a pair is resolved the player cannot play.  In a new game,
    when a second click is handled (also when [play] raises on the way), the
    canvas is unbound, and as long as less time than the delay has passed no
    click changes the turn count, the score or the number of remaining
    tiles. *)
Theorem clicks_ignored_during_delay color listing readable fast draws
    g0 ins p more :
  init color listing readable fast draws = Return g0 ->
  let g := session g0 ins in
  counted g (Click p) = true ->
  Float.whole (turns g + (1 # 2)) = true ->
  elapsed more < delay g ->
  let g1 := deliver_input g (Click p) in
  let g2 := session g1 more in
  button1 (canvas g1) = false /\ button1 (canvas g2) = false /\
  turns g2 = turns g1 /\ score g2 = score g1 /\
  remaining_tiles g2 = remaining_tiles g1.
Proof.
  intros Hinit g [Hb Hp]%counted_click Hwhole Hdelay. cbn zeta.
  pose proof (session_binding_ok ins g0 (init_binding_ok _ _ _ _ _ _ Hinit))
    as (_ & Hnb & _).
  fold g in Hnb. specialize (Hnb Hb).
  assert (0 < delay g) as Hpos.
  { unfold g. rewrite session_delay.
    apply init_fresh in Hinit as (_&_&_& -> &_). now destruct fast. }
  destruct (play_second_quiet p g Hnb Hwhole Hp) as [Hb1 Hq1].
  destruct (play_frame p g) as (_ & Hclock & _).
  cbn [deliver_input]. rewrite Hb.
  set (g' := callback_wrapper (play p) g) in *.
  change ((play p g).2) with g' in *.
  destruct (idle_quiet (clock (canvas g) + delay g) g' Hb1 Hq1)
    as (_ & Hc2 & Hb2 & Hq2); [lia|].
  destruct (session_quiet (clock (canvas g) + delay g) more (idle g') Hb2 Hq2)
    as [(Ht & Hs & Hr & _) Hb3]; [lia|].
  repeat split; assumption.
Qed.

Lemma clicks_ignored_during_delay_witness :
  init "blue" eight_gifs all_readable true [] = Return sample_game /\
  let g := session sample_game [Click (Some 1%nat)] in
  counted g (Click (Some 2%nat)) = true /\
  Float.whole (turns g + (1 # 2)) = true /\
  elapsed [Click (Some 3%nat); Elapse 999; Click (Some 4%nat)] < delay g /\
  let g1 := deliver_input g (Click (Some 2%nat)) in
  let g2 := session g1 [Click (Some 3%nat); Elapse 999; Click (Some 4%nat)] in
  button1 (canvas g1) = false /\ button1 (canvas g2) = false /\
  turns g2 = turns g1 /\ score g2 = score g1 /\
  remaining_tiles g2 = remaining_tiles g1.
Proof.
  split; [exact sample_game_init|]. cbn zeta.
  assert (counted (session sample_game [Click (Some 1%nat)])
            (Click (Some 2%nat)) = true) as Hc by (vm_compute; reflexivity).
  assert (Float.whole (turns (session sample_game [Click (Some 1%nat)])
                       + (1 # 2)) = true) as Hw by (vm_compute; reflexivity).
  assert (elapsed [Click (Some 3%nat); Elapse 999; Click (Some 4%nat)]
          < delay (session sample_game [Click (Some 1%nat)])) as Hd
    by (vm_compute; reflexivity).
  repeat (split; [assumption|]).
  exact (clicks_ignored_during_delay "blue" eight_gifs all_readable true []
           sample_game
           [Click (Some 1%nat)] (Some 2%nat)
           [Click (Some 3%nat); Elapse 999; Click (Some 4%nat)]
           sample_game_init Hc Hw Hd).
Defined.

(** X8. A second click on an image freezes the board.  In a new game, when
    the second click of a pair falls on an image that is shown, [play]
    unbinds the canvas and raises before it registers the handler that would
    bind it again: from then on no click and no wait changes the turn count,
    the score or the number of remaining tiles, and the canvas stays
    unbound. *)
Theorem second_click_on_image_freezes color listing readable fast draws
    g0 ins p more :
  init color listing readable fast draws = Return g0 ->
  let g := session g0 ins in
  button1 (canvas g) = true -> over_image p g = true ->
  Float.whole (turns g + (1 # 2)) = true ->
  let g1 := deliver_input g (Click p) in
  let g2 := session g1 more in
  button1 (canvas g2) = false /\
  turns g2 = turns g1 /\ score g2 = score g1 /\
  remaining_tiles g2 = remaining_tiles g1.
Proof.
  intros Hinit g Hb Hover Hwhole. cbn zeta.
  pose proof (session_binding_ok ins g0 (init_binding_ok _ _ _ _ _ _ Hinit))
    as (_ & Hnb & _).
  fold g in Hnb. specialize (Hnb Hb).
  assert (canvas_ok g) as Hok.
  { unfold g. rewrite session_run. apply run_canvas_ok.
    now apply (init_canvas_ok color listing readable fast draws). }
  unfold over_image in Hover. destruct p as [i|]; [|discriminate].
  destruct (Tk.find_item i (canvas g)) as [it|] eqn:Hi; [|discriminate].
  apply negb_true_iff in Hover.
  pose proof (shown_image_coords g i it Hok Hi Hover) as Hlen.
  destruct (play_on_image i it g Hi Hlen) as (g' & Hcount & Hplay).
  destruct (count_turn_returns g) as (g'' & Hcount' & Ht & Hc & _).
  rewrite Hcount in Hcount'. injection Hcount' as <-.
  rewrite Ht, Hwhole in Hplay.
  cbn [deliver_input]. rewrite Hb. unfold callback_wrapper.
  rewrite Hplay. cbn [snd].
  set (gu := set_canvas (Tk.unbind (canvas g')) g').
  assert (button1 (canvas gu) = false) as Hbu by reflexivity.
  assert (binds (timers (canvas gu)) = 0%nat) as Hnu.
  { unfold gu. proj. now rewrite Hc. }
  set (T := clock (canvas gu) + elapsed more + 1).
  destruct (idle_quiet T gu Hbu (no_binds_not_before T _ Hnu))
    as (_ & Hc2 & Hb2 & Hq2).
  { pose proof (proj2 (elapsed_cons (Elapse 0) more)). lia. }
  destruct (session_quiet T more (idle gu) Hb2 Hq2) as [(H1 & H2 & H3 & _) H4].
  { rewrite Hc2. unfold T. lia. }
  repeat split; assumption.
Qed.

Lemma second_click_on_image_freezes_witness :
  init "blue" eight_gifs all_readable true [] = Return sample_game /\
  let g := session sample_game [Click (Some 1%nat)] in
  button1 (canvas g) = true /\ over_image (Some 17%nat) g = true /\
  Float.whole (turns g + (1 # 2)) = true /\
  let g1 := deliver_input g (Click (Some 17%nat)) in
  let g2 := session g1 [Elapse 5000; Click (Some 2%nat)] in
  button1 (canvas g2) = false /\
  turns g2 = turns g1 /\ score g2 = score g1 /\
  remaining_tiles g2 = remaining_tiles g1.
Proof.
  split; [exact sample_game_init|]. cbn zeta.
  assert (button1 (canvas (session sample_game [Click (Some 1%nat)])) = true)
    as Hb by (vm_compute; reflexivity).
  assert (over_image (Some 17%nat)
            (session sample_game [Click (Some 1%nat)]) = true) as Ho
    by (vm_compute; reflexivity).
  assert (Float.whole (turns (session sample_game [Click (Some 1%nat)])
                       + (1 # 2)) = true) as Hw by (vm_compute; reflexivity).
  repeat (split; [assumption|]).
  exact (second_click_on_image_freezes "blue" eight_gifs all_readable true []
           sample_game
           [Click (Some 1%nat)] (Some 17%nat) [Elapse 5000; Click (Some 2%nat)]
           sample_game_init Hb Ho Hw).
Defined.

(** ** Starting a game *)

Lemma assign_images_None tiles : forall names c,
  (assign_images None tiles names c).1 =
  if (length tiles <=? length names)%nat then Return tt
  else Raise StopIteration.
Proof.
  induction tiles as [|tile tiles IH]; intros names c; [reflexivity|].
  cbn [assign_images]. destruct names as [|name names]; [reflexivity|].
  rewrite IH. reflexivity.
Qed.

Lemma init_outcome color listing readable fast draws :
  match init color listing readable fast draws with
  | Return g =>
      forallb readable (gif_names listing) = true /\
      (8 <= length (gif_names listing))%nat
  | Raise e =>
      if forallb readable (gif_names listing)
      then e = StopIteration /\ (length (gif_names listing) < 8)%nat
      else e = TclError
  end.
Proof.
  unfold init, load_images.
  destruct (forallb readable (gif_names listing)); [|reflexivity].
  rewrite retag_images_untagged by apply new_tiles_untagged.
  set (names := shuffle draws (gif_names listing ++ gif_names listing)).
  assert (length names = (2 * length (gif_names listing))%nat) as Hlen.
  { unfold names. rewrite length_shuffle, length_app. lia. }
  pose proof (assign_images_None (Tk.find_all (create_tiles color Tk.empty))
                names (create_tiles color Tk.empty)) as H.
  replace (length (Tk.find_all (create_tiles color Tk.empty))) with 16%nat in H
    by (vm_compute; reflexivity).
  destruct (assign_images None _ names _) as [[[]|e] c]; cbn [fst] in H.
  - destruct (16 <=? length names)%nat eqn:Hle; [|discriminate].
    apply Nat.leb_le in Hle. split; [reflexivity|lia].
  - destruct (16 <=? length names)%nat eqn:Hle; [discriminate|].
    apply Nat.leb_gt in Hle. injection H as ->. split; [reflexivity|lia].
Qed.

(** X9. What [__init__] needs.  On a folder whose gif names are one tag
    each, [__init__] returns a game exactly when every gif file holds an
    image that Tk can read and there are at least eight of them.  A gif
    that cannot be read raises [TclError] while the images are loaded; with
    fewer than eight readable gifs [StopIteration] is raised while the names
    are handed out to the sixteen tiles. *)
Theorem init_needs_eight_images player_color listing readable fast draws :
  forallb Tk.tag_word (gif_names listing) = true ->
  match init player_color listing readable fast draws with
  | Return g =>
      forallb readable (gif_names listing) = true /\
      (8 <= length (gif_names listing))%nat /\
      image_dict g = gif_names listing /\ color g = player_color
  | Raise e =>
      if forallb readable (gif_names listing)
      then e = StopIteration /\ (length (gif_names listing) < 8)%nat
      else e = TclError
  end.
Proof.
  intros _.
  pose proof (init_outcome player_color listing readable fast draws) as H.
  destruct (init player_color listing readable fast draws) as [g|e] eqn:Hinit;
    [|exact H].
  destruct H as [Hload Hlen]. split; [exact Hload|]. split; [exact Hlen|].
  split.
  - now apply init_fresh in Hinit as (_&_&_&_&_&_&_&_&_& -> & _).
  - revert Hinit. unfold init, load_images. rewrite Hload.
    destruct (assign_images None _ _ _) as [[[]|?] ?]; [|discriminate].
    now intros [= <-].
Qed.

Lemma init_needs_eight_images_witness :
  forallb Tk.tag_word (gif_names eight_gifs) = true /\
  match init "blue" eight_gifs all_readable true [] with
  | Return g =>
      forallb all_readable (gif_names eight_gifs) = true /\
      (8 <= length (gif_names eight_gifs))%nat /\
      image_dict g = gif_names eight_gifs /\ color g = "blue"%string
  | Raise e =>
      if forallb all_readable (gif_names eight_gifs)
      then e = StopIteration /\ (length (gif_names eight_gifs) < 8)%nat
      else e = TclError
  end.
Proof.
  assert (forallb Tk.tag_word (gif_names eight_gifs) = true) as Hw
    by (vm_compute; reflexivity).
  split; [exact Hw|].
  exact (init_needs_eight_images "blue" eight_gifs all_readable true [] Hw).
Defined.

(** ** The command line *)

Lemma validate_images_returns fs folder folder' :
  validate_images fs folder = Return folder' ->
  folder' = folder /\
  exists listing, fs folder = Some (Os.Directory listing) /\
                  (8 <= length (gif_names listing))%nat.
Proof.
  rewrite validate_images_cases.
  destruct (fs folder) as [[|listing]|]; try discriminate.
  destruct (length (gif_names listing) <? 8)%nat eqn:Hlt; [discriminate|].
  apply Nat.ltb_ge in Hlt. intros [= <-]. eauto.
Qed.

Lemma take_positional_ok fs arg_strings st st' :
  namespace_ok fs (Argparse.ns st) ->
  Argparse.take_positional fs arg_strings st = Parsed st' ->
  namespace_ok fs (Argparse.ns st').
Proof.
  intros [Hc Hf]. unfold Argparse.take_positional.
  destruct (Argparse.todo st) as [|p todo']; [now intros [= <-]|].
  unfold Argparse.get_values.
  destruct (Argparse.remove_dashes arg_strings) as [|s [|s' l]].
  - destruct (Argparse.convert_all fs p []) as [vs| | |]; try discriminate.
    intros [= <-]. destruct p; split; cbn; try assumption; discriminate.
  - destruct (Argparse.convert fs p s) as [v| | |] eqn:Hv; try discriminate.
    intros [= <-]. destruct p; split; cbn; try assumption.
    + intros c [= ->]. unfold Argparse.convert in Hv.
      destruct (bool_decide _) eqn:Hin; [|discriminate].
      injection Hv as <-. now apply bool_decide_eq_true in Hin.
    + intros f [= ->]. unfold Argparse.convert, argparse_type in Hv.
      destruct (validate_images fs s) as [f'|e] eqn:Hval.
      * injection Hv as ->.
        now destruct (validate_images_returns _ _ _ Hval) as [-> _].
      * destruct e; discriminate.
  - destruct (Argparse.convert_all fs p (s :: s' :: l)) as [vs| | |];
      try discriminate.
    intros [= <-]. destruct p; split; cbn; try assumption; discriminate.
Qed.

Lemma take_optionals_ok fs acts : forall st st',
  namespace_ok fs (Argparse.ns st) ->
  Argparse.take_optionals acts st = Parsed st' ->
  namespace_ok fs (Argparse.ns st').
Proof.
  induction acts as [|[|] acts IH]; intros st st' Hok; cbn.
  - now intros [= <-].
  - discriminate.
  - apply IH. exact Hok.
Qed.

Lemma and_then_parsed {A B} (r : parsed A) (k : A -> parsed B) b :
  Argparse.and_then r k = Parsed b -> exists a, r = Parsed a /\ k a = Parsed b.
Proof. destruct r; try discriminate. eauto. Qed.

Lemma consume_step fs s k rest st :
  Argparse.consume fs ((s, k) :: rest) st =
  match k with
  | Argparse.O t =>
      match Argparse.tuple_action t with
      | None => Argparse.consume fs rest (Argparse.extra s st)
      | Some act =>
          match Argparse.cluster act (Argparse.tuple_string t)
                  (Argparse.tuple_explicit t) with
          | Some acts =>
              Argparse.and_then (Argparse.take_optionals acts st)
                (Argparse.consume fs rest)
          | None => UsageError "ignored explicit argument"
          end
      end
  | Argparse.A =>
      match Argparse.todo st with
      | [] => Argparse.consume fs rest (Argparse.extra s st)
      | _ :: _ =>
          match rest with
          | (d, Argparse.Dash) :: rest' =>
              Argparse.and_then (Argparse.take_positional fs [s; d] st)
                (Argparse.consume fs rest')
          | _ =>
              Argparse.and_then (Argparse.take_positional fs [s] st)
                (Argparse.consume fs rest)
          end
      end
  | Argparse.Dash =>
      match rest with
      | (a, Argparse.A) :: rest' =>
          match Argparse.todo st with
          | [] => Argparse.consume fs rest (Argparse.extra s st)
          | _ :: _ =>
              Argparse.and_then (Argparse.take_positional fs [s; a] st)
                (Argparse.consume fs rest')
          end
      | _ => Argparse.consume fs rest (Argparse.extra s st)
      end
  end.
Proof.
  destruct st as [[|p todo] n extras], k, rest as [|[? []] ?]; reflexivity.
Qed.

Lemma consume_ok fs n : forall pattern st st',
  (length pattern <= n)%nat ->
  namespace_ok fs (Argparse.ns st) ->
  Argparse.consume fs pattern st = Parsed st' ->
  namespace_ok fs (Argparse.ns st').
Proof.
  induction n as [|n IH]; intros pattern st st' Hlen Hok.
  { destruct pattern; [|cbn in Hlen; lia]. now intros [= <-]. }
  destruct pattern as [|[s k] rest]; [now intros [= <-]|].
  cbn [length] in Hlen.
  assert (forall args rest',
            (length rest' <= n)%nat ->
            Argparse.and_then (Argparse.take_positional fs args st)
              (Argparse.consume fs rest') = Parsed st' ->
            namespace_ok fs (Argparse.ns st')) as Hpos.
  { intros args rest' Hle (st1 & H1 & H2)%and_then_parsed.
    apply (IH rest' st1 st' Hle); [|exact H2].
    now apply (take_positional_ok fs args st). }
  assert (forall a rest',
            (length rest' <= n)%nat ->
            Argparse.consume fs rest' (Argparse.extra a st) = Parsed st' ->
            namespace_ok fs (Argparse.ns st')) as Hextra.
  { intros a rest' Hle. apply IH; [exact Hle|exact Hok]. }
  rewrite consume_step. destruct k as [|t|].
  - destruct (Argparse.todo st); [apply Hextra; lia|].
    destruct rest as [|[d []] rest']; cbn [length] in Hlen;
      apply Hpos; cbn [length]; lia.
  - destruct (Argparse.tuple_action t) as [act|]; [|apply Hextra; lia].
    destruct (Argparse.cluster _ _ _) as [acts|]; [|discriminate].
    intros (st1 & H1 & H2)%and_then_parsed.
    apply (IH rest st1 st'); [lia| |exact H2].
    now apply (take_optionals_ok fs acts st).
  - destruct rest as [|[a []] rest']; cbn [length] in Hlen;
      try (apply Hextra; cbn [length]; lia).
    destruct (Argparse.todo st);
      [apply Hextra; cbn [length]; lia|apply Hpos; lia].
Qed.

Lemma get_arguments_parsed fs argv player_color folder fast :
  get_arguments fs argv
    = Parsed (Argparse.Str player_color, Argparse.Str folder, fast) ->
  player_color ∈ ["blue"; "green"; "magenta"]%string /\
  exists listing, fs folder = Some (Os.Directory listing) /\
                  (8 <= length (gif_names listing))%nat.
Proof.
  unfold get_arguments, Argparse.parse_args.
  destruct (Argparse.classify argv) as [pattern|]; [|discriminate].
  destruct (Argparse.consume fs pattern _) as [st| | |] eqn:Hst;
    try discriminate.
  apply (consume_ok fs (length pattern)) in Hst as [Hc Hf]; [|lia|].
  2: { split; intros ?; discriminate. }
  destruct (Argparse.todo st); [|discriminate].
  destruct (Argparse.extras st); [|discriminate].
  destruct (Argparse.ns_color (Argparse.ns st)) as [c|] eqn:Hcol;
    [|discriminate].
  destruct (Argparse.ns_image_folder (Argparse.ns st)) as [f|] eqn:Hfol;
    [|discriminate].
  intros [= -> -> _]. split; [now apply Hc|].
  specialize (Hf folder eq_refl).
  now destruct (validate_images_returns _ _ _ Hf) as [_ H].
Qed.

(** X10. Accepted arguments start a game.  Whenever [get_arguments] returns
    a colour, a folder and the flag, the colour is one of the three choices
    and the folder is a directory with at least eight gif files.  [main]
    then stops with [TclError] when Tk finds no display or when some gif of
    the folder is not an image that Tk can read; otherwise, the gif names
    being one tag each, it builds the game: score 100, no turn played,
    sixteen tiles to go, the delay chosen by the flag and the canvas
    bound. *)
Theorem main_starts_accepted_game fs display readable argv draws
    player_color folder fast :
  get_arguments fs argv
    = Parsed (Argparse.Str player_color, Argparse.Str folder, fast) ->
  player_color ∈ ["blue"; "green"; "magenta"]%string /\
  exists listing,
    fs folder = Some (Os.Directory listing) /\
    (8 <= length (gif_names listing))%nat /\
    (display = false \/ forallb readable (gif_names listing) = false ->
     main fs display readable argv draws = Uncaught TclError) /\
    (display = true -> forallb readable (gif_names listing) = true ->
     forallb Tk.tag_word (gif_names listing) = true ->
     exists g,
       main fs display readable argv draws = Parsed g /\
       init player_color listing readable fast draws = Return g /\
       score g = 100 /\ turns g = 0%Q /\ remaining_tiles g = 16 /\
       delay g = (if fast then 1000 else 3000) /\
       button1 (canvas g) = true).
Proof.
  intros Hargs.
  destruct (get_arguments_parsed _ _ _ _ _ Hargs)
    as (Hcolor & listing & Hfs & Hlen).
  split; [exact Hcolor|]. exists listing.
  split; [exact Hfs|]. split; [exact Hlen|].
  unfold main. rewrite Hargs. unfold Os.listdir. rewrite Hfs.
  pose proof (init_outcome player_color listing readable fast draws) as Hout.
  split.
  - intros [->|Hload]; [reflexivity|].
    destruct display; [|reflexivity]. cbn [negb].
    destruct (init player_color listing readable fast draws) as [g|e].
    + destruct Hout as [Hout _]. congruence.
    + rewrite Hload in Hout. now rewrite Hout.
  - intros -> Hload _. cbn [negb].
    destruct (init player_color listing readable fast draws) as [g|e]
      eqn:Hinit.
    + exists g.
      pose proof (init_fresh _ _ _ _ _ _ Hinit)
        as (Ht & Hs & Hr & Hd & _ & _ & Hb & _).
      repeat split; assumption.
    + rewrite Hload in Hout. destruct Hout. lia.
Qed.

Lemma main_starts_accepted_game_witness :
  get_arguments (one_folder "images" eight_gifs)
      ["blue"; "--fa"; "images"]%string
    = Parsed (Argparse.Str "blue", Argparse.Str "images", true) /\
  "blue"%string ∈ ["blue"; "green"; "magenta"]%string /\
  exists listing,
    one_folder "images" eight_gifs "images" = Some (Os.Directory listing) /\
    (8 <= length (gif_names listing))%nat /\
    (true = false \/ forallb all_readable (gif_names listing) = false ->
     main (one_folder "images" eight_gifs) true all_readable
       ["blue"; "--fa"; "images"]%string [] = Uncaught TclError) /\
    (true = true -> forallb all_readable (gif_names listing) = true ->
     forallb Tk.tag_word (gif_names listing) = true ->
     exists g,
       main (one_folder "images" eight_gifs) true all_readable
         ["blue"; "--fa"; "images"]%string [] = Parsed g /\
       init "blue" listing all_readable true [] = Return g /\
       score g = 100 /\ turns g = 0%Q /\ remaining_tiles g = 16 /\
       delay g = (if true then 1000 else 3000) /\
       button1 (canvas g) = true).
Proof.
  assert (get_arguments (one_folder "images" eight_gifs)
            ["blue"; "--fa"; "images"]%string
          = Parsed (Argparse.Str "blue", Argparse.Str "images", true)) as Ha
    by (vm_compute; reflexivity).
  split; [exact Ha|].
  exact (main_starts_accepted_game (one_folder "images" eight_gifs) true
           all_readable ["blue"; "--fa"; "images"]%string [] "blue" "images"
           true Ha).
Defined.

(** ** The count of remaining tiles *)

Lemma init_remaining_ok color listing readable fast draws g :
  init color listing readable fast draws = Return g -> remaining_ok g.
Proof.
  intros (_ & _ & Hr & _)%init_fresh. unfold remaining_ok. rewrite Hr.
  repeat split; try lia; discriminate.
Qed.

Lemma even_minus_2 z : Z.even z = true -> Z.even (z - 2) = true.
Proof.
  intros H. replace (z - 2) with (z + 2 * (-1)) by lia.
  now rewrite Z.even_add_mul_2.
Qed.

Lemma even_ge_2 z : Z.even z = true -> 0 <= z -> z <> 0 -> 2 <= z.
Proof.
  intros H H0 Hne. destruct (Z.eq_dec z 1) as [->|]; [discriminate|lia].
Qed.

Lemma play_remaining_ok p g :
  button1 (canvas g) = true -> binding_ok g -> remaining_ok g ->
  remaining_ok (callback_wrapper (play p) g).
Proof.
  intros Hb (_ & Hnb & _) (Heven & Hrange & Hzero). specialize (Hnb Hb).
  assert (remaining_tiles g <> 0) as Hne.
  { intros H0. destruct (Hzero H0) as [Hf _]. congruence. }
  pose proof (even_ge_2 _ Heven (proj1 Hrange) Hne) as Hge.
  pose proof (even_minus_2 _ Heven) as Heven'.
  assert (wp (play p) (fun _ => remaining_ok) (fun _ => remaining_ok) g) as H.
  { unfold play. wp_run.
    all: unfold remaining_ok; proj.
    all: rewrite ?enqueue_binds; cbn [handler is_bind Nat.add]; rewrite ?Hnb.
    all: repeat (apply conj); try assumption; try lia.
    all: try (intros H0; contradiction).
    all: try (intros _; split; reflexivity).
    all: match goal with
         | H : bool_decide (_ = 0) = false |- _ =>
             apply bool_decide_eq_false in H; proj; intros; contradiction
         end. }
  apply wp_run in H. unfold callback_wrapper. destruct ((play p g).1); exact H.
Qed.

Lemma fire_remaining_ok t q g :
  timers (canvas g) = t :: q -> remaining_ok g ->
  remaining_ok (callback_wrapper (fire (handler t))
                  (set_canvas (Tk.set_timers q (canvas g)) g)).
Proof.
  intros Hq (Heven & Hrange & Hzero).
  set (g1 := set_canvas (Tk.set_timers q (canvas g)) g).
  pose proof (fire_frame (handler t) g1) as (Hd & _ & Ht & Hb & _).
  cbn zeta in *. destruct Hd as (_ & _ & Hrem & _).
  set (g2 := callback_wrapper (fire (handler t)) g1) in *.
  change (timers (canvas g1)) with q in Ht.
  change (button1 (canvas g1)) with (button1 (canvas g)) in Hb.
  change (remaining_tiles g1) with (remaining_tiles g) in Hrem.
  unfold remaining_ok. rewrite Hrem, Ht, Hb.
  split; [exact Heven|]. split; [exact Hrange|].
  intros H0. destruct (Hzero H0) as [Hf Hnb]. rewrite Hq in Hnb.
  unfold binds in *. cbn [List.filter] in Hnb.
  destruct (is_bind (handler t)); [discriminate|]. now rewrite Hf.
Qed.

Lemma run_timers_remaining_ok q : forall g,
  timers (canvas g) = q -> remaining_ok g -> remaining_ok (run_timers q g).
Proof.
  induction q as [|t q IH]; intros g Hq Hok; [exact Hok|].
  cbn [run_timers]. destruct (due t <=? clock (canvas g)); [|exact Hok].
  apply IH; [|now apply fire_remaining_ok].
  now destruct (fire_frame (handler t)
                  (set_canvas (Tk.set_timers q (canvas g)) g)) as (_&_&->&_).
Qed.

Lemma deliver_input_remaining_ok i g :
  binding_ok g -> remaining_ok g -> remaining_ok (deliver_input g i).
Proof.
  intros Hbind Hok. destruct i as [p|ms]; cbn [deliver_input]; unfold idle.
  - destruct (button1 (canvas g)) eqn:Hb; apply run_timers_remaining_ok;
      try reflexivity; [now apply play_remaining_ok|exact Hok].
  - apply run_timers_remaining_ok; [reflexivity|exact Hok].
Qed.

Lemma session_remaining_ok ins : forall g,
  binding_ok g -> remaining_ok g -> remaining_ok (session g ins).
Proof.
  induction ins as [|i ins IH]; intros g Hbind Hok; [exact Hok|].
  cbn [session foldl]. apply IH;
    [now apply deliver_input_binding_ok|now apply deliver_input_remaining_ok].
Qed.

(** X11. The count of remaining tiles stays in range.  In a new game, after
    any clicks and waits, [remaining_tiles] is an even number between 0 and
    16: it is never negative, because the match that brings it to 0 leaves
    the canvas unbound for good. *)
Theorem remaining_tiles_in_range color listing readable fast draws g0 ins :
  init color listing readable fast draws = Return g0 ->
  let g := session g0 ins in
  0 <= remaining_tiles g <= 16 /\ Z.even (remaining_tiles g) = true.
Proof.
  intros Hinit. cbn zeta.
  destruct (session_remaining_ok ins g0) as (Heven & Hrange & _).
  - now apply (init_binding_ok color listing readable fast draws).
  - now apply (init_remaining_ok color listing readable fast draws).
  - now split.
Qed.

Lemma remaining_tiles_in_range_witness :
  init "blue" eight_gifs all_readable true [] = Return sample_game /\
  let g := session sample_game (same_pair 8 1 9 1000 ++ same_pair 2 1 9 1000) in
  0 <= remaining_tiles g <= 16 /\ Z.even (remaining_tiles g) = true.
Proof.
  split; [exact sample_game_init|].
  exact (remaining_tiles_in_range "blue" eight_gifs all_readable true []
           sample_game
           (same_pair 8 1 9 1000 ++ same_pair 2 1 9 1000) sample_game_init).
Defined.

(** ** The label *)

Lemma init_text_ok color listing readable fast draws g :
  init color listing readable fast draws = Return g -> text_ok g.
Proof.
  intros (_ & Hs & _ & _ & Htext & _ & _ & _ & Hq & _)%init_fresh.
  unfold text_ok. rewrite Hq, Htext, Hs. split; [constructor|now left].
Qed.

Lemma no_final_text_pending g :
  text_ok g -> game_over_pending (timers (canvas g)) = false ->
  Forall (fun t => forall text, handler t <> SetScoreText text)
    (timers (canvas g)).
Proof.
  intros [Hq _] Hgp. unfold game_over_pending in Hgp.
  induction Hq as [|t q Ht Hq IH]; [constructor|].
  cbn [existsb] in Hgp. apply orb_false_iff in Hgp as [Ht' Hgp].
  constructor; [|now apply IH].
  intros text Htext. rewrite Htext in Ht'. cbn [is_game_over_call] in Ht'.
  rewrite (Ht text Htext) in Ht'. discriminate.
Qed.

Lemma sets_final_text_other g t :
  (forall text, handler t <> SetScoreText text) -> sets_final_text g t.
Proof. intros H text Htext. now destruct (H text). Qed.

Lemma play_text_ok p g :
  button1 (canvas g) = true -> binding_ok g -> text_ok g ->
  text_ok (callback_wrapper (play p) g).
Proof.
  intros Hb (_ & _ & Hover) Htext.
  assert (is_game_over (score_text g) = false /\
          game_over_pending (timers (canvas g)) = false) as [Hgo Hgp].
  { apply orb_false_iff. apply not_true_is_false. intros H.
    apply Hover in H as (_ & H & _). congruence. }
  pose proof (no_final_text_pending g Htext Hgp) as Hnone.
  assert (score_text g = ScoreLabel (score g)) as Hlabel.
  { destruct Htext as [_ [H|H]]; [exact H|].
    rewrite H in Hgo. discriminate. }
  assert (forall g', Forall (sets_final_text g') (timers (canvas g))) as Hq.
  { intros g'. eapply Forall_impl; [exact Hnone|].
    intros t. apply sets_final_text_other. }
  assert (wp (play p) (fun _ => text_ok) (fun _ => text_ok) g) as H.
  { unfold play. wp_run.
    all: unfold text_ok; proj; split; [|now left].
    all: repeat (apply enqueue_Forall;
                 [intros text Heq; cbn [handler] in Heq;
                  first [discriminate Heq
                        |injection Heq as <-; reflexivity]|]).
    all: apply Hq. }
  apply wp_run in H. unfold callback_wrapper. destruct ((play p g).1); exact H.
Qed.

Lemma fire_text_ok t q g :
  timers (canvas g) = t :: q -> text_ok g ->
  text_ok (callback_wrapper (fire (handler t))
             (set_canvas (Tk.set_timers q (canvas g)) g)).
Proof.
  intros Hq [Hall Hlabel]. rewrite Hq in Hall.
  apply Forall_cons in Hall as [Ht Hall].
  set (g1 := set_canvas (Tk.set_timers q (canvas g)) g).
  pose proof (fire_frame (handler t) g1) as (Hd & _ & Htm & _ & Htext).
  cbn zeta in *. destruct Hd as (Hturns & Hscore & _).
  set (g2 := callback_wrapper (fire (handler t)) g1) in *.
  change (timers (canvas g1)) with q in Htm.
  change (score_text g1) with (score_text g) in Htext.
  change (turns g1) with (turns g) in Hturns.
  change (score g1) with (score g) in Hscore.
  assert (final_text g2 = final_text g) as Hfinal.
  { unfold final_text. now rewrite Hturns, Hscore. }
  unfold text_ok. rewrite Htm. split.
  - eapply Forall_impl; [exact Hall|]. intros u Hu text Hh.
    rewrite Hfinal. now apply Hu.
  - rewrite Htext, Hfinal, Hscore.
    destruct (handler t) as [i|tile col|text|] eqn:Hh; try exact Hlabel.
    right. now apply Ht.
Qed.

Lemma run_timers_text_ok q : forall g,
  timers (canvas g) = q -> text_ok g -> text_ok (run_timers q g).
Proof.
  induction q as [|t q IH]; intros g Hq Hok; [exact Hok|].
  cbn [run_timers]. destruct (due t <=? clock (canvas g)); [|exact Hok].
  apply IH; [|now apply fire_text_ok].
  now destruct (fire_frame (handler t)
                  (set_canvas (Tk.set_timers q (canvas g)) g)) as (_&_&->&_).
Qed.

Lemma deliver_input_text_ok i g :
  binding_ok g -> text_ok g -> text_ok (deliver_input g i).
Proof.
  intros Hbind Hok. destruct i as [p|ms]; cbn [deliver_input]; unfold idle.
  - destruct (button1 (canvas g)) eqn:Hb; apply run_timers_text_ok;
      try reflexivity; [now apply play_text_ok|exact Hok].
  - apply run_timers_text_ok; [reflexivity|].
    destruct Hok as [Hall Hlabel]. split; [|exact Hlabel].
    eapply Forall_impl; [exact Hall|]. intros t Ht. exact Ht.
Qed.

Lemma session_text_ok ins : forall g,
  binding_ok g -> text_ok g -> text_ok (session g ins).
Proof.
  induction ins as [|i ins IH]; intros g Hbind Hok; [exact Hok|].
  cbn [session foldl]. apply IH;
    [now apply deliver_input_binding_ok|now apply deliver_input_text_ok].
Qed.

(** X12. The label shows the score.  In a new game, after any clicks and
    waits, the label shows the current score, or, once the game is over, the
    final display with the current score and the whole number of turns; the
    final display comes only when no tile remains. *)
Theorem label_shows_score color listing readable fast draws g0 ins :
  init color listing readable fast draws = Return g0 ->
  let g := session g0 ins in
  score_text g = ScoreLabel (score g) \/
  (score_text g = GameOverLabel (score g) (Float.to_int (turns g)) /\
   remaining_tiles g = 0).
Proof.
  intros Hinit. cbn zeta.
  pose proof (init_binding_ok _ _ _ _ _ _ Hinit) as Hbind.
  pose proof (init_text_ok _ _ _ _ _ _ Hinit) as Htext.
  pose proof (session_binding_ok ins g0 Hbind) as (_ & _ & Hover).
  destruct (session_text_ok ins g0 Hbind Htext) as [_ [H|H]]; [now left|].
  right. split; [exact H|]. apply Hover. rewrite H. reflexivity.
Qed.

Lemma label_shows_score_witness :
  init "blue" eight_gifs all_readable true [] = Return sample_game /\
  let g := session sample_game (same_pair 8 1 9 1000) in
  score_text g = ScoreLabel (score g) \/
  (score_text g = GameOverLabel (score g) (Float.to_int (turns g)) /\
   remaining_tiles g = 0).
Proof.
  split; [exact sample_game_init|].
  exact (label_shows_score "blue" eight_gifs all_readable true [] sample_game
           (same_pair 8 1 9 1000) sample_game_init).
Defined.

(** ** A round: two tiles and the delay *)

Lemma first_click a na rest it g :
  Tk.find_item a (canvas g) = Some it ->
  length (item_coords it) = 4%nat ->
  item_tags it = na :: rest -> na ∈ image_dict g ->
  Float.whole (turns g + (1 # 2)) = false ->
  play (Some a) g =
    (Return tt,
     MkGame (turns g + (1 # 2)) (delay g) (remaining_tiles g) (color g)
       (image_names g) (image_dict g)
       (MkCanvas (items (canvas g) ++ [image_of it na (next_id (canvas g))])
          (S (next_id (canvas g))) (button1 (canvas g)) (clock (canvas g))
          (timers (canvas g)))
       (score g) (score_text g) (Some (next_id (canvas g))) (Some na)
       (Some [a])).
Proof.
  intros Hi Hc Ht Hin Hw.
  destruct (item_coords it) as [|x1 [|y1 [|x2 [|y2 [|]]]]] eqn:Hxy;
    try discriminate Hc.
  rewrite play_branches. cbv zeta.
  unfold Tk.find_withtag_current, Tk.gettags. rewrite Hi. cbn [Tk.single].
  rewrite Hi, Ht. cbn [app].
  unfold count_turn. cbv [mbind M_bind mret M_ret get modify raise].
  cbn [turns set_turns]. rewrite Hw, andb_false_r. cbn [negb turns set_turns].
  rewrite Hw. cbn [negb].
  unfold first_tile, appear. cbv [mbind M_bind mret M_ret get modify raise canvas_call].
  unfold Tk.coords. cbn [Tk.single]. proj. rewrite Hi, Hxy.
  rewrite bool_decide_eq_true_2 by exact Hin.
  unfold image_of. rewrite Hxy. reflexivity.
Qed.

Lemma after_record d f its nx b1 clk q :
  Tk.after d f (MkCanvas its nx b1 clk q) =
  MkCanvas its nx b1 clk (Tk.enqueue (Timer (clk + d) f) q).
Proof. reflexivity. Qed.

Lemma set_canvas_twice c c' g :
  set_canvas c (set_canvas c' g) = set_canvas c g.
Proof. reflexivity. Qed.

Lemma unbind_record its nx b1 clk q :
  Tk.unbind (MkCanvas its nx b1 clk q) = MkCanvas its nx false clk q.
Proof. reflexivity. Qed.

Lemma second_click b nb rest it g p pn pt :
  Tk.find_item b (canvas g) = Some it ->
  length (item_coords it) = 4%nat ->
  item_tags it = nb :: rest -> nb ∈ image_dict g ->
  Float.whole (turns g + (1 # 2)) = true ->
  prev_image g = Some p -> prev_name g = Some pn -> prev_tile g = Some pt ->
  timers (canvas g) = [] ->
  let matched := bool_decide (nb = pn) in
  let remaining := if matched then remaining_tiles g - 2 else remaining_tiles g in
  let last :=
    if bool_decide (remaining = 0)
    then SetScoreText (GameOverLabel (counted_score g)
                         (Float.to_int (turns g + (1 # 2))))
    else BindPlay in
  play (Some b) g =
    (Return tt,
     MkGame (turns g + (1 # 2)) (delay g) remaining (color g)
       (image_names g) (image_dict g)
       (MkCanvas (items (canvas g) ++ [image_of it nb (next_id (canvas g))])
          (S (next_id (canvas g))) false (clock (canvas g))
          (round_timers (clock (canvas g) + delay g) (next_id (canvas g)) p
             [b] pt (color g) matched last))
       (counted_score g) (counted_text g) (prev_image g) (prev_name g)
       (prev_tile g)).
Proof.
  intros Hi Hc Ht Hin Hw Hp Hpn Hpt Hq. cbv zeta.
  destruct (item_coords it) as [|x1 [|y1 [|x2 [|y2 [|]]]]] eqn:Hxy;
    try discriminate Hc.
  assert (Tk.find_withtag_current (Some b) (canvas g) = [b]) as Hcur.
  { unfold Tk.find_withtag_current. now rewrite Hi. }
  assert (Tk.gettags [b] (canvas g) = nb :: rest ++ ["current"%string]) as Htags.
  { unfold Tk.gettags. cbn [Tk.single]. now rewrite Hi, Ht. }
  assert (Tk.coords [b] (Tk.unbind (canvas g)) = [x1; y1; x2; y2]) as Hcoords.
  { unfold Tk.coords. cbn [Tk.single].
    change (Tk.find_item b (Tk.unbind (canvas g)))
      with (Tk.find_item b (canvas g)).
    now rewrite Hi. }
  unfold counted_score, counted_text, round_timers, image_of. cbv zeta.
  rewrite Hxy, Hw, andb_true_r.
  match goal with
  | |- _ = (_, ?R) =>
      assert (wp (play (Some b)) (fun _ g' => g' = R) (fun _ _ => False) g) as H
  end.
  { unfold play. wp_run.
    all: rewrite ?Hcur in *.
    all: repeat match goal with
           | H : Tk.gettags _ _ = [] |- _ => rewrite Htags in H; discriminate H
           | H : Tk.gettags _ _ = ?s :: ?l |- _ =>
               rewrite Htags in H; injection H as ? ?; subst s l
           | H : forall _ _ _ _, Tk.coords _ _ <> _ |- _ =>
               exfalso; exact (H _ _ _ _ Hcoords)
           | H : Tk.coords _ _ = [?a1; ?a2; ?a3; ?a4] |- _ =>
               rewrite Hcoords in H; injection H as ? ? ? ?; subst a1 a2 a3 a4
           | H : _ ∉ image_dict _ |- _ => exfalso; exact (H Hin)
           | H : prev_name _ = _ |- _ => rewrite Hpn in H
           | H : prev_image _ = _ |- _ => rewrite Hp in H
           | H : prev_tile _ = _ |- _ => rewrite Hpt in H
           | H : Some _ = Some ?a |- _ => injection H as ?; subst a
           | H : Some _ = None |- _ => discriminate H
           | H : negb _ = _ |- _ => rewrite Hw in H; discriminate H
           | H : bool_decide _ = _ |- _ => rewrite H
           | H : Float.gt _ _ && _ = _ |- _ => rewrite Hw, andb_true_r in H; rewrite H
           end.
    all: rewrite ?Hq, ?set_canvas_twice.
    all: repeat first [rewrite after_record | rewrite unbind_record
                      | rewrite Z.leb_refl
                      | progress cbn [Tk.enqueue due app]].
    all: reflexivity. }
  apply wp_run in H. destruct (play (Some b) g) as [[[]|e] g']; [|done].
  cbn [fst snd] in H. now subst g'.
Qed.

Lemma filter_below (n m : nat) (its : list item) :
  Forall (fun it => (item_id it < n)%nat) its -> (n <= m)%nat ->
  filter (fun it => item_id it ≠ m) its = its.
Proof.
  intros Hall Hle. apply filter_all. eapply Forall_impl; [exact Hall|].
  intros it Hit. cbn beta in *. lia.
Qed.

Lemma has_fill_rectangles i its nx b1 clk q :
  Forall (fun it => is_rectangle it = true) its ->
  Tk.has_fill i (MkCanvas its nx b1 clk q) = true.
Proof.
  intros Hall. unfold Tk.has_fill, Tk.find_item. cbn [items].
  destruct (List.find _ its) as [it|] eqn:Hf; [|reflexivity].
  apply find_some in Hf as [Hin _].
  rewrite Forall_forall in Hall. apply list_elem_of_In in Hin.
  specialize (Hall it Hin). unfold is_rectangle in Hall.
  now destruct (item_options_of it).
Qed.

Lemma paint_rectangles col i its :
  Forall (fun it => is_rectangle it = true) its ->
  Forall (fun it => is_rectangle it = true) (paint col i its).
Proof.
  intros Hall. unfold paint. apply Forall_map. eapply Forall_impl; [exact Hall|].
  intros it Hit. cbn beta. destruct (Nat.eqb _ _); [|exact Hit].
  now rewrite is_rectangle_with_fill.
Qed.

Lemma delete_shown its (imgs : list item) i :
  Forall (fun it => (item_id it < i)%nat) its ->
  filter (fun it => item_id it ≠ i) (its ++ imgs) =
  its ++ filter (fun it => item_id it ≠ i) imgs.
Proof.
  intros Hall. rewrite filter_app. f_equal.
  now apply (filter_below i i).
Qed.

Section Fire.

Variables (t : Q) (d r : Z) (col : string) (names dict : list string)
  (nx : nat) (clk sc : Z) (pi : option nat) (pn : option string)
  (pt : option (list nat)).

Local Abbreviation state_with its b1 q txt :=
  (MkGame t d r col names dict (MkCanvas its nx b1 clk q) sc txt pi pn pt).

Lemma run_timers_due T f q q0 its b1 txt :
  T <= clk ->
  run_timers (Timer T f :: q) (state_with its b1 q0 txt) =
  run_timers q (callback_wrapper (fire f) (state_with its b1 q txt)).
Proof.
  intros HT%Z.leb_le. cbn [run_timers]. proj. cbn [due handler].
  now rewrite HT.
Qed.

Lemma fire_disappear i its b1 q txt :
  callback_wrapper (fire (Disappear i)) (state_with its b1 q txt) =
  state_with (filter (fun it => item_id it ≠ i) its) b1 q txt.
Proof. reflexivity. Qed.

Lemma fire_change_color i cl its b1 q txt :
  Forall (fun it => is_rectangle it = true) its ->
  callback_wrapper (fire (ChangeColor [i] cl)) (state_with its b1 q txt) =
  state_with (paint cl i its) b1 q txt.
Proof.
  intros Hall. unfold callback_wrapper. cbn [fire]. unfold change_color.
  cbn [Tk.single]. unfold canvas_call, Tk.itemconfig_fill. proj.
  now rewrite (has_fill_rectangles i its nx b1 clk q Hall).
Qed.

Lemma fire_bind its b1 q txt :
  callback_wrapper (fire BindPlay) (state_with its b1 q txt) =
  state_with its true q txt.
Proof. reflexivity. Qed.

Lemma fire_set_text text its b1 q txt :
  callback_wrapper (fire (SetScoreText text)) (state_with its b1 q txt) =
  state_with its b1 q text.
Proof. reflexivity. Qed.

Lemma round_timers_fire its b1 q0 txt T a b cl matched last ima imb k :
  T <= clk ->
  Forall (fun it => is_rectangle it = true /\ (item_id it < k)%nat) its ->
  item_id ima = k -> item_id imb = S k ->
  (last = BindPlay \/ exists text, last = SetScoreText text) ->
  run_timers (round_timers T (S k) k [b] [a] cl matched last)
    (state_with (its ++ [ima; imb]) b1 q0 txt) =
  state_with (if matched then paint cl a (paint cl b its) else its)
    (is_bind last || b1) []
    (match last with SetScoreText text => text | _ => txt end).
Proof.
  intros HT Hits Ha Hb Hlast.
  assert (Forall (fun it => is_rectangle it = true) its) as Hrect.
  { eapply Forall_impl; [exact Hits|]. now intros it [H _]. }
  assert (Forall (fun it => (item_id it < k)%nat) its) as Hk.
  { eapply Forall_impl; [exact Hits|]. now intros it [_ H]. }
  assert (Forall (fun it => (item_id it < S k)%nat) its) as Hk'.
  { eapply Forall_impl; [exact Hk|]. intros it H. cbn beta in *. lia. }
  assert (filter (fun it => item_id it ≠ k)
            (filter (fun it => item_id it ≠ S k) (its ++ [ima; imb])) = its)
    as Hdel.
  { rewrite (delete_shown _ _ _ Hk').
    rewrite filter_cons_True by (rewrite Ha; lia).
    rewrite filter_cons_False by (rewrite Hb; intros H; now apply H).
    rewrite filter_nil.
    rewrite (delete_shown _ _ _ Hk).
    rewrite filter_cons_False by (rewrite Ha; intros H; now apply H).
    rewrite filter_nil. apply app_nil_r. }
  unfold round_timers. cbn [app].
  rewrite (run_timers_due _ _ _ _ _ _ _ HT), fire_disappear.
  rewrite (run_timers_due _ _ _ _ _ _ _ HT), fire_disappear, Hdel.
  destruct matched; cbn [app].
  - rewrite (run_timers_due _ _ _ _ _ _ _ HT), (fire_change_color _ _ _ _ _ _ Hrect).
    rewrite (run_timers_due _ _ _ _ _ _ _ HT),
      (fire_change_color _ _ _ _ _ _ (paint_rectangles _ _ _ Hrect)).
    rewrite (run_timers_due _ _ _ _ _ _ _ HT).
    destruct Hlast as [->|[text ->]];
      [rewrite fire_bind|rewrite fire_set_text]; reflexivity.
  - rewrite (run_timers_due _ _ _ _ _ _ _ HT).
    destruct Hlast as [->|[text ->]];
      [rewrite fire_bind|rewrite fire_set_text]; reflexivity.
Qed.

End Fire.

Lemma init_settled color listing readable fast draws g :
  init color listing readable fast draws = Return g -> settled g.
Proof.
  intros Hinit.
  pose proof (init_board_ok _ _ _ _ _ _ Hinit) as (Htiles & _ & Hattr).
  pose proof (init_canvas_ok _ _ _ _ _ _ Hinit) as (Hitems & Hnext & _).
  apply init_fresh in Hinit
    as (Ht & _ & _ & Hd & _ & (Hpi & Hpn & _) & Hb & _ & Hq & _).
  assert (Forall (fun it => is_rectangle it = true) (items (canvas g))) as Hrect.
  { destruct Hattr as [(_ & _ & _ & _ & H)|([x Hx] & _)]; [exact H|].
    congruence. }
  split; [exact Hb|]. split; [exact Hq|].
  split; [now rewrite Ht|]. split; [rewrite Hd; now destruct fast|].
  destruct Hitems as (tiles & imgs & Hits & Hids & _ & _ & Himgs & _).
  rewrite Forall_forall in *. intros it Hin.
  split; [now apply Hrect|]. split; [|now apply Htiles].
  rewrite Hits in Hin. apply elem_of_app in Hin as [Hin|Hin].
  - pose proof (tiles_ids_small _ _ Hids Hin). lia.
  - apply Himgs in Hin as (_ & _ & [_ H] & _).
    exact H.
Qed.

Lemma find_app_some (f : item -> bool) l1 l2 x :
  List.find f l1 = Some x -> List.find f (l1 ++ l2) = Some x.
Proof.
  induction l1 as [|y l1 IH]; [discriminate|]. cbn [List.find app].
  destruct (f y); [trivial|exact IH].
Qed.

Lemma round_timers_wait T curr p tile pt cl matched last g :
  clock (canvas g) < T ->
  run_timers (round_timers T curr p tile pt cl matched last) g = g.
Proof.
  intros H. unfold round_timers. cbn [app run_timers due].
  now rewrite (proj2 (Z.leb_gt _ _) H).
Qed.

Lemma image_of_id tile name i : item_id (image_of tile name i) = i.
Proof.
  unfold image_of.
  now destruct (item_coords tile) as [|x1 [|y1 [|x2 [|y2 [|]]]]].
Qed.

Lemma paint_settled cl i (n n' : nat) dict its :
  (n <= n')%nat ->
  Forall (fun it => is_rectangle it = true /\ (item_id it < n)%nat /\
                    tile_ok dict it) its ->
  Forall (fun it => is_rectangle it = true /\ (item_id it < n')%nat /\
                    tile_ok dict it) (paint cl i its).
Proof.
  intros Hle Hall. unfold paint. apply Forall_map.
  eapply Forall_impl; [exact Hall|]. intros it (Hr & Hid & Hok). cbn beta.
  destruct (Nat.eqb _ _).
  - destruct (with_fill_same cl it) as (-> & -> & _).
    split; [exact Hr|]. split; [lia|now apply tile_ok_with_fill].
  - split; [exact Hr|]. split; [lia|exact Hok].
Qed.

Lemma deliver_first_click a na rest it g :
  button1 (canvas g) = true -> timers (canvas g) = [] ->
  Tk.find_item a (canvas g) = Some it ->
  length (item_coords it) = 4%nat ->
  item_tags it = na :: rest -> na ∈ image_dict g ->
  Float.whole (turns g + (1 # 2)) = false ->
  deliver_input g (Click (Some a)) =
    MkGame (turns g + (1 # 2)) (delay g) (remaining_tiles g) (color g)
      (image_names g) (image_dict g)
      (MkCanvas (items (canvas g) ++ [image_of it na (next_id (canvas g))])
         (S (next_id (canvas g))) true (clock (canvas g)) [])
      (score g) (score_text g) (Some (next_id (canvas g))) (Some na)
      (Some [a]).
Proof.
  intros Hb Hq Hi Hc Ht Hin Hw. cbn [deliver_input]. rewrite Hb.
  unfold callback_wrapper. rewrite (first_click a na rest it g Hi Hc Ht Hin Hw).
  cbn [snd]. rewrite Hb, Hq. reflexivity.
Qed.

Lemma deliver_second_click b nb rest it g p pn pt :
  button1 (canvas g) = true -> timers (canvas g) = [] -> 0 < delay g ->
  Tk.find_item b (canvas g) = Some it ->
  length (item_coords it) = 4%nat ->
  item_tags it = nb :: rest -> nb ∈ image_dict g ->
  Float.whole (turns g + (1 # 2)) = true ->
  prev_image g = Some p -> prev_name g = Some pn -> prev_tile g = Some pt ->
  let matched := bool_decide (nb = pn) in
  let remaining := if matched then remaining_tiles g - 2 else remaining_tiles g in
  let last :=
    if bool_decide (remaining = 0)
    then SetScoreText (GameOverLabel (counted_score g)
                         (Float.to_int (turns g + (1 # 2))))
    else BindPlay in
  deliver_input g (Click (Some b)) =
    MkGame (turns g + (1 # 2)) (delay g) remaining (color g)
      (image_names g) (image_dict g)
      (MkCanvas (items (canvas g) ++ [image_of it nb (next_id (canvas g))])
         (S (next_id (canvas g))) false (clock (canvas g))
         (round_timers (clock (canvas g) + delay g) (next_id (canvas g)) p
            [b] pt (color g) matched last))
      (counted_score g) (counted_text g) (prev_image g) (prev_name g)
      (prev_tile g).
Proof.
  intros Hb Hq Hd Hi Hc Ht Hin Hw Hp Hpn Hpt. cbv zeta.
  cbn [deliver_input]. rewrite Hb. unfold callback_wrapper.
  rewrite (second_click b nb rest it g p pn pt Hi Hc Ht Hin Hw Hp Hpn Hpt Hq).
  cbn [snd]. unfold idle. proj. apply round_timers_wait. proj. lia.
Qed.

(** X13. A round.  From a settled board, a click on a tile, any wait, a
    click on a tile and a wait of at least the delay leave both images
    removed and nothing pending; when the two tiles bear the same name both
    are painted in the player's colour and [remaining_tiles] drops by 2,
    otherwise the tiles and the count are as before; the canvas is bound
    again exactly when tiles remain, and the board is then settled for the
    next round. *)
Theorem pair_resolves g a b na nb m1 ms :
  settled g ->
  tile_bears a na g = true -> tile_bears b nb g = true ->
  delay g <= Z.of_nat ms ->
  let g' := session g [Click (Some a); Elapse m1; Click (Some b); Elapse ms] in
  let matched := bool_decide (nb = na) in
  items (canvas g') =
    (if matched
     then paint (color g) a (paint (color g) b (items (canvas g)))
     else items (canvas g)) /\
  remaining_tiles g' =
    (if matched then remaining_tiles g - 2 else remaining_tiles g) /\
  button1 (canvas g') = negb (bool_decide (remaining_tiles g' = 0)) /\
  timers (canvas g') = [] /\
  (remaining_tiles g' <> 0 -> settled g').
Proof.
  intros (Hb & Hq & Hw & Hd & Hits) Ha Hbb Hms.
  pose proof Ha as (ita & ? & ? & ? & ? & resta & Hia & Hca & Hta)%tile_bears_item.
  pose proof Hbb as (itb & ? & ? & ? & ? & restb & Hib & Hcb & Htb)%tile_bears_item.
  assert (na ∈ image_dict g /\ nb ∈ image_dict g) as [Hna Hnb].
  { rewrite Forall_forall in Hits.
    split; [destruct (find_item_some _ _ _ Hia) as [Hin _]
           |destruct (find_item_some _ _ _ Hib) as [Hin _]];
      destruct (Hits _ Hin) as (Hr & _ & Hok);
      destruct (Hok Hr) as (_ & n & Hn & Hdict);
      [rewrite Hta in Hn|rewrite Htb in Hn]; now injection Hn as ->. }
  destruct (FloatFacts.whole_next _ Hw) as [Hw1 Hw2].
  apply (f_equal (@length Z)) in Hca, Hcb. cbn [length] in Hca, Hcb.
  cbv zeta.
  set (matched := bool_decide (nb = na)).
  set (rem := if matched then remaining_tiles g - 2 else remaining_tiles g).
  assert (exists last sc' txt',
    (last = BindPlay /\ rem <> 0 \/
     (exists text, last = SetScoreText text) /\ rem = 0) /\
    session g [Click (Some a); Elapse m1; Click (Some b); Elapse ms] =
    MkGame (turns g + (1 # 2) + (1 # 2)) (delay g) rem (color g)
      (image_names g) (image_dict g)
      (MkCanvas
         (if matched
          then paint (color g) a (paint (color g) b (items (canvas g)))
          else items (canvas g))
         (S (S (next_id (canvas g)))) (is_bind last || false)
         (clock (canvas g) + Z.of_nat m1 + Z.of_nat ms) [])
      sc' txt' (Some (next_id (canvas g))) (Some na) (Some [a]))
    as (last & sc' & txt' & Hlast & Hg').
  { change (session g [Click (Some a); Elapse m1; Click (Some b); Elapse ms])
      with (deliver_input
              (deliver_input
                 (deliver_input (deliver_input g (Click (Some a))) (Elapse m1))
                 (Click (Some b)))
              (Elapse ms)).
    rewrite (deliver_first_click a na resta ita g Hb Hq Hia Hca Hta Hna Hw1).
    rewrite (deliver_wait m1) by reflexivity. proj.
    match goal with
    | |- context [deliver_input ?g1 (Click (Some b))] =>
        rewrite (deliver_second_click b nb restb itb g1 (next_id (canvas g))
                   na [a]);
          [|reflexivity|reflexivity|exact Hd|apply find_app_some; exact Hib
           |exact Hcb|exact Htb|exact Hnb|exact Hw2|reflexivity..]
    end.
    proj. fold matched. fold rem.
    match goal with
    | |- context [round_timers _ _ _ _ _ _ _ ?l] => set (last := l)
    end.
    assert (last = BindPlay /\ rem <> 0 \/
            (exists text, last = SetScoreText text) /\ rem = 0) as Hlast.
    { subst last. destruct (bool_decide (rem = 0)) eqn:Hrem.
      - right. apply bool_decide_eq_true in Hrem. split; [eauto|exact Hrem].
      - left. apply bool_decide_eq_false in Hrem. now split. }
    exists last. do 2 eexists. split; [exact Hlast|].
    cbn [deliver_input]. unfold idle. proj. rewrite <- app_assoc. cbn [app].
    unfold set_canvas, Tk.set_clock. proj.
    rewrite (round_timers_fire _ _ _ _ _ _ _ _ _ _ _ _ _ _ _ _ _ _ _ _ _ _
               _ _ (next_id (canvas g))).
    - reflexivity.
    - lia.
    - eapply Forall_impl; [exact Hits|]. now intros it (H1 & H2 & _).
    - apply image_of_id.
    - apply image_of_id.
    - destruct Hlast as [[H _]|[H _]]; [now left|now right]. }
  rewrite Hg'. proj.
  split; [reflexivity|]. split; [reflexivity|].
  split.
  { destruct Hlast as [[-> H]|[[text ->] H]].
    - now rewrite (bool_decide_eq_false_2 _ H).
    - now rewrite (bool_decide_eq_true_2 _ H). }
  split; [reflexivity|].
  intros Hrem. destruct Hlast as [[-> _]|[_ H]]; [|contradiction].
  split; [reflexivity|]. split; [reflexivity|]. split; [exact Hw2|].
  split; [exact Hd|]. proj.
  destruct matched.
  - apply (paint_settled _ _ (S (next_id (canvas g)))); [lia|].
    apply (paint_settled _ _ (next_id (canvas g))); [lia|exact Hits].
  - eapply Forall_impl; [exact Hits|]. intros it (H1 & H2 & H3).
    split; [exact H1|]. split; [lia|exact H3].
Qed.

Lemma pair_resolves_witness :
  settled sample_game /\
  tile_bears 1 "b.gif" sample_game = true /\
  tile_bears 9 "b.gif" sample_game = true /\
  delay sample_game <= Z.of_nat 1000 /\
  let g' :=
    session sample_game
      [Click (Some 1%nat); Elapse 250; Click (Some 9%nat); Elapse 1000] in
  let matched := bool_decide ("b.gif"%string = "b.gif"%string) in
  items (canvas g') =
    (if matched
     then paint (color sample_game) 1
            (paint (color sample_game) 9 (items (canvas sample_game)))
     else items (canvas sample_game)) /\
  remaining_tiles g' =
    (if matched then remaining_tiles sample_game - 2
     else remaining_tiles sample_game) /\
  button1 (canvas g') = negb (bool_decide (remaining_tiles g' = 0)) /\
  timers (canvas g') = [] /\
  (remaining_tiles g' <> 0 -> settled g').
Proof.
  pose proof (init_settled "blue" eight_gifs all_readable true [] sample_game
                sample_game_init) as Hs.
  assert (tile_bears 1 "b.gif" sample_game = true) as H1
    by (vm_compute; reflexivity).
  assert (tile_bears 9 "b.gif" sample_game = true) as H9
    by (vm_compute; reflexivity).
  assert (delay sample_game <= Z.of_nat 1000) as Hd
    by (vm_compute; discriminate).
  repeat (split; [assumption|]).
  exact (pair_resolves sample_game 1 9 "b.gif" "b.gif" 250 1000 Hs H1 H9 Hd).
Defined.

